(** * web-explorer: session orchestration engine

    A shallow embedding of the proxy pool ([src/proxy]), the randomisation
    utilities ([src/humanizer]), the action handlers and the weighted action
    scheduler ([src/actions], [src/explorer/loop.ts]) and the recovery
    protocol ([src/explorer/index.ts], [src/explorer/recovery.ts]), with
    the exploration loop, the command-line overrides ([src/config]), the
    locale selection ([src/browser/locales.ts]) and the proxy setup of the
    entry point ([src/index.ts]).

    Conventions of the embedding:
    - a JavaScript exception is the [Throw] outcome of a computation; a
      [try { .. } catch { .. }] block is [try_catch];
    - [Math.random()] reads the next element of a stream of rationals held
      in the state, so that a run is a function of the draws;
    - the page-automation driver (Playwright) is an abstract interface: every
      capability call may return a value or throw, and may change the page. *)

From Stdlib Require Import ZArith QArith Qround Lqa String Ascii List Lia Permutation.
From Stdlib Require DecimalString.
From stdpp Require Import base list gmap strings.

Set Default Proof Using "Type".
Local Open Scope string_scope.
Local Open Scope list_scope.

(** ** Outcomes of JavaScript computations *)

Inductive Res (A : Type) : Type :=
| Ok (a : A)
| Throw (e : string).
Arguments Ok {A} a.
Arguments Throw {A} e.

(** A computation over a state [S] that returns or throws; the state reached
    is kept in both cases (effects before a throw are not rolled back). *)
Definition M (S A : Type) : Type := S -> Res A * S.

Definition ret {S A} (a : A) : M S A := fun s => (Ok a, s).
Definition throw {S A} (e : string) : M S A := fun s => (Throw e, s).
Definition bind {S A B} (m : M S A) (k : A -> M S B) : M S B :=
  fun s => match m s with
           | (Ok a, s') => k a s'
           | (Throw e, s') => (Throw e, s')
           end.
Definition try_catch {S A} (m : M S A) (h : string -> M S A) : M S A :=
  fun s => match m s with
           | (Ok a, s') => (Ok a, s')
           | (Throw e, s') => h e s'
           end.
Definition gets {S A} (f : S -> A) : M S A := fun s => (Ok (f s), s).
Definition modify {S} (f : S -> S) : M S unit := fun s => (Ok tt, f s).

(** [m] returns from every state. *)
Definition returns {S A} (m : M S A) : Prop :=
  forall s, exists a s', m s = (Ok a, s').

Declare Scope js_scope.
Delimit Scope js_scope with js.
Notation "'let*' x ':=' m 'in' k" := (bind m (fun x => k))
  (at level 10, x pattern, m at level 100, k at level 200) : js_scope.
Notation "m ';;' k" := (bind m (fun _ => k))
  (at level 100, k at level 200, right associativity) : js_scope.

(** ** JavaScript string helpers *)

Module JS.

(** [s.startsWith(p)] *)
Definition startsWith (p s : string) : bool := String.prefix p s.

(** White space and line terminators removed by [String.prototype.trim],
    restricted to the code units below 256. *)
Definition isSpace (c : ascii) : bool :=
  let n := nat_of_ascii c in
  (n =? 9)%nat || (n =? 10)%nat || (n =? 11)%nat || (n =? 12)%nat
  || (n =? 13)%nat || (n =? 32)%nat || (n =? 160)%nat.

Fixpoint trimStart (s : string) : string :=
  match s with
  | String c s' => if isSpace c then trimStart s' else s
  | EmptyString => EmptyString
  end.

Fixpoint trimEnd (s : string) : string :=
  match s with
  | String c s' =>
      match trimEnd s' with
      | EmptyString => if isSpace c then EmptyString else String c EmptyString
      | t => String c t
      end
  | EmptyString => EmptyString
  end.

Definition trim (s : string) : string := trimEnd (trimStart s).

(** [content.split(/\r?\n/)]: [acc] is the current line, reversed. *)
Fixpoint splitLinesAux (acc : list ascii) (s : string) : list string :=
  match s with
  | EmptyString => [string_of_list_ascii (rev acc)]
  | String c s' =>
      if Ascii.eqb c "010"%char then
        string_of_list_ascii (rev acc) :: splitLinesAux [] s'
      else if Ascii.eqb c "013"%char then
        match s' with
        | String c' s'' =>
            if Ascii.eqb c' "010"%char then
              string_of_list_ascii (rev acc) :: splitLinesAux [] s''
            else splitLinesAux (c :: acc) s'
        | EmptyString => splitLinesAux (c :: acc) s'
        end
      else splitLinesAux (c :: acc) s'
  end.
Definition splitLines (s : string) : list string := splitLinesAux [] s.

(** [s.replace(pat, rep)] for a one-character pattern: the first
    occurrence only. *)
Fixpoint replaceFirst (pat : ascii) (rep : string) (s : string) : string :=
  match s with
  | EmptyString => EmptyString
  | String c s' =>
      if Ascii.eqb c pat then rep ++ s' else String c (replaceFirst pat rep s')
  end.

Definition isDigit (c : ascii) : bool :=
  let n := nat_of_ascii c in (48 <=? n)%nat && (n <=? 57)%nat.

(** Leading decimal digits of [s], accumulated; [seen] records whether a
    digit was read. *)
Fixpoint digits (acc : Z) (seen : bool) (s : string) : option Z :=
  match s with
  | String c s' =>
      if isDigit c
      then digits (10 * acc + Z.of_nat (nat_of_ascii c - 48)) true s'
      else if seen then Some acc else None
  | EmptyString => if seen then Some acc else None
  end.

(** [parseInt(s, 10)]; [None] is NaN. *)
Definition parseInt (s : string) : option Z :=
  match trimStart s with
  | String "-" s' => Z.opp <$> digits 0 false s'
  | String "+" s' => digits 0 false s'
  | t => digits 0 false t
  end.

(** Number-to-string conversion of an integer. *)
Definition ofZ (z : Z) : string :=
  DecimalString.NilZero.string_of_int (Z.to_int z).

(** The fields of a WHATWG [URL] object read by this program. *)
Record URL : Type := {
  url_protocol : string;
  url_hostname : string;
  url_port : string;
  url_username : string;
  url_password : string;
  url_origin : string;
  url_pathname : string;
  url_search : string;
}.

(** [s.substring(0, n)] *)
Fixpoint substring0 (n : nat) (s : string) : string :=
  match n, s with
  | S n', String c s' => String c (substring0 n' s')
  | _, _ => EmptyString
  end.

(** [a < b] on numbers. *)
Definition Qltb (a b : Q) : bool :=
  match (a ?= b)%Q with
  | Lt => true
  | _ => false
  end.

(** The double-quote character, and the attribute selector
    [e[name=QvalueQ]] with [Q] the double quote. *)
Definition quote : string := String (ascii_of_nat 34) EmptyString.
Definition attrOpen (e name value : string) : string :=
  (e ++ "[" ++ name ++ "=" ++ quote ++ value ++ quote)%string.
Definition attr (e name value : string) : string :=
  (attrOpen e name value ++ "]")%string.

(** Truthiness of [string | null]. *)
Definition truthy (o : option string) : bool :=
  match o with
  | Some s => negb (String.eqb s EmptyString)
  | None => false
  end.

End JS.

(** ** Proxy pool ([src/proxy]) *)

Module Proxy.

(** [types.ts] *)
Record ProxyEntry : Type := {
  server : string;
  protocol : string;
  host : string;
  port : Z;
  username : option string;
  password : option string;
}.

#[global] Instance ProxyEntry_eq_dec : EqDecision ProxyEntry.
Proof. solve_decision. Defined.

Section Loader.
(** [new URL(line)]: [None] when the constructor throws. *)
Variable new_URL : string -> option JS.URL.
(** [decodeURIComponent(s)]: [None] when it throws (malformed escape). *)
Variable decodeURIComponent : string -> option string.
(** The file system as seen by [existsSync]/[readFileSync]: the content
    of the file at a path, [None] when there is no such file. *)
Variable fs : string -> option string.

(** [parseProxyLine] of [loader.ts]; [None] when it throws. *)
Definition parseProxyLine (line : string) : option ProxyEntry :=
  match new_URL line with
  | None => None
  | Some url =>
      let protocol := JS.replaceFirst ":" EmptyString (JS.url_protocol url) in
      let host := JS.url_hostname url in
      match JS.parseInt (JS.url_port url) with
      | None => None
      | Some port =>
          if String.eqb host EmptyString || (port =? 0)%Z then None
          else
            let entry :=
              {| server := protocol ++ "://" ++ host ++ ":" ++ JS.ofZ port;
                 protocol := protocol; host := host; port := port;
                 username := None; password := None |} in
            let withUser :=
              if String.eqb (JS.url_username url) EmptyString then Some entry
              else match decodeURIComponent (JS.url_username url) with
                   | Some u => Some {| server := server entry;
                                       protocol := protocol; host := host;
                                       port := port; username := Some u;
                                       password := None |}
                   | None => None
                   end in
            match withUser with
            | None => None
            | Some e =>
                if String.eqb (JS.url_password url) EmptyString then Some e
                else match decodeURIComponent (JS.url_password url) with
                     | Some p => Some {| server := server e;
                                         protocol := protocol; host := host;
                                         port := port;
                                         username := username e;
                                         password := Some p |}
                     | None => None
                     end
            end
      end
  end.

(** The body of the [for] loop of [loadProxies] over the lines. *)
Fixpoint parseLines (lines : list string) : list ProxyEntry :=
  match lines with
  | [] => []
  | rawLine :: rest =>
      let line := JS.trim rawLine in
      if String.eqb line EmptyString || JS.startsWith "#" line then parseLines rest
      else match parseProxyLine line with
           | Some parsed => parsed :: parseLines rest
           | None => parseLines rest
           end
  end.

(** [loadProxies] of [loader.ts]. *)
Definition loadProxies (filePath : string) : Res (list ProxyEntry) :=
  match fs filePath with
  | None => Throw ("Proxies file not found: " ++ filePath)
  | Some content => Ok (parseLines (JS.splitLines content))
  end.
End Loader.

Section Checker.
(** The network the health check probes through. *)
Variable Net : Type.
(** [checkProxy] of [checker.ts]: its body sits in [try]/[catch]/[finally]
    and every path returns a boolean. *)
Variable checkProxy : ProxyEntry -> Net -> bool * Net.

(** [Promise.all(chunk.map(...))], the probes taken in list order. *)
Fixpoint checkChunk (chunk : list ProxyEntry) (n : Net)
  : list (ProxyEntry * bool) * Net :=
  match chunk with
  | [] => ([], n)
  | p :: rest =>
      let (ok, n1) := checkProxy p n in
      let (rs, n2) := checkChunk rest n1 in
      ((p, ok) :: rs, n2)
  end.

(** The chunking loop [for (i = 0; i < proxies.length; i += concurrency)];
    [fuel] bounds the number of iterations. *)
Fixpoint chunksOf (fuel concurrency : nat) (l : list ProxyEntry)
  : list (list ProxyEntry) :=
  match fuel with
  | O => []
  | S fuel' =>
      match l with
      | [] => []
      | _ => take concurrency l :: chunksOf fuel' concurrency (drop concurrency l)
      end
  end.

Fixpoint checkChunks (chunks : list (list ProxyEntry)) (n : Net)
  : list ProxyEntry * Net :=
  match chunks with
  | [] => ([], n)
  | chunk :: rest =>
      let (results, n1) := checkChunk chunk n in
      let (working, n2) := checkChunks rest n1 in
      ((fst <$> filter (fun r => snd r = true) results) ++ working, n2)
  end.

(** [filterWorkingProxies] of [checker.ts], [concurrency] at least 1. *)
Definition filterWorkingProxies (proxies : list ProxyEntry)
    (concurrency : nat) (n : Net) : list ProxyEntry * Net :=
  checkChunks (chunksOf (length proxies) concurrency proxies) n.

(** The entries whose probe answered [true], the list probed in order. *)
Definition passing (proxies : list ProxyEntry) (n : Net) : list ProxyEntry :=
  fst <$> filter (fun r => snd r = true) (fst (checkChunk proxies n)).
End Checker.

(** [index.ts]: the manager's two private fields. *)
Record ProxyManager : Type := {
  proxies : list ProxyEntry;
  currentIndex : nat;
}.

Definition newProxyManager : ProxyManager :=
  {| proxies := []; currentIndex := 0 |}.

Definition getNext (pm : ProxyManager) : option ProxyEntry * ProxyManager :=
  if (length (proxies pm) =? 0)%nat then (None, pm)
  else
    let proxy := proxies pm !! currentIndex pm in
    (proxy, {| proxies := proxies pm;
               currentIndex := (currentIndex pm + 1) mod length (proxies pm) |}).

Definition markDead (proxy : ProxyEntry) (pm : ProxyManager) : ProxyManager :=
  let ps := filter (fun p => server p ≠ server proxy) (proxies pm) in
  {| proxies := ps;
     currentIndex := if (length ps <=? currentIndex pm)%nat then 0%nat
                     else currentIndex pm |}.

Definition getCount (pm : ProxyManager) : nat := length (proxies pm).
Definition hasProxies (pm : ProxyManager) : bool := (0 <? length (proxies pm))%nat.

Section Initialize.
Variable new_URL : string -> option JS.URL.
Variable decodeURIComponent : string -> option string.
Variable fs : string -> option string.
Variable Net : Type.
Variable checkProxy : ProxyEntry -> Net -> bool * Net.

(** [ProxyManager.initialize]; the default [concurrency = 3] of
    [filterWorkingProxies] is used. *)
Definition initialize (filePath : string) : M (ProxyManager * Net) unit :=
  fun '(pm, n) =>
    match loadProxies new_URL decodeURIComponent fs filePath with
    | Throw e => (Throw e, (pm, n))
    | Ok allProxies =>
        if (length allProxies =? 0)%nat then (Ok tt, (pm, n))
        else
          let (working, n') := filterWorkingProxies Net checkProxy allProxies 3 n in
          let pm' := {| proxies := working; currentIndex := currentIndex pm |} in
          if (length working =? 0)%nat
          then (Throw "No working proxies found! All proxies failed health check.",
                (pm', n'))
          else (Ok tt, (pm', n'))
    end.
End Initialize.

(** [k] consecutive calls of [getNext]. *)
Fixpoint getNextN (k : nat) (pm : ProxyManager)
  : list (option ProxyEntry) * ProxyManager :=
  match k with
  | O => ([], pm)
  | S k' =>
      let (r, pm1) := getNext pm in
      let (rs, pm2) := getNextN k' pm1 in
      (r :: rs, pm2)
  end.

(** The operations sessions apply to the shared pool. *)
Inductive Op : Type :=
| OpGetNext
| OpMarkDead (proxy : ProxyEntry).

Definition step (pm : ProxyManager) (o : Op) : ProxyManager :=
  match o with
  | OpGetNext => snd (getNext pm)
  | OpMarkDead p => markDead p pm
  end.

Definition runOps (ops : list Op) (pm : ProxyManager) : ProxyManager :=
  fold_left step ops pm.

(** The cursor invariant of the data model. *)
Definition cursorValid (pm : ProxyManager) : Prop :=
  currentIndex pm < length (proxies pm) ∨ proxies pm = [].

(** What the [getNext] calls of a sequence of operations return, in order. *)
Fixpoint served (ops : list Op) (pm : ProxyManager) : list (option ProxyEntry) :=
  match ops with
  | [] => []
  | OpGetNext :: rest => fst (getNext pm) :: served rest (snd (getNext pm))
  | OpMarkDead p :: rest => served rest (markDead p pm)
  end.

(** The lines [loadProxies] hands to [parseProxyLine]: trimmed, neither
    empty nor a comment. *)
Definition proxyLine (line : string) : bool :=
  negb (String.eqb line EmptyString || JS.startsWith "#" line).

End Proxy.

(** ** JavaScript numbers with infinities and NaN *)

Module Num.

Inductive t : Type :=
| Fin (q : Q)
| PInf
| NInf
| NaN.

Definition mul (a b : t) : t :=
  match a, b with
  | NaN, _ | _, NaN => NaN
  | Fin x, Fin y => Fin (x * y)
  | Fin x, PInf | PInf, Fin x =>
      match (x ?= 0)%Q with Gt => PInf | Lt => NInf | Eq => NaN end
  | Fin x, NInf | NInf, Fin x =>
      match (x ?= 0)%Q with Gt => NInf | Lt => PInf | Eq => NaN end
  | PInf, PInf | NInf, NInf => PInf
  | PInf, NInf | NInf, PInf => NInf
  end.

Definition add (a b : t) : t :=
  match a, b with
  | NaN, _ | _, NaN => NaN
  | Fin x, Fin y => Fin (x + y)
  | PInf, NInf | NInf, PInf => NaN
  | PInf, _ | _, PInf => PInf
  | NInf, _ | _, NInf => NInf
  end.

(** [Math.min(a, b)] *)
Definition min (a b : t) : t :=
  match a, b with
  | NaN, _ | _, NaN => NaN
  | NInf, _ | _, NInf => NInf
  | PInf, x | x, PInf => x
  | Fin x, Fin y => if JS.Qltb y x then Fin y else Fin x
  end.

(** [Math.max(a, b)] *)
Definition max (a b : t) : t :=
  match a, b with
  | NaN, _ | _, NaN => NaN
  | PInf, _ | _, PInf => PInf
  | NInf, x | x, NInf => x
  | Fin x, Fin y => if JS.Qltb x y then Fin y else Fin x
  end.

(** [Math.round(a)]: the nearest integer, halves rounded up. *)
Definition round (a : t) : t :=
  match a with
  | Fin x => Fin (inject_Z (Qfloor (x + (1 # 2))%Q))
  | other => other
  end.

(** [lo <= a <= hi] on finite values; false on NaN and infinities. *)
Definition within (lo hi : Q) (a : t) : Prop :=
  match a with
  | Fin x => (lo <= x)%Q ∧ (x <= hi)%Q
  | _ => False
  end.

End Num.

(** ** The capability interface of the page-automation driver *)

Module Driver.

(** [page.locator(sel)], [.first()], [.nth(i)]: locators are descriptions,
    resolved when an operation is awaited on them. *)
Inductive Locator : Type :=
| Loc (selector : string)
| First (l : Locator)
| Nth (l : Locator) (i : nat).

(** The part of a bounding box the handlers read. *)
Record Box : Type := { width : Q; height : Q }.

(** Options of [element.click({ delay, position: { x, y } })]. *)
Record ClickOptions : Type := { delay : Q; position_x : Q; position_y : Q }.

(** The awaited capability calls, indexed by the type of their result. *)
Inductive Call : Type -> Type :=
| IsVisible (l : Locator) : Call bool
| Count (l : Locator) : Call nat
| BoundingBox (l : Locator) : Call (option Box)
| TextContent (l : Locator) : Call (option string)
| Hover (l : Locator) : Call unit
| Click (l : Locator) (options : option ClickOptions) : Call unit
| ScrollIntoViewIfNeeded (l : Locator) : Call unit
| KeyboardType (codeUnit : Z) : Call unit
| KeyboardPress (key : string) : Call unit
| MouseWheel (deltaX deltaY : Z) : Call unit
| HistoryLength : Call Z
| GoBack : Call unit
| GoForward : Call unit
| Goto (url : string) : Call unit
| AnchorHrefs : Call (list string).

(** A call of any result type, as kept in the list of calls issued. *)
Definition AnyCall : Type := { A : Type & Call A }.
Definition anyCall {A : Type} (c : Call A) : AnyCall := existT A c.

(** What the program runs on: the driver, the URL parser of the runtime and
    the floating-point Box-Muller factor
    [Math.sqrt(-2.0 * Math.log(u1)) * Math.cos(2.0 * Math.PI * u2)]. *)
Class Platform : Type := {
  Page : Type;
  (** [page.url()] *)
  page_url : Page -> string;
  (** an awaited call returns or throws, and may change the page *)
  perform : forall A, Call A -> Page -> Res A * Page;
  (** [new URL(s)]: [None] when the constructor throws *)
  new_URL : string -> option JS.URL;
  boxMuller : Q -> Q -> Num.t;
}.

(** The state a handler works on: the page, the stream read by
    [Math.random()] with the number of draws taken so far, and the calls
    issued so far (oldest first). *)
Record Browser `{Platform} : Type := {
  page : Page;
  draws : nat -> Q;
  drawn : nat;
  calls : list AnyCall;
}.

Definition Math_random `{Platform} : M Browser Q :=
  fun b => (Ok (draws b (drawn b)),
            {| page := page b; draws := draws b; drawn := S (drawn b);
               calls := calls b |}).

Definition call `{Platform} {A} (c : Call A) : M Browser A :=
  fun b => let (r, p) := perform A c (page b) in
           (r, {| page := p; draws := draws b; drawn := drawn b;
                  calls := calls b ++ [anyCall c] |}).

(** The browser after [n] more draws were read. *)
Definition skip `{Platform} (n : nat) (b : Browser) : Browser :=
  {| page := page b; draws := draws b; drawn := n + drawn b; calls := calls b |}.

(** [page.url()] *)
Definition url `{Platform} : M Browser string := gets (fun b => page_url (page b)).

(** Every draw of the stream is in [0, 1), as [Math.random()] promises. *)
Definition unitDraws `{Platform} (b : Browser) : Prop :=
  forall k, (0 <= draws b k)%Q /\ (draws b k < 1)%Q.

(** The driver method behind a call. *)
Definition method {A : Type} (c : Call A) : string :=
  match c with
  | IsVisible _ => "locator.isVisible"
  | Count _ => "locator.count"
  | BoundingBox _ => "locator.boundingBox"
  | TextContent _ => "locator.textContent"
  | Hover _ => "locator.hover"
  | Click _ _ => "locator.click"
  | ScrollIntoViewIfNeeded _ => "locator.scrollIntoViewIfNeeded"
  | KeyboardType _ => "keyboard.type"
  | KeyboardPress _ => "keyboard.press"
  | MouseWheel _ _ => "mouse.wheel"
  | HistoryLength => "evaluate(history.length)"
  | GoBack => "page.goBack"
  | GoForward => "page.goForward"
  | Goto _ => "page.goto"
  | AnchorHrefs => "evaluate(anchors)"
  end.
Definition methodOf (c : AnyCall) : string := method (projT2 c).

(** The read-only probes of a locator. *)
Definition probes : list string :=
  ["locator.count"; "locator.isVisible"; "locator.boundingBox";
   "locator.textContent"].

(** [m] does nothing to the list of calls but append calls of the methods
    [ms], on either outcome. *)
Definition only `{Platform} {A : Type} (ms : list string) (m : M Browser A) : Prop :=
  forall b, exists l, calls (snd (m b)) = calls b ++ l
                      /\ Forall (fun c => methodOf c ∈ ms) l.

End Driver.

(** ** Randomisation utilities ([src/humanizer/index.ts]) *)

Module Humanizer.
Import Driver.
Local Open Scope js_scope.
Local Open Scope Z_scope.

(** [sleep(ms)]: the wait changes nothing of the modelled state. *)
Definition sleep `{Platform} (ms : Num.t) : M Browser unit := ret tt.

Definition randomInt `{Platform} (min max : Z) : M Browser Z :=
  let* r := Math_random in
  ret (Qfloor (r * inject_Z (max - min + 1)) + min).

Definition gaussianRandom `{Platform} (mean stddev : Q) : M Browser Num.t :=
  let* u1 := Math_random in
  let* u2 := Math_random in
  let z0 := boxMuller u1 u2 in
  ret (Num.add (Num.mul z0 (Num.Fin stddev)) (Num.Fin mean)).

Definition humanDelay `{Platform} (minMs maxMs : Q) : M Browser unit :=
  let mean := ((minMs + maxMs) / 2)%Q in
  let stddev := ((maxMs - minMs) / 4)%Q in
  let* g := gaussianRandom mean stddev in
  let delay := Num.max (Num.Fin minMs) (Num.min (Num.Fin maxMs) g) in
  sleep delay.

Definition humanTypingDelay `{Platform} : M Browser Num.t :=
  let* g := gaussianRandom 100 30 in
  ret (Num.max (Num.Fin 50) (Num.min (Num.Fin 200) g)).

Definition microPause `{Platform} : M Browser unit :=
  let* ms := randomInt 200 800 in
  sleep (Num.Fin (inject_Z ms)).

Definition thinkingPause `{Platform} : M Browser unit :=
  let* delay := gaussianRandom 3500 800 in
  sleep (Num.max (Num.Fin 2000) (Num.min (Num.Fin 6000) delay)).

(** [arr[i]] for a number [i]: [undefined] off the array. *)
Definition index {A} (arr : list A) (i : Z) : option A :=
  if i <? 0 then None else arr !! Z.to_nat i.

Definition pickRandom `{Platform} {A} (arr : list A) : M Browser (option A) :=
  if (length arr =? 0)%nat then ret None
  else
    let* i := randomInt 0 (Z.of_nat (length arr) - 1) in
    ret (index arr i).

(** [[result[i], result[j]] = [result[j], result[i]]] with both indices on
    the array (where [randomInt(0, i)] puts [j]); nothing is done otherwise. *)
Definition swap {A} (result : list A) (i j : nat) : list A :=
  match result !! j, result !! i with
  | Some rj, Some ri => <[j := ri]> (<[i := rj]> result)
  | _, _ => result
  end.

(** The loop [for (let i = result.length - 1; i > 0; i--)] of [shuffle],
    entered at [i]. *)
Fixpoint shuffleFrom `{Platform} {A} (i : nat) (result : list A)
  : M Browser (list A) :=
  match i with
  | O => ret result
  | S i' =>
      let* j := randomInt 0 (Z.of_nat i) in
      shuffleFrom i' (swap result i (Z.to_nat j))
  end.

Definition shuffle `{Platform} {A} (arr : list A) : M Browser (list A) :=
  shuffleFrom (length arr - 1)%nat arr.

(** The indices [j] that the loop of [shuffle] entered at [i] computes from
    the draws [rs start], [rs (start + 1)], ... *)
Fixpoint choices (rs : nat -> Q) (start i : nat) : list nat :=
  match i with
  | O => []
  | S i' =>
      Z.to_nat (Qfloor (rs start * inject_Z (Z.of_nat i - 0 + 1)) + 0)
      :: choices rs (S start) i'
  end.

(** The loop of [shuffle] entered at [i], as a function of the indices. *)
Fixpoint shuffleIdx {A} (i : nat) (js : list nat) (result : list A) : list A :=
  match i, js with
  | S i', j :: js' => shuffleIdx i' js' (swap result i j)
  | _, _ => result
  end.

(** The position of the input whose element the loop entered at [i] leaves
    at position 0. *)
Fixpoint origin0 (i : nat) (js : list nat) : nat :=
  match i, js with
  | S i', j :: js' =>
      let q := origin0 i' js' in
      if (q =? j)%nat then i else q
  | _, _ => 0%nat
  end.

(** All sequences of indices the loop entered at [i] can compute: [j] ranges
    over [0..i] at step [i]. *)
Fixpoint allChoices (i : nat) : list (list nat) :=
  match i with
  | O => [[]]
  | S i' => js ← allChoices i'; (fun j => j :: js) <$> seq 0 (S i)
  end.

End Humanizer.

(** ** Locale selection ([src/browser/locales.ts]) *)

Module Locales.
Import Driver.
Local Open Scope js_scope.

(** A [LocaleProfile], without its display label. *)
Record LocaleProfile : Type := {
  locale : string;
  timezoneId : string;
  languages : list string;
}.

Definition esES : LocaleProfile :=
  {| locale := "es-ES"; timezoneId := "Europe/Madrid";
     languages := ["es-ES"; "es"] |}.
Definition enUS : LocaleProfile :=
  {| locale := "en-US"; timezoneId := "America/New_York";
     languages := ["en-US"; "en"] |}.
Definition enGB : LocaleProfile :=
  {| locale := "en-GB"; timezoneId := "Europe/London";
     languages := ["en-GB"; "en"] |}.

(** The pool: profiles with their weights. *)
Definition LOCALE_POOL : list (LocaleProfile * Q) :=
  [(esES, 0.80); (enUS, 0.10); (enGB, 0.10)]%Q.

(** The loop of [pickRandomLocale] over the entries left, with the weights
    accumulated so far: the profile returned from inside the loop, if any. *)
Fixpoint pickFrom (roll cumulative : Q) (pool : list (LocaleProfile * Q))
  : option LocaleProfile :=
  match pool with
  | [] => None
  | (profile, weight) :: rest =>
      let cumulative := (cumulative + weight)%Q in
      if JS.Qltb roll cumulative then Some profile
      else pickFrom roll cumulative rest
  end.

(** [pickRandomLocale] over a pool; the fallback after the loop reads the
    first entry, and throws on an empty pool. *)
Definition pickRandomLocaleFrom `{Platform} (pool : list (LocaleProfile * Q))
  : M Browser LocaleProfile :=
  let* roll := Math_random in
  match pickFrom roll 0 pool with
  | Some profile => ret profile
  | None =>
      match pool with
      | (profile, _) :: _ => ret profile
      | [] => throw "TypeError: Cannot read properties of undefined"
      end
  end.

Definition pickRandomLocale `{Platform} : M Browser LocaleProfile :=
  pickRandomLocaleFrom LOCALE_POOL.

(** The sum of the weights of a pool. *)
Definition totalWeight (pool : list (LocaleProfile * Q)) : Q :=
  foldr (fun entry acc => (snd entry + acc)%Q) 0%Q pool.

End Locales.

(** ** Action handlers ([src/actions]) *)

Module Actions.
Import Driver Humanizer.
Local Open Scope js_scope.
Local Open Scope Z_scope.

(** [new URL(s)] as a computation. *)
Definition newURL `{Platform} (s : string) : M Browser JS.URL :=
  match new_URL s with
  | Some u => ret u
  | None => throw "TypeError: Invalid URL"
  end.

(** *** scroll.ts *)

(** The [for] loop of [humanScroll] with [n] steps left. *)
Fixpoint scrollSteps `{Platform} (n : nat) (totalScrolled : Z) : M Browser Z :=
  match n with
  | O => ret totalScrolled
  | S n' =>
      let* d := Math_random in
      let direction := if JS.Qltb 0.15 d then 1 else -1 in
      let* a := randomInt 100 500 in
      let amount := a * direction in
      call (MouseWheel 0 amount) ;;
      let totalScrolled := totalScrolled + amount in
      let* p := url in
      let* _ := newURL p in
      humanDelay 500 2500 ;;
      let* r := Math_random in
      (if JS.Qltb r 0.2 then humanDelay 2000 5000 else ret tt) ;;
      scrollSteps n' totalScrolled
  end.

Definition humanScroll `{Platform} : M Browser Z :=
  let* scrollCount := randomInt 3 8 in
  scrollSteps (Z.to_nat scrollCount) 0.

(** *** type.ts *)

Definition SEARCH_TERMS : list string :=
  ["about"; "contact"; "products"; "services"; "pricing";
   "blog"; "news"; "help"; "faq"; "support"]%string.

Definition INPUT_SELECTORS : list string :=
  [JS.attr "input" "type" "search";
   JS.attr (JS.attr "input" "type" "text") "name*" "search";
   (JS.attrOpen (JS.attr "input" "type" "text") "placeholder*" "search" ++ " i]")%string;
   JS.attr (JS.attr "input" "type" "text") "name*" "query";
   JS.attr (JS.attr "input" "type" "text") "name*" "q"].

(** The search for a visible input: a throwing probe is skipped. *)
Fixpoint findInput `{Platform} (selectors : list string)
  : M Browser (option Locator) :=
  match selectors with
  | [] => ret None
  | selector :: rest =>
      let el := First (Loc selector) in
      let* visible := try_catch (call (IsVisible el)) (fun _ => ret false) in
      if visible then ret (Some el) else findInput rest
  end.

(** [char.charCodeAt(0)] and [String.fromCharCode(n)] on code units. *)
Definition charCodeAt0 (c : ascii) : Z := Z.of_nat (nat_of_ascii c).
Definition fromCharCode (n : Z) : Z := n mod 65536.

(** The body of the typing loop for the character [char] at index [i]. *)
Definition typeChar `{Platform} (i : nat) (char : ascii) : M Browser unit :=
  let* r := Math_random in
  (if JS.Qltb r 0.1 && (0 <? i)%nat then
     let* shift := randomInt (-2) 2 in
     let typoChar := fromCharCode (charCodeAt0 char + shift) in
     let* _ := humanTypingDelay in
     call (KeyboardType typoChar) ;;
     humanDelay 200 500 ;;
     call (KeyboardPress "Backspace") ;;
     humanDelay 100 300
   else ret tt) ;;
  let* _ := humanTypingDelay in
  call (KeyboardType (charCodeAt0 char)).

(** The typing loop from index [i], over the remaining characters. *)
Fixpoint typeChars `{Platform} (i : nat) (chars : list ascii) : M Browser unit :=
  match chars with
  | [] => ret tt
  | char :: rest => typeChar i char ;; typeChars (S i) rest
  end.

Definition humanType `{Platform} : M Browser bool :=
  let* targetInput := findInput INPUT_SELECTORS in
  match targetInput with
  | None => ret false
  | Some input =>
      let* picked := pickRandom SEARCH_TERMS in
      let searchTerm := if JS.truthy picked then default "about"%string picked
                        else "about"%string in
      call (Click input None) ;;
      humanDelay 300 600 ;;
      typeChars 0 (list_ascii_of_string searchTerm) ;;
      humanDelay 800 2000 ;;
      let* r := Math_random in
      (if JS.Qltb 0.5 r then
         call (KeyboardPress "Enter") ;; humanDelay 2000 4000
       else ret tt) ;;
      ret true
  end.

(** *** hover.ts *)

Definition HOVERABLE_SELECTORS : list string :=
  ["img"; "a"; "button"; JS.attr EmptyString "role" "button"; ".card";
   "article"; "nav a"; "h2"; "h3"]%string.

Definition tiny (box : Box) : bool :=
  JS.Qltb (width box) 5 || JS.Qltb (height box) 5.

(** One round of the loop of [humanHover], from the [try] up to
    [element.hover]: the element hovered, if any. *)
Definition hoverAttempt `{Platform} (selector : string)
  : M Browser (option Locator) :=
  let elements := Loc selector in
  let* count := call (Count elements) in
  if (count =? 0)%nat then ret None
  else
    let* index := randomInt 0 (Z.min (Z.of_nat count - 1) 10) in
    let element := Nth elements (Z.to_nat index) in
    let* isVisible := call (IsVisible element) in
    if negb isVisible then ret None
    else
      let* box := call (BoundingBox element) in
      match box with
      | None => ret None
      | Some b =>
          if tiny b then ret None
          else call (Hover element) ;; ret (Some element)
      end.

(** The loop of [humanHover]; [actualHovers] is incremented as soon as
    [element.hover] has returned, also when the rest of the [try] throws. *)
Fixpoint hoverRounds `{Platform} (n : nat) (actualHovers : Z) : M Browser Z :=
  match n with
  | O => ret actualHovers
  | S n' =>
      let* picked := pickRandom HOVERABLE_SELECTORS in
      if negb (JS.truthy picked) then hoverRounds n' actualHovers
      else
        let selector := default EmptyString picked in
        let* hovered := try_catch (hoverAttempt selector) (fun _ => ret None) in
        match hovered with
        | None => hoverRounds n' actualHovers
        | Some element =>
            try_catch
              (let* _ := call (TextContent element) in humanDelay 500 2000)
              (fun _ => ret tt) ;;
            hoverRounds n' (actualHovers + 1)
        end
  end.

Definition humanHover `{Platform} : M Browser Z :=
  let* hoverCount := randomInt 1 4 in
  hoverRounds (Z.to_nat hoverCount) 0.

(** *** click.ts *)

Definition CLICKABLE_SELECTORS : list string :=
  [("a[href]:not(" ++ JS.attr EmptyString "href" "#" ++ "):not("
    ++ JS.attr EmptyString "href" "javascript:void(0)" ++ ")")%string;
   "button:not([disabled])"; JS.attr EmptyString "role" "button";
   "[onclick]"]%string.

Record Candidate : Type := {
  cand_selector : string;
  cand_index : nat;
  cand_text : string;
}.

(** The body of the inner loop of [humanClick] for element [i]: the
    candidate pushed, if any; a throw skips the element. *)
Definition examine `{Platform} (selector : string) (i : nat)
  : M Browser (option Candidate) :=
  try_catch
    (let el := Nth (Loc selector) i in
     let* isVisible := call (IsVisible el) in
     if negb isVisible then ret None
     else
       let* box := call (BoundingBox el) in
       match box with
       | None => ret None
       | Some b =>
           if tiny b then ret None
           else
             let* content := call (TextContent el) in
             let text := if JS.truthy content then default EmptyString content
                         else EmptyString in
             ret (Some {| cand_selector := selector; cand_index := i;
                          cand_text := JS.substring0 50 (JS.trim text) |})
       end)
    (fun _ => ret None).

Fixpoint examineAll `{Platform} (selector : string) (indices : list nat)
  : M Browser (list Candidate) :=
  match indices with
  | [] => ret []
  | i :: rest =>
      let* c := examine selector i in
      let* cs := examineAll selector rest in
      ret (match c with Some x => x :: cs | None => cs end)
  end.

Fixpoint gather `{Platform} (selectors : list string) : M Browser (list Candidate) :=
  match selectors with
  | [] => ret []
  | selector :: rest =>
      let* count := call (Count (Loc selector)) in
      let* here := examineAll selector (seq 0 count) in
      let* others := gather rest in
      ret (here ++ others)
  end.

(** [target.text || target.selector] *)
Definition describe (target : Candidate) : string :=
  if String.eqb (cand_text target) EmptyString then cand_selector target
  else cand_text target.

Definition humanClick `{Platform} : M Browser (option string) :=
  try_catch
    (let* candidates := gather CLICKABLE_SELECTORS in
     if (length candidates =? 0)%nat then ret None
     else
       let* picked := pickRandom candidates in
       match picked with
       | None => ret None
       | Some target =>
           let element := Nth (Loc (cand_selector target)) (cand_index target) in
           microPause ;;
           call (ScrollIntoViewIfNeeded element) ;;
           microPause ;;
           let* r1 := Math_random in
           let* r2 := Math_random in
           let* r3 := Math_random in
           call (Click element
                   (Some {| delay := 50 + r1 * 100;
                            position_x := r2 * 5 + 2;
                            position_y := r3 * 5 + 2 |})) ;;
           humanDelay 1000 3000 ;;
           ret (Some (describe target))
       end)
    (fun _ => ret None).

(** *** back.ts *)

Definition humanBack `{Platform} : M Browser (option string) :=
  try_catch
    (let* currentUrl := url in
     if negb (JS.startsWith "http" currentUrl) then ret None
     else
       let* historyLength := call HistoryLength in
       if historyLength <=? 1 then ret None
       else
         humanDelay 500 1500 ;;
         call GoBack ;;
         let* afterUrl := url in
         if negb (JS.startsWith "http" afterUrl) then
           call GoForward ;; ret None
         else if negb (String.eqb afterUrl currentUrl) then
           humanDelay 1000 2500 ;; ret (Some afterUrl)
         else ret None)
    (fun _ => ret None).

(** *** idle.ts *)

(** The first two statements of [simulateReading]: the duration of the
    reading pause, in milliseconds. *)
Definition readingDuration `{Platform} : M Browser Num.t :=
  let* g := gaussianRandom 6000 2000 in
  let readingTime := Num.round g in
  ret (Num.max (Num.Fin 3000) (Num.min (Num.Fin 12000) readingTime)).

(** *** navigate.ts *)

(** The callback mapped over the anchors inside [page.evaluate]. *)
Definition internalLink `{Platform} (origin href : string) : option string :=
  match new_URL href with
  | None => None
  | Some u =>
      if negb (String.eqb (JS.url_origin u) origin) then None
      else Some (JS.url_origin u ++ JS.url_pathname u ++ JS.url_search u)%string
  end.

(** [[...new Set(links)]]: the first occurrence of each link, in order;
    [seen] holds the links met so far. *)
Fixpoint dedupFrom (seen : list string) (links : list string) : list string :=
  match links with
  | [] => []
  | x :: rest =>
      if bool_decide (x ∈ seen) then dedupFrom seen rest
      else x :: dedupFrom (x :: seen) rest
  end.
Definition dedup (links : list string) : list string := dedupFrom [] links.

(** The links collected from the anchors [hrefs] of a page of origin
    [origin]. *)
Definition internalLinks `{Platform} (origin : string) (hrefs : list string)
  : list string :=
  dedup (omap (internalLink origin) hrefs).

Definition collectInternalLinks `{Platform} : M Browser (list string) :=
  let* rawUrl := url in
  if negb (JS.startsWith "http" rawUrl) then ret []
  else
    let* currentUrl := newURL rawUrl in
    let* hrefs := call AnchorHrefs in
    ret (internalLinks (JS.url_origin currentUrl) hrefs).

Definition navigateToRandomLink `{Platform} (visitedUrls : gset string)
  : M Browser (option string) :=
  let* allLinks := collectInternalLinks in
  let unvisited := filter (fun u => u ∉ visitedUrls) allLinks in
  if (length unvisited =? 0)%nat then ret None
  else
    let* shuffled := shuffle unvisited in
    match shuffled with
    | [] => ret None
    | target :: _ =>
        humanDelay 500 1500 ;;
        try_catch
          (call (Goto target) ;; humanDelay 1000 3000 ;; ret (Some target))
          (fun _ => ret None)
    end.

(** *** The text a sequence of calls leaves in the focused field *)

(** Typing a code unit appends it; Backspace removes the last one; no
    other call of the handlers edits the text. *)
Definition keystroke (field : list Z) (c : AnyCall) : list Z :=
  match projT2 c with
  | KeyboardType codeUnit => field ++ [codeUnit]
  | KeyboardPress key =>
      if String.eqb key "Backspace" then removelast field else field
  | _ => field
  end.

Definition typedText (cs : list AnyCall) : list Z := fold_left keystroke cs [].

(** Whenever [m] returns, it has edited the typed text by [f]. *)
Definition edits `{Platform} {A : Type} (f : list Z -> list Z) (m : M Browser A)
  : Prop :=
  forall b a b', m b = (Ok a, b') -> typedText (calls b') = f (typedText (calls b)).

(** The wheel calls of the scroll amounts, and the probes of [findInput]. *)
Definition wheels (amounts : list Z) : list AnyCall :=
  (fun a => anyCall (MouseWheel 0 a)) <$> amounts.
Definition inputProbes (selectors : list string) : list AnyCall :=
  (fun sel => anyCall (IsVisible (First (Loc sel)))) <$> selectors.

End Actions.

(** ** The action scheduler ([src/explorer/loop.ts]) *)

Module Loop.
Import Driver Humanizer Actions.
Local Open Scope js_scope.

(** [reporter/index.ts]: an action record, without its timestamp. *)
Record ActionRecord : Type := {
  action : string;
  detail : string;
  on_page : string;
}.

(** What the scheduler works on besides the browser: the reporter's records
    and page set, and the session's visited-URL set. *)
Record Session `{Platform} : Type := {
  browser : Browser;
  actions : list ActionRecord;
  pagesVisited : gset string;
  visitedUrls : gset string;
}.

(** The action kinds of the scheduler. *)
Inductive ActionKind : Type :=
| Scroll | Hover | Type_ | Click | Back | Media | Zoom | Idle.

#[global] Instance ActionKind_eq_dec : EqDecision ActionKind.
Proof. solve_decision. Defined.

Definition withBrowser `{Platform} (s : Session) (b : Browser) : Session :=
  {| browser := b; actions := actions s; pagesVisited := pagesVisited s;
     visitedUrls := visitedUrls s |}.

(** A handler receives the page only: it runs on the browser part. *)
Definition onBrowser `{Platform} {A} (m : M Browser A) : M Session A :=
  fun s => let (r, b) := m (browser s) in (r, withBrowser s b).

Definition recordAction `{Platform} (act det pageUrl : string) : M Session unit :=
  modify (fun s => {| browser := browser s;
                      actions := actions s ++ [{| action := act; detail := det;
                                                  on_page := pageUrl |}];
                      pagesVisited := pagesVisited s;
                      visitedUrls := visitedUrls s |}).

Definition recordPageVisit `{Platform} (u : string) : M Session unit :=
  modify (fun s => {| browser := browser s; actions := actions s;
                      pagesVisited := {[u]} ∪ pagesVisited s;
                      visitedUrls := visitedUrls s |}).

(** [ctx.visitedUrls.add(u)] *)
Definition visit `{Platform} (u : string) : M Session unit :=
  modify (fun s => {| browser := browser s; actions := actions s;
                      pagesVisited := pagesVisited s;
                      visitedUrls := {[u]} ∪ visitedUrls s |}).

Definition currentPageUrl `{Platform} : M Session string := onBrowser url.

(** The draw read by the next [Math.random()] and the session after it. *)
Definition nextDraw `{Platform} (s : Session) : Q :=
  draws (browser s) (drawn (browser s)).
Definition afterDraw `{Platform} (s : Session) : Session :=
  snd (onBrowser Math_random s).

Section Scheduler.
Context `{Platform}.
(** The [try] bodies of [humanMedia] (media.ts) and [humanZoom] (zoom.ts):
    sequences of capability calls and draws that return a description or
    [null]; each sits in a [try] whose [catch] returns [null]. *)
Variable mediaBody : M Browser (option string).
Variable zoomBody : M Browser (option string).
(** [humanIdle] (idle.ts): capability calls, draws and waits on the clock,
    outside any [try]. *)
Variable humanIdle : M Browser string.

Definition humanMedia : M Browser (option string) :=
  try_catch mediaBody (fun _ => ret None).

Definition humanZoom : M Browser (option string) :=
  try_catch zoomBody (fun _ => ret None).

(** The tail shared by the type and click branches: the URL comparison. *)
Definition navigated (currentUrl : string) : M Session bool :=
  let* now := currentPageUrl in
  if negb (String.eqb now currentUrl) then
    let* reached := currentPageUrl in
    visit reached ;;
    let* reported := currentPageUrl in
    recordPageVisit reported ;;
    ret true
  else ret false.

Definition performRandomAction (currentUrl : string) : M Session bool :=
  let* roll := onBrowser Math_random in
  if JS.Qltb roll 0.25 then
    let* scrolled := onBrowser humanScroll in
    recordAction "SCROLL" (JS.ofZ scrolled ++ "px") currentUrl ;;
    ret false
  else if JS.Qltb roll 0.37 then
    let* hovered := onBrowser humanHover in
    (if (0 <? hovered)%Z
     then recordAction "HOVER" (JS.ofZ hovered ++ " elements") currentUrl
     else ret tt) ;;
    ret false
  else if JS.Qltb roll 0.45 then
    let* typed := onBrowser humanType in
    if typed then
      recordAction "TYPE" "Search query" currentUrl ;;
      navigated currentUrl
    else ret false
  else if JS.Qltb roll 0.63 then
    let* clicked := onBrowser humanClick in
    if JS.truthy clicked then
      recordAction "CLICK" (default EmptyString clicked) currentUrl ;;
      navigated currentUrl
    else ret false
  else if JS.Qltb roll 0.71 then
    let* backUrl := onBrowser humanBack in
    if JS.truthy backUrl then
      recordAction "BACK" (default EmptyString backUrl) currentUrl ;;
      ret true
    else ret false
  else if JS.Qltb roll 0.78 then
    let* mediaResult := onBrowser humanMedia in
    (if JS.truthy mediaResult
     then recordAction "MEDIA" (default EmptyString mediaResult) currentUrl
     else ret tt) ;;
    ret false
  else if JS.Qltb roll 0.85 then
    let* zoomResult := onBrowser humanZoom in
    (if JS.truthy zoomResult
     then recordAction "ZOOM" (default EmptyString zoomResult) currentUrl
     else ret tt) ;;
    ret false
  else
    let* idleResult := onBrowser humanIdle in
    recordAction "IDLE" idleResult currentUrl ;;
    ret false.

(** The kind whose branch a draw enters. *)
Definition kindOf (roll : Q) : ActionKind :=
  if JS.Qltb roll 0.25 then Scroll
  else if JS.Qltb roll 0.37 then Hover
  else if JS.Qltb roll 0.45 then Type_
  else if JS.Qltb roll 0.63 then Click
  else if JS.Qltb roll 0.71 then Back
  else if JS.Qltb roll 0.78 then Media
  else if JS.Qltb roll 0.85 then Zoom
  else Idle.

(** The branch of [performRandomAction] for each kind. *)
Definition runAction (k : ActionKind) (currentUrl : string) : M Session bool :=
  match k with
  | Scroll =>
      let* scrolled := onBrowser humanScroll in
      recordAction "SCROLL" (JS.ofZ scrolled ++ "px") currentUrl ;;
      ret false
  | Hover =>
      let* hovered := onBrowser humanHover in
      (if (0 <? hovered)%Z
       then recordAction "HOVER" (JS.ofZ hovered ++ " elements") currentUrl
       else ret tt) ;;
      ret false
  | Type_ =>
      let* typed := onBrowser humanType in
      if typed then
        recordAction "TYPE" "Search query" currentUrl ;;
        navigated currentUrl
      else ret false
  | Click =>
      let* clicked := onBrowser humanClick in
      if JS.truthy clicked then
        recordAction "CLICK" (default EmptyString clicked) currentUrl ;;
        navigated currentUrl
      else ret false
  | Back =>
      let* backUrl := onBrowser humanBack in
      if JS.truthy backUrl then
        recordAction "BACK" (default EmptyString backUrl) currentUrl ;;
        ret true
      else ret false
  | Media =>
      let* mediaResult := onBrowser humanMedia in
      (if JS.truthy mediaResult
       then recordAction "MEDIA" (default EmptyString mediaResult) currentUrl
       else ret tt) ;;
      ret false
  | Zoom =>
      let* zoomResult := onBrowser humanZoom in
      (if JS.truthy zoomResult
       then recordAction "ZOOM" (default EmptyString zoomResult) currentUrl
       else ret tt) ;;
      ret false
  | Idle =>
      let* idleResult := onBrowser humanIdle in
      recordAction "IDLE" idleResult currentUrl ;;
      ret false
  end.

End Scheduler.

Definition kinds : list ActionKind :=
  [Scroll; Hover; Type_; Click; Back; Media; Zoom; Idle].

(** The interval [lower k <= r < upper k] of draws that selects [k], and its
    length [weight k]. *)
Definition lower (k : ActionKind) : Q :=
  match k with
  | Scroll => 0 | Hover => 0.25 | Type_ => 0.37 | Click => 0.45
  | Back => 0.63 | Media => 0.71 | Zoom => 0.78 | Idle => 0.85
  end.

Definition upper (k : ActionKind) : Q :=
  match k with
  | Scroll => 0.25 | Hover => 0.37 | Type_ => 0.45 | Click => 0.63
  | Back => 0.71 | Media => 0.78 | Zoom => 0.85 | Idle => 1
  end.

Definition weight (k : ActionKind) : Q :=
  match k with
  | Scroll => 0.25 | Hover => 0.12 | Type_ => 0.08 | Click => 0.18
  | Back => 0.08 | Media => 0.07 | Zoom => 0.07 | Idle => 0.15
  end.

Definition selects (k : ActionKind) (r : Q) : Prop :=
  (lower k <= r)%Q ∧ (r < upper k)%Q.

(** The loop of [printReport] ([reporter/index.ts]) that counts the records
    of each action: [actionCounts[a] = (actionCounts[a] || 0) + 1]. *)
Definition countAction (counts : gmap string nat) (record : ActionRecord)
  : gmap string nat :=
  <[action record := default 0%nat (counts !! action record) + 1]> counts.

Definition actionCounts (records : list ActionRecord) : gmap string nat :=
  fold_left countAction records ∅.

(** The sum of the counts of a breakdown. *)
Definition countedTotal (counts : gmap string nat) : nat :=
  map_fold (fun _ n acc => n + acc) 0%nat counts.

(** What one scheduled action may do to the records and to the two sets:
    at most one record, on the page the loop is working on; the sets are
    left alone, or both gain the URL now shown, which is another page, and
    the action reports a navigation; a reported navigation is recorded. *)
Definition booked `{Platform} (currentUrl : string) (s : Session) (r : Res bool)
    (s' : Session) : Prop :=
  (actions s' = actions s
   ∨ ∃ act det, actions s' = actions s ++ [{| action := act; detail := det;
                                               on_page := currentUrl |}])
  ∧ ((visitedUrls s' = visitedUrls s ∧ pagesVisited s' = pagesVisited s)
     ∨ (r = Ok true
        ∧ page_url (page (browser s')) ≠ currentUrl
        ∧ visitedUrls s' = {[page_url (page (browser s'))]} ∪ visitedUrls s
        ∧ pagesVisited s' = {[page_url (page (browser s'))]} ∪ pagesVisited s))
  ∧ (r = Ok true -> actions s' ≠ actions s).

End Loop.

(** ** Session lifecycle and recovery ([src/explorer/index.ts],
       [src/explorer/recovery.ts]) *)

Module Explorer.
Import Proxy.
Local Open Scope js_scope.

(** [try { m } finally { f }]: [f] runs on both outcomes of [m]; a throw of
    [f] replaces the outcome. *)
Definition finally {S A} (m : M S A) (f : M S unit) : M S A :=
  fun s => match m s with
           | (r, s1) =>
               match f s1 with
               | (Ok _, s2) => (r, s2)
               | (Throw e, s2) => (Throw e, s2)
               end
           end.

(** A [Set<string>] object is named by its address in the heap of sets. *)
Definition SetRef : Type := nat.

(** The fields of [ExplorerConfig] the session reads. *)
Record ExplorerConfig : Type := {
  url : string;
  minPages : Z; maxPages : Z;
  minDuration : Z; maxDuration : Z;
  minActionsPerPage : Z; maxActionsPerPage : Z;
}.

Section Session.
(** The world outside the session object: browsers, network, clock, the
    randomness source, the reporter. *)
Variable Env : Type.
(** [BrowserSession] handles. *)
Variable Handle : Type.

Record LoopContext : Type := {
  ctx_config : ExplorerConfig;
  ctx_page : Handle;
  ctx_visitedUrls : SetRef;
  ctx_targetPages : Z;
  ctx_targetDuration : Z;
  ctx_startTime : Z;
  ctx_instanceId : Z;
}.

Record RecoveryContext : Type := {
  rec_config : ExplorerConfig;
  rec_visitedUrls : SetRef;
  rec_targetPages : Z;
  rec_targetDuration : Z;
  rec_startTime : Z;
  rec_instanceId : Z;
}.

(** The fields of an [Explorer] fixed by its constructor. *)
Record ExplorerFields : Type := {
  config : ExplorerConfig;
  visitedUrls : SetRef;
  targetPages : Z;
  targetDuration : Z;
  instanceId : Z;
}.

(** What a run did to the pool and which contexts it handed over. *)
Inductive Event : Type :=
| EvMarkDead (proxy : ProxyEntry)
| EvRecover (ctx : RecoveryContext)
| EvLoop (ctx : LoopContext).

(** The mutable fields of the [Explorer], the shared pool, the heap of set
    objects, the outside world, and the events of the run so far. *)
Record State : Type := {
  env : Env;
  sets : gmap SetRef (gset string);
  pool : ProxyManager;
  startTime : Z;
  session : option Handle;
  currentProxy : option ProxyEntry;
  trace : list Event;
}.

(** [Date.now()] *)
Variable now : Env -> Z.
(** [launchBrowser(config, logger, proxy)] *)
Variable launchBrowser : ExplorerConfig -> option ProxyEntry -> Env -> Res Handle * Env.
(** [session.page.goto(url, ...)] *)
Variable goto : Handle -> string -> Env -> Res unit * Env.
(** The [try] body of [closeBrowser]: [context.close(); browser.close()]. *)
Variable closeBody : Handle -> Env -> Res unit * Env.
(** [humanDelay(min, max)] *)
Variable humanDelay : Q -> Q -> Env -> Env.
(** The reporter: [setProxy], [recordPageVisit], [recordAction],
    [generateReport]; none of them throws. *)
Variable setProxy : string -> Env -> Env.
Variable recordPageVisit : string -> Env -> Env.
Variable recordAction : string -> string -> string -> Env -> Env.
Variable generateReport : Env -> Env.
(** [explorationLoop(ctx)] works on the outside world and on the set
    objects; it has no access to the pool or to the explorer's fields. *)
Variable explorationLoop :
  LoopContext -> Env * gmap SetRef (gset string)
  -> Res unit * (Env * gmap SetRef (gset string)).

Definition withEnv (f : Env -> Env) : M State unit :=
  modify (fun s => {| env := f (env s); sets := sets s; pool := pool s;
                      startTime := startTime s; session := session s;
                      currentProxy := currentProxy s; trace := trace s |}).

Definition onEnv {A} (f : Env -> Res A * Env) : M State A :=
  fun s => let (r, e) := f (env s) in
           (r, {| env := e; sets := sets s; pool := pool s;
                  startTime := startTime s; session := session s;
                  currentProxy := currentProxy s; trace := trace s |}).

Definition emit (ev : Event) : M State unit :=
  modify (fun s => {| env := env s; sets := sets s; pool := pool s;
                      startTime := startTime s; session := session s;
                      currentProxy := currentProxy s;
                      trace := trace s ++ [ev] |}).

Definition setSession (h : option Handle) : M State unit :=
  modify (fun s => {| env := env s; sets := sets s; pool := pool s;
                      startTime := startTime s; session := h;
                      currentProxy := currentProxy s; trace := trace s |}).

Definition setCurrentProxy (p : option ProxyEntry) : M State unit :=
  modify (fun s => {| env := env s; sets := sets s; pool := pool s;
                      startTime := startTime s; session := session s;
                      currentProxy := p; trace := trace s |}).

Definition setStartTime (t : Z) : M State unit :=
  modify (fun s => {| env := env s; sets := sets s; pool := pool s;
                      startTime := t; session := session s;
                      currentProxy := currentProxy s; trace := trace s |}).

(** [proxyManager.getNext()] *)
Definition poolGetNext : M State (option ProxyEntry) :=
  fun s => let (r, pm) := getNext (pool s) in
           (Ok r, {| env := env s; sets := sets s; pool := pm;
                     startTime := startTime s; session := session s;
                     currentProxy := currentProxy s; trace := trace s |}).

(** [proxyManager.markDead(p)] *)
Definition poolMarkDead (p : ProxyEntry) : M State unit :=
  emit (EvMarkDead p) ;;
  modify (fun s => {| env := env s; sets := sets s; pool := markDead p (pool s);
                      startTime := startTime s; session := session s;
                      currentProxy := currentProxy s; trace := trace s |}).

(** [set.add(u)] on the set object at [r]. *)
Definition setAdd (r : SetRef) (u : string) : M State unit :=
  modify (fun s => {| env := env s;
                      sets := <[r := {[u]} ∪ default ∅ (sets s !! r)]> (sets s);
                      pool := pool s;
                      startTime := startTime s; session := session s;
                      currentProxy := currentProxy s; trace := trace s |}).

(** [await explorationLoop(ctx)] *)
Definition runLoop (ctx : LoopContext) : M State unit :=
  emit (EvLoop ctx) ;;
  fun s => let '(r, (e, h)) := explorationLoop ctx (env s, sets s) in
           (r, {| env := e; sets := h; pool := pool s;
                  startTime := startTime s; session := session s;
                  currentProxy := currentProxy s; trace := trace s |}).

(** [closeBrowser(session, logger)] *)
Definition closeBrowser (h : Handle) : M State unit :=
  try_catch (onEnv (closeBody h)) (fun _ => ret tt).

(** [Explorer.cleanup] *)
Definition cleanup : M State unit :=
  let* s := gets session in
  match s with
  | Some h => closeBrowser h ;; setSession None
  | None => ret tt
  end.

(** [recoverWithNewProxy] of [recovery.ts] *)
Definition recoverWithNewProxy (ctx : RecoveryContext) : M State (option Handle) :=
  let* newProxy := poolGetNext in
  match newProxy with
  | None => ret None
  | Some np =>
      withEnv (setProxy (server np)) ;;
      try_catch
        (let* h := onEnv (launchBrowser (rec_config ctx) (Some np)) in
         onEnv (goto h (url (rec_config ctx))) ;;
         withEnv (humanDelay 2000 4000) ;;
         let loopCtx := {| ctx_config := rec_config ctx;
                           ctx_page := h;
                           ctx_visitedUrls := rec_visitedUrls ctx;
                           ctx_targetPages := rec_targetPages ctx;
                           ctx_targetDuration := rec_targetDuration ctx;
                           ctx_startTime := rec_startTime ctx;
                           ctx_instanceId := rec_instanceId ctx |} in
         runLoop loopCtx ;;
         ret (Some h))
        (fun _ => ret None)
  end.

(** The [try] block of [Explorer.run]. *)
Definition attempt (this : ExplorerFields) : M State unit :=
  let* p := poolGetNext in
  setCurrentProxy p ;;
  match p with
  | Some cp => withEnv (setProxy (server cp))
  | None => ret tt
  end ;;
  let* h := onEnv (launchBrowser (config this) p) in
  setSession (Some h) ;;
  onEnv (goto h (url (config this))) ;;
  setAdd (visitedUrls this) (url (config this)) ;;
  withEnv (recordPageVisit (url (config this))) ;;
  withEnv (recordAction "NAVIGATE" ("Initial: " ++ url (config this))
             (url (config this))) ;;
  withEnv (humanDelay 2000 4000) ;;
  let* start := gets startTime in
  let loopCtx := {| ctx_config := config this;
                    ctx_page := h;
                    ctx_visitedUrls := visitedUrls this;
                    ctx_targetPages := targetPages this;
                    ctx_targetDuration := targetDuration this;
                    ctx_startTime := start;
                    ctx_instanceId := instanceId this |} in
  runLoop loopCtx.

(** The [catch] block of [Explorer.run]. *)
Definition recovery (this : ExplorerFields) : M State unit :=
  let* cp := gets currentProxy in
  let* count := gets (fun s => getCount (pool s)) in
  match cp with
  | Some p =>
      if (1 <? count)%nat then
        poolMarkDead p ;;
        cleanup ;;
        let* start := gets startTime in
        let ctx := {| rec_config := config this;
                      rec_visitedUrls := visitedUrls this;
                      rec_targetPages := targetPages this;
                      rec_targetDuration := targetDuration this;
                      rec_startTime := start;
                      rec_instanceId := instanceId this |} in
        emit (EvRecover ctx) ;;
        let* recoveredSession := recoverWithNewProxy ctx in
        match recoveredSession with
        | Some h => setSession (Some h)
        | None => ret tt
        end
      else ret tt
  | None => ret tt
  end.

(** [Explorer.run] *)
Definition run (this : ExplorerFields) : M State unit :=
  (let* t := gets (fun s => now (env s)) in setStartTime t) ;;
  finally
    (try_catch (attempt this) (fun _ => recovery this))
    (cleanup ;; withEnv generateReport).

End Session.

Arguments EvMarkDead {Handle} proxy.
Arguments EvRecover {Handle} ctx.
Arguments EvLoop {Handle} ctx.
Arguments ctx_config {Handle} l.
Arguments ctx_page {Handle} l.
Arguments ctx_visitedUrls {Handle} l.
Arguments ctx_targetPages {Handle} l.
Arguments ctx_targetDuration {Handle} l.
Arguments ctx_startTime {Handle} l.
Arguments ctx_instanceId {Handle} l.
Arguments env {Env Handle} s.
Arguments sets {Env Handle} s.
Arguments pool {Env Handle} s.
Arguments startTime {Env Handle} s.
Arguments session {Env Handle} s.
Arguments currentProxy {Env Handle} s.
Arguments trace {Env Handle} s.
Arguments withEnv {Env Handle} f.
Arguments onEnv {Env Handle A} f.
Arguments emit {Env Handle} ev.
Arguments setSession {Env Handle} h.
Arguments setCurrentProxy {Env Handle} p.
Arguments setStartTime {Env Handle} t.
Arguments poolGetNext {Env Handle}.
Arguments poolMarkDead {Env Handle} p.
Arguments setAdd {Env Handle} r u.
Arguments runLoop {Env Handle} explorationLoop ctx.
Arguments closeBrowser {Env Handle} closeBody h.
Arguments cleanup {Env Handle} closeBody.
Arguments recoverWithNewProxy {Env Handle} launchBrowser goto humanDelay setProxy
  explorationLoop ctx.
Arguments attempt {Env Handle} launchBrowser goto humanDelay setProxy recordPageVisit
  recordAction explorationLoop this.
Arguments recovery {Env Handle} launchBrowser goto closeBody humanDelay setProxy
  explorationLoop this.
Arguments run {Env Handle} now launchBrowser goto closeBody humanDelay setProxy
  recordPageVisit recordAction generateReport explorationLoop this.

Definition isRecover {Handle} (ev : Event Handle) : bool :=
  match ev with EvRecover _ => true | _ => false end.
Definition isLoop {Handle} (ev : Event Handle) : bool :=
  match ev with EvLoop _ => true | _ => false end.

(** [m] leaves the events, the pool, the start time and the assigned proxy
    as they are. *)
Definition keeps {Env Handle A : Type} (m : M (State Env Handle) A) : Prop :=
  forall s r s',
    m s = (r, s') ->
    trace s' = trace s /\ pool s' = pool s /\ startTime s' = startTime s
    /\ currentProxy s' = currentProxy s.

(** The contexts [Explorer.run] builds from the explorer's fields, for the
    start time [start]. *)
Definition loopContextOf {Handle} (this : ExplorerFields) (start : Z) (h : Handle)
  : LoopContext Handle :=
  {| ctx_config := config this; ctx_page := h;
     ctx_visitedUrls := visitedUrls this;
     ctx_targetPages := targetPages this;
     ctx_targetDuration := targetDuration this;
     ctx_startTime := start;
     ctx_instanceId := instanceId this |}.

Definition recoveryContextOf (this : ExplorerFields) (start : Z) : RecoveryContext :=
  {| rec_config := config this;
     rec_visitedUrls := visitedUrls this;
     rec_targetPages := targetPages this;
     rec_targetDuration := targetDuration this;
     rec_startTime := start;
     rec_instanceId := instanceId this |}.

(** A loop context carries the session-scoped fields of the explorer. *)
Definition sameBudget {Handle} (this : ExplorerFields) (start : Z)
    (ctx : LoopContext Handle) : Prop :=
  ctx_config ctx = config this
  /\ ctx_visitedUrls ctx = visitedUrls this
  /\ ctx_targetPages ctx = targetPages this
  /\ ctx_targetDuration ctx = targetDuration this
  /\ ctx_startTime ctx = start
  /\ ctx_instanceId ctx = instanceId this.

End Explorer.

(** ** Configuration ([src/config/index.ts]) *)

Module Config.

(** Numbers are the integers [parseInt] reads (exact below 2^53). *)
Record ExplorerConfig : Type := {
  url : string;
  instances : Z;
  minPages : Z;
  maxPages : Z;
  minDuration : Z;
  maxDuration : Z;
  minActionsPerPage : Z;
  maxActionsPerPage : Z;
  headless : bool;
  browserType : string;
  proxiesFile : string;
  logLevel : string;
}.

Definition DEFAULT_CONFIG : ExplorerConfig :=
  {| url := EmptyString; instances := 2; minPages := 5; maxPages := 10;
     minDuration := 60; maxDuration := 120; minActionsPerPage := 2;
     maxActionsPerPage := 5; headless := true; browserType := "chromium";
     proxiesFile := "proxies.txt"; logLevel := "info" |}.

(** Assignments to one field. *)
Definition set_url (v : string) (c : ExplorerConfig) : ExplorerConfig :=
  {| url := v; instances := instances c; minPages := minPages c;
     maxPages := maxPages c; minDuration := minDuration c;
     maxDuration := maxDuration c; minActionsPerPage := minActionsPerPage c;
     maxActionsPerPage := maxActionsPerPage c; headless := headless c;
     browserType := browserType c; proxiesFile := proxiesFile c;
     logLevel := logLevel c |}.
Definition set_instances (v : Z) (c : ExplorerConfig) : ExplorerConfig :=
  {| url := url c; instances := v; minPages := minPages c;
     maxPages := maxPages c; minDuration := minDuration c;
     maxDuration := maxDuration c; minActionsPerPage := minActionsPerPage c;
     maxActionsPerPage := maxActionsPerPage c; headless := headless c;
     browserType := browserType c; proxiesFile := proxiesFile c;
     logLevel := logLevel c |}.
Definition set_minPages (v : Z) (c : ExplorerConfig) : ExplorerConfig :=
  {| url := url c; instances := instances c; minPages := v;
     maxPages := maxPages c; minDuration := minDuration c;
     maxDuration := maxDuration c; minActionsPerPage := minActionsPerPage c;
     maxActionsPerPage := maxActionsPerPage c; headless := headless c;
     browserType := browserType c; proxiesFile := proxiesFile c;
     logLevel := logLevel c |}.
Definition set_maxPages (v : Z) (c : ExplorerConfig) : ExplorerConfig :=
  {| url := url c; instances := instances c; minPages := minPages c;
     maxPages := v; minDuration := minDuration c;
     maxDuration := maxDuration c; minActionsPerPage := minActionsPerPage c;
     maxActionsPerPage := maxActionsPerPage c; headless := headless c;
     browserType := browserType c; proxiesFile := proxiesFile c;
     logLevel := logLevel c |}.
Definition set_minDuration (v : Z) (c : ExplorerConfig) : ExplorerConfig :=
  {| url := url c; instances := instances c; minPages := minPages c;
     maxPages := maxPages c; minDuration := v; maxDuration := maxDuration c;
     minActionsPerPage := minActionsPerPage c;
     maxActionsPerPage := maxActionsPerPage c; headless := headless c;
     browserType := browserType c; proxiesFile := proxiesFile c;
     logLevel := logLevel c |}.
Definition set_maxDuration (v : Z) (c : ExplorerConfig) : ExplorerConfig :=
  {| url := url c; instances := instances c; minPages := minPages c;
     maxPages := maxPages c; minDuration := minDuration c; maxDuration := v;
     minActionsPerPage := minActionsPerPage c;
     maxActionsPerPage := maxActionsPerPage c; headless := headless c;
     browserType := browserType c; proxiesFile := proxiesFile c;
     logLevel := logLevel c |}.
Definition set_minActionsPerPage (v : Z) (c : ExplorerConfig) : ExplorerConfig :=
  {| url := url c; instances := instances c; minPages := minPages c;
     maxPages := maxPages c; minDuration := minDuration c;
     maxDuration := maxDuration c; minActionsPerPage := v;
     maxActionsPerPage := maxActionsPerPage c; headless := headless c;
     browserType := browserType c; proxiesFile := proxiesFile c;
     logLevel := logLevel c |}.
Definition set_maxActionsPerPage (v : Z) (c : ExplorerConfig) : ExplorerConfig :=
  {| url := url c; instances := instances c; minPages := minPages c;
     maxPages := maxPages c; minDuration := minDuration c;
     maxDuration := maxDuration c; minActionsPerPage := minActionsPerPage c;
     maxActionsPerPage := v; headless := headless c;
     browserType := browserType c; proxiesFile := proxiesFile c;
     logLevel := logLevel c |}.
Definition set_headless (v : bool) (c : ExplorerConfig) : ExplorerConfig :=
  {| url := url c; instances := instances c; minPages := minPages c;
     maxPages := maxPages c; minDuration := minDuration c;
     maxDuration := maxDuration c; minActionsPerPage := minActionsPerPage c;
     maxActionsPerPage := maxActionsPerPage c; headless := v;
     browserType := browserType c; proxiesFile := proxiesFile c;
     logLevel := logLevel c |}.
Definition set_browserType (v : string) (c : ExplorerConfig) : ExplorerConfig :=
  {| url := url c; instances := instances c; minPages := minPages c;
     maxPages := maxPages c; minDuration := minDuration c;
     maxDuration := maxDuration c; minActionsPerPage := minActionsPerPage c;
     maxActionsPerPage := maxActionsPerPage c; headless := headless c;
     browserType := v; proxiesFile := proxiesFile c;
     logLevel := logLevel c |}.
Definition set_proxiesFile (v : string) (c : ExplorerConfig) : ExplorerConfig :=
  {| url := url c; instances := instances c; minPages := minPages c;
     maxPages := maxPages c; minDuration := minDuration c;
     maxDuration := maxDuration c; minActionsPerPage := minActionsPerPage c;
     maxActionsPerPage := maxActionsPerPage c; headless := headless c;
     browserType := browserType c; proxiesFile := v;
     logLevel := logLevel c |}.
Definition set_logLevel (v : string) (c : ExplorerConfig) : ExplorerConfig :=
  {| url := url c; instances := instances c; minPages := minPages c;
     maxPages := maxPages c; minDuration := minDuration c;
     maxDuration := maxDuration c; minActionsPerPage := minActionsPerPage c;
     maxActionsPerPage := maxActionsPerPage c; headless := headless c;
     browserType := browserType c; proxiesFile := proxiesFile c;
     logLevel := v |}.

(** [next || current] for the argument after a flag, [undefined] past the
    end of the arguments. *)
Definition orString (next : option string) (current : string) : string :=
  if JS.truthy next then default EmptyString next else current.

(** [parseInt(next, 10) || current]: NaN and 0 are falsy. *)
Definition orInt (next : option string) (current : Z) : Z :=
  match next with
  | Some text =>
      match JS.parseInt text with
      | Some n => if (n =? 0)%Z then current else n
      | None => current
      end
  | None => current
  end.

(** The [switch] of [applyCliOverrides]: the configuration after the case
    of [arg], [None] when no case matches. *)
Definition override (arg : string) (next : option string) (c : ExplorerConfig)
  : option ExplorerConfig :=
  if String.eqb arg "--url" then
    Some (set_url (orString next (url c)) c)
  else if String.eqb arg "--instances" then
    Some (set_instances (orInt next (instances c)) c)
  else if String.eqb arg "--min-pages" then
    Some (set_minPages (orInt next (minPages c)) c)
  else if String.eqb arg "--max-pages" then
    Some (set_maxPages (orInt next (maxPages c)) c)
  else if String.eqb arg "--min-duration" then
    Some (set_minDuration (orInt next (minDuration c)) c)
  else if String.eqb arg "--max-duration" then
    Some (set_maxDuration (orInt next (maxDuration c)) c)
  else if String.eqb arg "--duration" then
    Some (set_maxDuration (orInt next (maxDuration c)) c)
  else if String.eqb arg "--min-actions" then
    Some (set_minActionsPerPage (orInt next (minActionsPerPage c)) c)
  else if String.eqb arg "--max-actions" then
    Some (set_maxActionsPerPage (orInt next (maxActionsPerPage c)) c)
  else if String.eqb arg "--headless" then
    Some (set_headless (negb (bool_decide (next = Some "false"))) c)
  else if String.eqb arg "--browser" then
    Some (set_browserType (orString next (browserType c)) c)
  else if String.eqb arg "--proxies" then
    Some (set_proxiesFile (orString next (proxiesFile c)) c)
  else if String.eqb arg "--log-level" then
    Some (set_logLevel (orString next (logLevel c)) c)
  else None.

(** The loop of [applyCliOverrides]: a case that matches also skips the
    argument after the flag ([i++]). *)
Fixpoint applyCliOverrides (config : ExplorerConfig) (args : list string)
  : ExplorerConfig :=
  match args with
  | [] => config
  | arg :: rest =>
      match override arg (head rest) config with
      | Some config' =>
          match rest with
          | [] => config'
          | _ :: rest' => applyCliOverrides config' rest'
          end
      | None => applyCliOverrides config rest
      end
  end.

(** The flags of the [switch]. *)
Definition isFlag (arg : string) : bool :=
  bool_decide (arg ∈ ["--url"; "--instances"; "--min-pages"; "--max-pages";
                      "--min-duration"; "--max-duration"; "--duration";
                      "--min-actions"; "--max-actions"; "--headless";
                      "--browser"; "--proxies"; "--log-level"]).

(** The arguments end in a flag whose value is missing: the loop reads
    [undefined] for it. *)
Fixpoint dangling (args : list string) : bool :=
  match args with
  | [] => false
  | arg :: rest =>
      if isFlag arg then
        match rest with
        | [] => true
        | _ :: rest' => dangling rest'
        end
      else dangling rest
  end.

(** No setting is blank: the strings are not empty and the numbers are not
    zero. *)
Definition settled (c : ExplorerConfig) : Prop :=
  url c ≠ EmptyString ∧ browserType c ≠ EmptyString
  ∧ proxiesFile c ≠ EmptyString ∧ logLevel c ≠ EmptyString
  ∧ instances c ≠ 0%Z ∧ minPages c ≠ 0%Z ∧ maxPages c ≠ 0%Z
  ∧ minDuration c ≠ 0%Z ∧ maxDuration c ≠ 0%Z
  ∧ minActionsPerPage c ≠ 0%Z ∧ maxActionsPerPage c ≠ 0%Z.

End Config.

(** ** The exploration loop ([src/explorer/loop.ts]) *)

Module Exploration.
Import Driver Humanizer Actions Loop.
Local Open Scope js_scope.

(** The fields of [LoopContext] that are values; its objects (page,
    reporter, visited set) are the session the loop runs on. *)
Record LoopContext : Type := {
  config : Explorer.ExplorerConfig;
  targetPages : Z;
  targetDuration : Z;
  startTime : Z;
}.

(** [(now - ctx.startTime) / 1000 >= ctx.targetDuration] *)
Definition timedOut (ctx : LoopContext) (now : Z) : bool :=
  Qle_bool (inject_Z (targetDuration ctx)) (inject_Z (now - startTime ctx) / 1000).

(** The session together with the number of clock readings taken. *)
Record Run `{Platform} : Type := {
  session : Session;
  ticks : nat;
}.

Definition onSession `{Platform} {A} (m : M Session A) : M Run A :=
  fun w => let (r, s) := m (session w) in (r, {| session := s; ticks := ticks w |}).

Section Loop.
Context `{Platform}.
Variable mediaBody zoomBody : M Browser (option string).
Variable humanIdle : M Browser string.
(** The [try] body of [handleCookieConsent] (cookies.ts): probes and
    clicks that return whether a banner was accepted; its [catch] returns
    [false]. *)
Variable cookieBody : M Browser bool.
(** [Date.now()]: the successive readings of the clock. *)
Variable clock : nat -> Z.
Variable ctx : LoopContext.

(** The reporter's page set is the visited set. *)
Definition paired (w : Run) : Prop :=
  pagesVisited (session w) = visitedUrls (session w).

(** [m] keeps the two sets equal, on either outcome. *)
Definition pairs {A : Type} (m : M Run A) : Prop :=
  forall w r w', m w = (r, w') -> paired w -> paired w'.

(** [m] leaves the visited set as it is and reads the clock forward. *)
Definition still {A : Type} (m : M Run A) : Prop :=
  forall w r w',
    m w = (r, w') ->
    visitedUrls (session w') = visitedUrls (session w) /\ ticks w <= ticks w'.

(** The visited set grows from [v] to [v'], and does not outgrow the
    target once it is below it. *)
Definition within (v v' : gset string) : Prop :=
  v ⊆ v'
  /\ (Z.of_nat (size v') <= Z.max (Z.of_nat (size v)) (targetPages ctx))%Z.

Definition handleCookieConsent : M Browser bool :=
  try_catch cookieBody (fun _ => ret false).

Definition isTimedOut : M Run bool :=
  fun w => (Ok (timedOut ctx (clock (ticks w))),
            {| session := session w; ticks := S (ticks w) |}).

(** [visitedUrls.size < ctx.targetPages] *)
Definition belowTarget : M Run bool :=
  gets (fun w => (Z.of_nat (size (visitedUrls (session w))) <? targetPages ctx)%Z).

(** The action loop [while (actionsPerformed < actionsTarget &&
    !isTimedOut(ctx))], with [remaining] actions to the target. *)
Fixpoint actionLoop (remaining : nat) (currentUrl : string) : M Run unit :=
  match remaining with
  | O => ret tt
  | S remaining' =>
      let* late := isTimedOut in
      if late then ret tt
      else
        let* navigatedAway :=
          onSession (performRandomAction mediaBody zoomBody humanIdle currentUrl) in
        if navigatedAway then ret tt else actionLoop remaining' currentUrl
  end.

(** The statements after the loop: the clock is read once more, for the
    log. *)
Definition complete : M Run (option unit) :=
  let* _ := isTimedOut in ret (Some tt).

(** One pass through the body of the loop [while (visitedUrls.size <
    ctx.targetPages && !isTimedOut(ctx))], from the test of its condition;
    [continue] is the loop entered again. *)
Definition iteration (continue : M Run (option unit)) : M Run (option unit) :=
  let* below := belowTarget in
  if negb below then complete
  else
    let* late := isTimedOut in
    if late then complete
    else
      let* currentUrl := onSession currentPageUrl in
      if negb (JS.startsWith "http" currentUrl) then
        let* back :=
          try_catch
            (onSession (onBrowser (call (Goto (Explorer.url (config ctx))))) ;;
             ret true)
            (fun _ => ret false) in
        if back then continue else complete
      else
        let* cookieHandled := onSession (onBrowser handleCookieConsent) in
        (if cookieHandled
         then onSession (recordAction "COOKIE" "Accepted cookie consent" currentUrl)
         else ret tt) ;;
        let* actionsTarget :=
          onSession (onBrowser
            (randomInt (Explorer.minActionsPerPage (config ctx))
                       (Explorer.maxActionsPerPage (config ctx)))) in
        actionLoop (Z.to_nat actionsTarget) currentUrl ;;
        let* here := onSession currentPageUrl in
        let* below := belowTarget in
        if String.eqb here currentUrl && below then
          let* visited := gets (fun w => visitedUrls (session w)) in
          let* nextUrl := onSession (onBrowser (navigateToRandomLink visited)) in
          if JS.truthy nextUrl then
            let next := default EmptyString nextUrl in
            onSession (visit next) ;;
            onSession (recordPageVisit next) ;;
            onSession (recordAction "NAVIGATE" next next) ;;
            onSession (onBrowser thinkingPause) ;;
            continue
          else complete
        else
          onSession (onBrowser thinkingPause) ;;
          continue.

(** [explorationLoop]: [fuel] bounds the number of passes, and [None] is
    returned when it is used up. *)
Fixpoint explorationFrom (fuel : nat) : M Run (option unit) :=
  match fuel with
  | O => ret None
  | S fuel' => iteration (explorationFrom fuel')
  end.

End Loop.

End Exploration.

(** ** The entry point ([src/index.ts]) *)

Module Main.
Import Proxy.

Section Setup.
Variable new_URL : string -> option JS.URL.
Variable decodeURIComponent : string -> option string.
Variable fs : string -> option string.
Variable Net : Type.
Variable checkProxy : ProxyEntry -> Net -> bool * Net.

(** The [try]/[catch] of [main] around [proxyManager.initialize]: the
    error is logged and the program continues. *)
Definition proxySetup (proxiesFile : string) : M (ProxyManager * Net) unit :=
  try_catch (initialize new_URL decodeURIComponent fs Net checkProxy proxiesFile)
    (fun _ => ret tt).
End Setup.

End Main.

(** ** Concrete environments used to run the model *)

Module Sample.

(** A URL parser that knows two proxy lines. *)
Definition new_URL (line : string) : option JS.URL :=
  if String.eqb line "http://10.0.0.1:8080" then
    Some {| JS.url_protocol := "http:"; JS.url_hostname := "10.0.0.1";
            JS.url_port := "8080"; JS.url_username := EmptyString;
            JS.url_password := EmptyString; JS.url_origin := "http://10.0.0.1:8080";
            JS.url_pathname := "/"; JS.url_search := EmptyString |}
  else if String.eqb line "socks5://10.0.0.2:1080" then
    Some {| JS.url_protocol := "socks5:"; JS.url_hostname := "10.0.0.2";
            JS.url_port := "1080"; JS.url_username := EmptyString;
            JS.url_password := EmptyString; JS.url_origin := "null";
            JS.url_pathname := "/"; JS.url_search := EmptyString |}
  else None.

Definition decodeURIComponent (s : string) : option string := Some s.

Definition newline : string := String "010"%char EmptyString.

(** Three files: two proxy lines after a comment, only a comment, and one
    proxy line. *)
Definition fs (path : string) : option string :=
  if String.eqb path "proxies.txt" then
    Some ("# pool" ++ newline ++ "http://10.0.0.1:8080" ++ newline
          ++ "socks5://10.0.0.2:1080" ++ newline)%string
  else if String.eqb path "comments.txt" then
    Some ("# nothing here" ++ newline ++ "   " ++ newline)%string
  else if String.eqb path "one.txt" then
    Some ("socks5://10.0.0.2:1080")
  else None.

(** Only the first proxy answers the probe. *)
Definition checkProxy (p : Proxy.ProxyEntry) (n : unit) : bool * unit :=
  (String.eqb (Proxy.host p) "10.0.0.1", n).

Definition proxyA : Proxy.ProxyEntry :=
  {| Proxy.server := "http://10.0.0.1:8080"; Proxy.protocol := "http";
     Proxy.host := "10.0.0.1"; Proxy.port := 8080;
     Proxy.username := None; Proxy.password := None |}.

Definition proxyB : Proxy.ProxyEntry :=
  {| Proxy.server := "socks5://10.0.0.2:1080"; Proxy.protocol := "socks5";
     Proxy.host := "10.0.0.2"; Proxy.port := 1080;
     Proxy.username := None; Proxy.password := None |}.

Definition pool : Proxy.ProxyManager :=
  {| Proxy.proxies := [proxyA; proxyB]; Proxy.currentIndex := 1 |}.

(** A toy site: pages of [https://example.com] with a search box. *)
Record SitePage : Type := {
  sp_url : string;
  sp_back : list string;
  sp_anchors : list string;
  sp_search_visible : bool;
  sp_click_times_out : bool;
}.

(** The text of [s] before the first [stop] character, and from it on. *)
Fixpoint before (stop : ascii) (s : string) : string :=
  match s with
  | EmptyString => EmptyString
  | String c s' => if Ascii.eqb c stop then EmptyString else String c (before stop s')
  end.
Fixpoint from (stop : ascii) (s : string) : string :=
  match s with
  | EmptyString => EmptyString
  | String c s' => if Ascii.eqb c stop then s else from stop s'
  end.

Definition siteURL (origin rest : string) : JS.URL :=
  let noHash := before "#" rest in
  let path := before "?" noHash in
  {| JS.url_protocol := "https:"; JS.url_hostname := EmptyString;
     JS.url_port := EmptyString; JS.url_username := EmptyString;
     JS.url_password := EmptyString; JS.url_origin := origin;
     JS.url_pathname := if String.eqb path EmptyString then "/" else path;
     JS.url_search := from "?" noHash |}.

(** A URL parser that knows two origins. *)
Definition site_new_URL (s : string) : option JS.URL :=
  if String.prefix "https://example.com" s then
    Some (siteURL "https://example.com" (String.substring 19 (String.length s - 19) s))
  else if String.prefix "https://other.org" s then
    Some (siteURL "https://other.org" (String.substring 17 (String.length s - 17) s))
  else None.

Definition site_perform (A : Type) (c : Driver.Call A) (p : SitePage)
  : Res A * SitePage :=
  match c in Driver.Call T return Res T * SitePage with
  | Driver.IsVisible _ => (Ok (sp_search_visible p), p)
  | Driver.Count _ => (Ok 0%nat, p)
  | Driver.BoundingBox _ => (Ok None, p)
  | Driver.TextContent _ => (Ok None, p)
  | Driver.Hover _ => (Ok tt, p)
  | Driver.Click _ _ =>
      if sp_click_times_out p
      then (Throw "TimeoutError: locator.click: Timeout 30000ms exceeded.", p)
      else (Ok tt, p)
  | Driver.ScrollIntoViewIfNeeded _ => (Ok tt, p)
  | Driver.KeyboardType _ => (Ok tt, p)
  | Driver.KeyboardPress key =>
      if String.eqb key "Enter"
      then (Ok tt, {| sp_url := "https://example.com/search";
                      sp_back := sp_url p :: sp_back p;
                      sp_anchors := [];
                      sp_search_visible := sp_search_visible p;
                      sp_click_times_out := sp_click_times_out p |})
      else (Ok tt, p)
  | Driver.MouseWheel _ _ => (Ok tt, p)
  | Driver.HistoryLength => (Ok (1 + Z.of_nat (length (sp_back p)))%Z, p)
  | Driver.GoBack =>
      match sp_back p with
      | u :: rest => (Ok tt, {| sp_url := u; sp_back := rest;
                                sp_anchors := sp_anchors p;
                                sp_search_visible := sp_search_visible p;
                                sp_click_times_out := sp_click_times_out p |})
      | [] => (Ok tt, p)
      end
  | Driver.GoForward => (Ok tt, p)
  | Driver.Goto u => (Ok tt, {| sp_url := u; sp_back := sp_url p :: sp_back p;
                                sp_anchors := [];
                                sp_search_visible := sp_search_visible p;
                                sp_click_times_out := sp_click_times_out p |})
  | Driver.AnchorHrefs => (Ok (sp_anchors p), p)
  end.

#[global] Instance site : Driver.Platform := {|
  Driver.Page := SitePage;
  Driver.page_url := sp_url;
  Driver.perform := site_perform;
  Driver.new_URL := site_new_URL;
  Driver.boxMuller := fun _ _ => Num.Fin 0;
|}.

Definition home : SitePage :=
  {| sp_url := "https://example.com/";
     sp_back := [];
     sp_anchors := ["https://example.com/a#top"; "https://other.org/x";
                    "https://example.com/a"; "https://example.com/b?p=1";
                    "mailto:me"];
     sp_search_visible := true;
     sp_click_times_out := false |}.

(** The same page with a search box that cannot be clicked (an overlay
    covers it): [locator.click()] times out. *)
Definition covered : SitePage :=
  {| sp_url := sp_url home; sp_back := sp_back home;
     sp_anchors := sp_anchors home;
     sp_search_visible := true;
     sp_click_times_out := true |}.

Definition browserOn (p : SitePage) (rs : nat -> Q) : Driver.Browser :=
  {| Driver.page := p; Driver.draws := rs; Driver.drawn := 0;
     Driver.calls := [] |}.

Definition sessionOn (p : SitePage) (rs : nat -> Q) : Loop.Session :=
  {| Loop.browser := browserOn p rs; Loop.actions := [];
     Loop.pagesVisited := ∅; Loop.visitedUrls := ∅ |}.

(** Media, zoom and idle handlers that find nothing to do. *)
Definition noMedia : M Driver.Browser (option string) := ret None.
Definition noZoom : M Driver.Browser (option string) := ret None.
Definition idles : M Driver.Browser string := ret "Distracted for 4s"%string.

(** Every draw is 0.4: the scheduler enters the type branch. *)
Definition typeDraws : nat -> Q := fun _ => 0.4%Q.

(** The first draw is 0.4 (type branch), the others 0.6: no typo, and the
    search is submitted. *)
Definition submitDraws : nat -> Q :=
  fun n => match n with
           | O => 0.4
           | _ => 0.6
           end%Q.

(** Draws for one character: 0.05 makes the typo, 0.9 shifts it by two. *)
Definition typoDraws : nat -> Q :=
  fun n => match n with
           | O => 0.05
           | S O => 0.9
           | _ => 0.5
           end%Q.

(** A session whose exploration loop always fails with a transport error,
    on a pool of two proxies. *)
Definition exLaunch (c : Explorer.ExplorerConfig) (p : option Proxy.ProxyEntry)
    (e : unit) : Res unit * unit := (Ok tt, e).
Definition exGoto (h : unit) (u : string) (e : unit) : Res unit * unit := (Ok tt, e).
Definition exClose (h : unit) (e : unit) : Res unit * unit := (Ok tt, e).
Definition exLoop (ctx : Explorer.LoopContext unit)
    (w : unit * gmap Explorer.SetRef (gset string))
  : Res unit * (unit * gmap Explorer.SetRef (gset string)) :=
  (Throw "net::ERR_PROXY_CONNECTION_FAILED", w).

Definition exFields : Explorer.ExplorerFields :=
  {| Explorer.config :=
       {| Explorer.url := "https://example.com/";
          Explorer.minPages := 5; Explorer.maxPages := 10;
          Explorer.minDuration := 60; Explorer.maxDuration := 120;
          Explorer.minActionsPerPage := 2; Explorer.maxActionsPerPage := 5 |};
     Explorer.visitedUrls := 0%nat;
     Explorer.targetPages := 7;
     Explorer.targetDuration := 90;
     Explorer.instanceId := 1 |}.

Definition exState : Explorer.State unit unit :=
  {| Explorer.env := tt; Explorer.sets := ∅;
     Explorer.pool := {| Proxy.proxies := [proxyA; proxyB];
                         Proxy.currentIndex := 0 |};
     Explorer.startTime := 0; Explorer.session := None;
     Explorer.currentProxy := None; Explorer.trace := [] |}.

Definition exRun : Res unit * Explorer.State unit unit :=
  Explorer.run (fun _ => 1000%Z) exLaunch exGoto exClose (fun _ _ e => e)
    (fun _ e => e) (fun _ e => e) (fun _ _ _ e => e) (fun e => e) exLoop
    exFields exState.

(** A page with one visible button per selector; nothing navigates. *)
Definition buttons_perform (A : Type) (c : Driver.Call A) (p : unit)
  : Res A * unit :=
  match c in Driver.Call T return Res T * unit with
  | Driver.IsVisible _ => (Ok true, p)
  | Driver.Count _ => (Ok 1%nat, p)
  | Driver.BoundingBox _ =>
      (Ok (Some {| Driver.width := 80; Driver.height := 30 |}), p)
  | Driver.TextContent _ => (Ok (Some " Buy now "), p)
  | Driver.Hover _ => (Ok tt, p)
  | Driver.Click _ _ => (Ok tt, p)
  | Driver.ScrollIntoViewIfNeeded _ => (Ok tt, p)
  | Driver.KeyboardType _ => (Ok tt, p)
  | Driver.KeyboardPress _ => (Ok tt, p)
  | Driver.MouseWheel _ _ => (Ok tt, p)
  | Driver.HistoryLength => (Ok 1%Z, p)
  | Driver.GoBack => (Ok tt, p)
  | Driver.GoForward => (Ok tt, p)
  | Driver.Goto _ => (Ok tt, p)
  | Driver.AnchorHrefs => (Ok [], p)
  end.

Definition buttons : Driver.Platform := {|
  Driver.Page := unit;
  Driver.page_url := fun _ => "https://example.com/shop";
  Driver.perform := buttons_perform;
  Driver.new_URL := site_new_URL;
  Driver.boxMuller := fun _ _ => Num.Fin 0;
|}.

Definition buttonsBrowser : @Driver.Browser buttons :=
  @Driver.Build_Browser buttons tt typeDraws 0 [].

(** An exploration of three pages in 90 seconds that starts at time 0, on
    a clock that reads 100 seconds at every reading. *)
Definition exContext : Exploration.LoopContext :=
  {| Exploration.config := Explorer.config exFields;
     Exploration.targetPages := 3;
     Exploration.targetDuration := 90;
     Exploration.startTime := 0 |}.

Definition lateClock : nat -> Z := fun _ => 100000%Z.

Definition exStart : Exploration.Run :=
  {| Exploration.session := sessionOn home typeDraws; Exploration.ticks := 0 |}.

Definition noCookies : M Driver.Browser bool := ret false.

(** The defaults with a target URL, and a command line. *)
Definition exConfig : Config.ExplorerConfig :=
  Config.set_url "https://example.com/" Config.DEFAULT_CONFIG.

Definition exArgs : list string :=
  ["--instances"; "0"; "--verbose"; "--max-pages"; "20"; "--headless"].

(** [initialize] on the comment-only file, from a fresh manager. *)
Definition initialize_run_comments : Res unit * (Proxy.ProxyManager * unit) :=
  Proxy.initialize new_URL decodeURIComponent fs unit checkProxy "comments.txt"
    (Proxy.newProxyManager, tt).

End Sample.

(** * Properties *)

(** ** Proxy pool *)

Section ProxyPool.
Import Proxy.

Lemma getNext_nonempty l c :
  l ≠ [] ->
  getNext {| proxies := l; currentIndex := c |}
  = (l !! c, {| proxies := l; currentIndex := (c + 1) mod length l |}).
Proof.
  intros Hl. unfold getNext. cbn.
  destruct l as [|p l']; [congruence|]. reflexivity.
Qed.

Lemma getNext_empty c :
  getNext {| proxies := []; currentIndex := c |}
  = (None, {| proxies := []; currentIndex := c |}).
Proof. reflexivity. Qed.

Lemma getNextN_cycle l c k :
  c < length l ->
  getNextN k {| proxies := l; currentIndex := c |}
  = ((fun i => l !! ((c + i) mod length l)) <$> seq 0 k,
     {| proxies := l; currentIndex := (c + k) mod length l |}).
Proof.
  revert c. induction k as [|k IH]; intros c Hc.
  - cbn. rewrite Nat.add_0_r, Nat.mod_small by lia. reflexivity.
  - assert (Hl : l ≠ []) by (destruct l; cbn in Hc; [lia|congruence]).
    cbn [getNextN]. rewrite getNext_nonempty by assumption.
    rewrite IH by (apply Nat.mod_upper_bound; lia).
    f_equal.
    + cbn [seq fmap list_fmap]. f_equal.
      * rewrite Nat.add_0_r, Nat.mod_small by lia. reflexivity.
      * rewrite <- seq_shift, <- list_fmap_compose.
        apply list_fmap_ext. intros _ i _. cbn.
        rewrite Nat.Div0.add_mod_idemp_l. f_equal. f_equal. lia.
    + f_equal. rewrite Nat.Div0.add_mod_idemp_l. f_equal. lia.
Qed.

Lemma rotate_nat_add_mod c i K :
  0 < K -> rotate_nat_add c i K = (c + i) mod K.
Proof.
  intros HK. unfold rotate_nat_add.
  rewrite <- Nat2Z.inj_add, <- Nat2Z.inj_mod. apply Nat2Z.id.
Qed.

Lemma cycle_is_rotate (l : list ProxyEntry) c :
  (fun i => l !! ((c + i) mod length l)) <$> seq 0 (length l)
  = Some <$> rotate c l.
Proof.
  apply list_eq. intros i.
  rewrite !list_lookup_fmap.
  destruct (decide (i < length l)) as [Hi|Hi].
  - rewrite lookup_seq_lt by assumption. cbn.
    rewrite lookup_rotate_r, rotate_nat_add_mod by lia.
    destruct (lookup_lt_is_Some_2 l ((c + i) mod length l)) as [x Hx].
    { apply Nat.mod_upper_bound. lia. }
    rewrite Hx. reflexivity.
  - rewrite lookup_seq_ge by lia.
    rewrite (lookup_ge_None_2 (rotate c l)) by (rewrite length_rotate; lia).
    reflexivity.
Qed.

Lemma rotate_Permutation (l : list ProxyEntry) c : Permutation (rotate c l) l.
Proof.
  unfold rotate.
  etransitivity; [apply Permutation_app_comm|].
  rewrite take_drop. reflexivity.
Qed.

(** C3: on a pool of K entries with the cursor in range, one call returns the
    entry at the cursor and advances the cursor modulo K; K consecutive calls
    return the pool rotated to the cursor (each entry exactly once, in the
    pool's cyclic order) and bring the manager back to the same state, so the
    order repeats; on an empty pool the call returns nothing. *)
Theorem getNext_round_robin (l : list ProxyEntry) (c : nat) :
  c < length l ->
  getNext {| proxies := l; currentIndex := c |}
  = (l !! c, {| proxies := l; currentIndex := (c + 1) mod length l |})
  ∧ is_Some (l !! c)
  ∧ getNextN (length l) {| proxies := l; currentIndex := c |}
    = (Some <$> rotate c l, {| proxies := l; currentIndex := c |})
  ∧ Permutation (rotate c l) l
  ∧ fst (getNext {| proxies := []; currentIndex := c |}) = None.
Proof.
  intros Hc.
  assert (Hl : l ≠ []) by (destruct l; cbn in Hc; [lia|congruence]).
  split; [apply getNext_nonempty; assumption|].
  split; [apply lookup_lt_is_Some_2; assumption|].
  split.
  - rewrite getNextN_cycle by assumption.
    rewrite cycle_is_rotate. do 2 f_equal.
    rewrite <- (Nat.mul_1_l (length l)) at 1.
    rewrite Nat.Div0.mod_add. apply Nat.mod_small. assumption.
  - split; [apply rotate_Permutation | reflexivity].
Qed.

Lemma cursorValid_getNext pm : cursorValid pm -> cursorValid (snd (getNext pm)).
Proof.
  destruct pm as [l c]. unfold cursorValid. cbn [proxies currentIndex].
  destruct l as [|p l']; [intros _; right; reflexivity|].
  intros _. left. rewrite getNext_nonempty by congruence. cbn [snd proxies currentIndex].
  apply Nat.mod_upper_bound. cbn. lia.
Qed.

Lemma cursorValid_markDead dead pm : cursorValid (markDead dead pm).
Proof.
  unfold cursorValid, markDead. cbn [proxies currentIndex].
  set (ps := filter _ _).
  destruct (Nat.leb_spec (length ps) (currentIndex pm)) as [Hle|Hlt].
  - destruct ps; [right; reflexivity | left; cbn; lia].
  - left. assumption.
Qed.

Lemma cursorValid_runOps ops pm : cursorValid pm -> cursorValid (runOps ops pm).
Proof.
  revert pm. induction ops as [|o ops IH]; intros pm Hpm; [assumption|].
  cbn. apply IH. destruct o; cbn.
  - apply cursorValid_getNext. assumption.
  - apply cursorValid_markDead.
Qed.

Lemma getNext_cursorValid pm :
  cursorValid pm ->
  match fst (getNext pm) with
  | Some p => p ∈ proxies pm
  | None => proxies pm = []
  end.
Proof.
  destruct pm as [l c]. unfold cursorValid. cbn [proxies currentIndex].
  destruct l as [|q l']; [intros _; reflexivity|].
  intros [Hc|Hc]; [|congruence].
  rewrite getNext_nonempty by congruence. cbn [fst].
  destruct (lookup_lt_is_Some_2 _ _ Hc) as [x Hx]. rewrite Hx.
  eapply list_elem_of_lookup_2. eassumption.
Qed.

(** C4: from a pool whose cursor is valid, every sequence of [getNext] and
    [markDead] calls keeps the cursor valid (it indexes an entry, or the pool
    is empty); [markDead] keeps exactly the entries with another canonical
    address and resets a cursor that left the bounds to the start; the
    [getNext] that follows a [markDead] returns an entry of the remaining pool
    whose address is not the removed one, or nothing when no entry remains. *)
Theorem cursor_invariant (pm : ProxyManager) (ops : list Op) (dead : ProxyEntry) :
  cursorValid pm ->
  let pm1 := runOps ops pm in
  let pm2 := markDead dead pm1 in
  cursorValid pm1
  ∧ cursorValid pm2
  ∧ (∀ p, p ∈ proxies pm2 ↔ p ∈ proxies pm1 ∧ server p ≠ server dead)
  ∧ currentIndex pm2
    = (if decide (currentIndex pm1 < length (proxies pm2))
       then currentIndex pm1 else 0)
  ∧ match fst (getNext pm2) with
    | Some p => p ∈ proxies pm2 ∧ p ∈ proxies pm1 ∧ server p ≠ server dead
    | None => proxies pm2 = []
    end.
Proof.
  intros Hpm pm1 pm2.
  assert (H1 : cursorValid pm1) by (apply cursorValid_runOps; assumption).
  assert (H2 : cursorValid pm2) by apply cursorValid_markDead.
  assert (Hmem : ∀ p, p ∈ proxies pm2 ↔ p ∈ proxies pm1 ∧ server p ≠ server dead).
  { intros p. unfold pm2, markDead. cbn [proxies].
    rewrite list_elem_of_filter. tauto. }
  repeat split; try assumption; try (apply Hmem; assumption).
  - unfold pm2, markDead. cbn [proxies currentIndex].
    set (ps := filter _ _).
    destruct (Nat.leb_spec (length ps) (currentIndex pm1));
      destruct (decide (currentIndex pm1 < length ps)); lia.
  - pose proof (getNext_cursorValid pm2 H2) as Hg.
    destruct (fst (getNext pm2)) as [p|]; [|assumption].
    split; [assumption|]. apply Hmem. assumption.
Qed.

End ProxyPool.

Lemma getNext_round_robin_witness :
  Proxy.getNextN 2 Sample.pool
  = ([Some Sample.proxyB; Some Sample.proxyA], Sample.pool).
Proof.
  pose proof (getNext_round_robin [Sample.proxyA; Sample.proxyB] 1) as H.
  cbn [length] in H. specialize (H ltac:(lia)).
  destruct H as (_ & _ & H & _). exact H.
Defined.

Lemma cursor_invariant_witness :
  Proxy.cursorValid (Proxy.markDead Sample.proxyB
                       (Proxy.runOps [Proxy.OpGetNext] Sample.pool))
  ∧ match fst (Proxy.getNext (Proxy.markDead Sample.proxyB
                                (Proxy.runOps [Proxy.OpGetNext] Sample.pool))) with
    | Some p => Proxy.server p ≠ Proxy.server Sample.proxyB
    | None => False
    end.
Proof.
  pose proof (cursor_invariant Sample.pool [Proxy.OpGetNext] Sample.proxyB) as H.
  specialize (H ltac:(left; cbn; lia)).
  cbv zeta in H. destruct H as (_ & Hvalid & _ & _ & Hnext).
  split; [exact Hvalid|].
  destruct (fst (Proxy.getNext (Proxy.markDead Sample.proxyB
                                  (Proxy.runOps [Proxy.OpGetNext] Sample.pool))))
    as [p|] eqn:E.
  - destruct Hnext as (_ & _ & Hne). exact Hne.
  - vm_compute in E. discriminate E.
Defined.

Section ProxyInitialize.
Import Proxy.
Variable new_URL : string -> option JS.URL.
Variable decodeURIComponent : string -> option string.
Variable fs : string -> option string.
Variable Net : Type.
Variable checkProxy : ProxyEntry -> Net -> bool * Net.

Lemma checkChunk_app l1 l2 n :
  checkChunk Net checkProxy (l1 ++ l2) n
  = (let (r1, n1) := checkChunk Net checkProxy l1 n in
     let (r2, n2) := checkChunk Net checkProxy l2 n1 in
     (r1 ++ r2, n2)).
Proof.
  revert n. induction l1 as [|p l1 IH]; intros n; cbn.
  - destruct (checkChunk Net checkProxy l2 n). reflexivity.
  - destruct (checkProxy p n) as [ok n1]. rewrite IH.
    destruct (checkChunk Net checkProxy l1 n1) as [r1 n2].
    destruct (checkChunk Net checkProxy l2 n2) as [r2 n3]. reflexivity.
Qed.

Lemma checkChunks_chunksOf fuel c l n :
  0 < c -> length l <= fuel ->
  checkChunks Net checkProxy (chunksOf fuel c l) n
  = (let (rs, n') := checkChunk Net checkProxy l n in
     (fst <$> filter (fun r => snd r = true) rs, n')).
Proof.
  intros Hc. revert l n. induction fuel as [|fuel IH]; intros l n Hl.
  - destruct l; [reflexivity | cbn in Hl; lia].
  - destruct l as [|p l']; [reflexivity|].
    cbn [chunksOf checkChunks].
    assert (E : checkChunk Net checkProxy (p :: l') n
                = checkChunk Net checkProxy (take c (p :: l') ++ drop c (p :: l')) n)
      by (rewrite take_drop; reflexivity).
    rewrite E, checkChunk_app. clear E.
    destruct (checkChunk Net checkProxy (take c (p :: l')) n) as [r1 n1].
    rewrite IH by (rewrite length_drop; cbn in *; lia).
    destruct (checkChunk Net checkProxy (drop c (p :: l')) n1) as [r2 n2].
    rewrite filter_app, fmap_app. reflexivity.
Qed.

Lemma filterWorkingProxies_passing l n :
  fst (filterWorkingProxies Net checkProxy l 3 n) = passing Net checkProxy l n.
Proof.
  unfold filterWorkingProxies, passing.
  rewrite checkChunks_chunksOf by lia.
  destruct (checkChunk Net checkProxy l n). reflexivity.
Qed.

Lemma parseLines_comments lines :
  Forall (fun raw => JS.trim raw = EmptyString ∨ JS.startsWith "#" (JS.trim raw) = true) lines ->
  parseLines new_URL decodeURIComponent lines = [].
Proof.
  induction 1 as [|raw lines Hraw _ IH]; [reflexivity|].
  cbn [parseLines]. destruct Hraw as [Hraw|Hraw]; rewrite Hraw.
  - exact IH.
  - rewrite orb_true_r. exact IH.
Qed.


End ProxyInitialize.


(** ** The action scheduler *)

Lemma Qltb_lt (a b : Q) : JS.Qltb a b = true ↔ (a < b)%Q.
Proof.
  unfold JS.Qltb. rewrite Qlt_alt.
  destruct (a ?= b)%Q; split; congruence.
Qed.

Lemma Qltb_ge (a b : Q) : JS.Qltb a b = false ↔ (b <= a)%Q.
Proof.
  unfold JS.Qltb. rewrite Qle_alt, <- Qgt_alt, Qlt_alt.
  destruct (a ?= b)%Q eqn:E; split; congruence.
Qed.

Section SchedulerFacts.
Import Driver Loop.
Context `{Platform}.
Variable mediaBody zoomBody : M Browser (option string).
Variable humanIdle : M Browser string.

Lemma onBrowser_random s : onBrowser Math_random s = (Ok (nextDraw s), afterDraw s).
Proof. reflexivity. Qed.

Lemma performRandomAction_kindOf currentUrl s :
  performRandomAction mediaBody zoomBody humanIdle currentUrl s
  = runAction mediaBody zoomBody humanIdle (kindOf (nextDraw s)) currentUrl
      (afterDraw s).
Proof.
  unfold performRandomAction, bind at 1. rewrite onBrowser_random.
  unfold kindOf.
  repeat (match goal with |- context [JS.Qltb ?a ?b] => destruct (JS.Qltb a b) end;
          [reflexivity|]).
  reflexivity.
Qed.

Lemma kindOf_selects (r : Q) (k : ActionKind) :
  (0 <= r)%Q -> (r < 1)%Q -> (selects k r ↔ kindOf r = k).
Proof.
  intros H0 H1. unfold kindOf, selects.
  repeat match goal with
         | |- context [JS.Qltb ?a ?b] =>
             let E := fresh "E" in
             destruct (JS.Qltb a b) eqn:E;
             [apply Qltb_lt in E | apply Qltb_ge in E]
         end;
    destruct k; cbn [lower upper]; split;
    try (intros [? ?]; exfalso; lra);
    try discriminate; try reflexivity;
    try (intros _; split; lra).
Qed.


End SchedulerFacts.


(** ** Computations that return, and inversion of sequencing *)

Section MonadFacts.
Context {S : Type}.
Local Open Scope js_scope.

Lemma bind_Ok {A B} (m : M S A) (k : A -> M S B) s b s' :
  bind m k s = (Ok b, s') ->
  ∃ a s1, m s = (Ok a, s1) ∧ k a s1 = (Ok b, s').
Proof.
  unfold bind. destruct (m s) as [[a|e] s1]; [eauto | discriminate].
Qed.

Lemma bind_eq {A B} (m : M S A) (k : A -> M S B) s a s1 :
  m s = (Ok a, s1) -> bind m k s = k a s1.
Proof. intros E. unfold bind. rewrite E. reflexivity. Qed.

Lemma bind_Throw {A B} (m : M S A) (k : A -> M S B) s e s1 :
  m s = (Throw e, s1) -> bind m k s = (Throw e, s1).
Proof. intros E. unfold bind. rewrite E. reflexivity. Qed.

Lemma try_catch_Ok {A} (m : M S A) (h : string -> M S A) s a s' :
  try_catch m h s = (Ok a, s') ->
  m s = (Ok a, s') ∨ ∃ e s1, m s = (Throw e, s1) ∧ h e s1 = (Ok a, s').
Proof.
  unfold try_catch. destruct (m s) as [[x|e] s1]; eauto.
Qed.

Lemma returns_ret {A} (a : A) : returns (ret a : M S A).
Proof. intros s. eexists _, _. reflexivity. Qed.

Lemma returns_gets {A} (f : S -> A) : returns (gets f).
Proof. intros s. eexists _, _. reflexivity. Qed.

Lemma returns_modify (f : S -> S) : returns (modify f).
Proof. intros s. eexists _, _. reflexivity. Qed.

Lemma returns_bind {A B} (m : M S A) (k : A -> M S B) :
  returns m -> (∀ a, returns (k a)) -> returns (bind m k).
Proof.
  intros Hm Hk s. destruct (Hm s) as (a & s1 & E).
  rewrite (bind_eq _ _ _ _ _ E). apply Hk.
Qed.

Lemma returns_try_catch {A} (m : M S A) (h : string -> M S A) :
  (∀ e, returns (h e)) -> returns (try_catch m h).
Proof.
  intros Hh s. unfold try_catch.
  destruct (m s) as [[a|e] s1]; [eexists _, _; reflexivity | apply Hh].
Qed.

Lemma returns_if {A} (c : bool) (m1 m2 : M S A) :
  returns m1 -> returns m2 -> returns (if c then m1 else m2).
Proof. destruct c; trivial. Qed.

End MonadFacts.

Create HintDb returns.
#[local] Hint Resolve returns_ret returns_gets returns_modify returns_bind
  returns_try_catch returns_if : returns.

(** ** Facts about the utilities and the handlers *)

Section HandlerFacts.
Import Driver Humanizer Actions.
Context `{Platform}.
Local Open Scope js_scope.

Lemma Math_random_eq b : Math_random b = (Ok (draws b (drawn b)), skip 1 b).
Proof. reflexivity. Qed.

Lemma returns_Math_random : returns Math_random.
Proof. intros b. eexists _, _. apply Math_random_eq. Qed.

Lemma randomInt_eq min max b :
  randomInt min max b
  = (Ok (Qfloor (draws b (drawn b) * inject_Z (max - min + 1)) + min)%Z, skip 1 b).
Proof. reflexivity. Qed.

Lemma returns_randomInt min max : returns (randomInt min max).
Proof. intros b. eexists _, _. apply randomInt_eq. Qed.

Lemma humanDelay_eq minMs maxMs b : humanDelay minMs maxMs b = (Ok tt, skip 2 b).
Proof. reflexivity. Qed.

Lemma returns_humanDelay minMs maxMs : returns (humanDelay minMs maxMs).
Proof. intros b. eexists _, _. apply humanDelay_eq. Qed.

Lemma microPause_eq b : microPause b = (Ok tt, skip 1 b).
Proof. reflexivity. Qed.

Lemma returns_microPause : returns microPause.
Proof. intros b. eexists _, _. apply microPause_eq. Qed.

Lemma returns_pickRandom {A} (arr : list A) : returns (pickRandom arr).
Proof.
  unfold pickRandom. destruct (length arr =? 0)%nat.
  - apply returns_ret.
  - apply returns_bind; [apply returns_randomInt | intros; apply returns_ret].
Qed.

Lemma pickRandom_elem {A} (arr : list A) b x b' :
  pickRandom arr b = (Ok (Some x), b') -> x ∈ arr.
Proof.
  unfold pickRandom. destruct (length arr =? 0)%nat; [discriminate|].
  intros E. apply bind_Ok in E as (i & b1 & _ & E).
  unfold ret, index in E. destruct (i <? 0)%Z; [discriminate|].
  injection E as E _. eapply list_elem_of_lookup_2. eassumption.
Qed.

Lemma returns_hoverRounds n acc : returns (hoverRounds n acc).
Proof.
  revert acc. induction n as [|n IH]; intros acc; cbn [hoverRounds].
  - apply returns_ret.
  - apply returns_bind; [apply returns_pickRandom|]. intros picked.
    destruct (negb (JS.truthy picked)); [apply IH|].
    apply returns_bind.
    + apply returns_try_catch. intros _. apply returns_ret.
    + intros [element|]; [|apply IH].
      apply returns_bind; [|intros _; apply IH].
      apply returns_try_catch. intros _. apply returns_ret.
Qed.

Lemma returns_humanHover : returns humanHover.
Proof.
  apply returns_bind; [apply returns_randomInt|].
  intros n. apply returns_hoverRounds.
Qed.

Lemma returns_humanClick : returns humanClick.
Proof. unfold humanClick. auto with returns. Qed.

Lemma returns_humanBack : returns humanBack.
Proof. unfold humanBack. auto with returns. Qed.

Lemma humanBack_Some b u b' :
  humanBack b = (Ok (Some u), b') ->
  JS.startsWith "http" u = true
  ∧ u = page_url (page b')
  ∧ u ≠ page_url (page b).
Proof.
  unfold humanBack. intros E.
  apply try_catch_Ok in E as [E|(e & b1 & _ & E)]; [|discriminate].
  apply bind_Ok in E as (currentUrl & b0 & Eurl & E).
  injection Eurl as <- <-.
  destruct (negb (JS.startsWith "http" (page_url (page b)))); [discriminate|].
  apply bind_Ok in E as (historyLength & b1 & _ & E).
  destruct (historyLength <=? 1)%Z; [discriminate|].
  apply bind_Ok in E as (? & b2 & _ & E).
  apply bind_Ok in E as (? & b3 & _ & E).
  apply bind_Ok in E as (afterUrl & b4 & Eurl & E).
  injection Eurl as <- <-.
  destruct (JS.startsWith "http" (page_url (page b3))) eqn:Ehttp; cbn [negb] in E.
  - destruct (String.eqb (page_url (page b3)) (page_url (page b))) eqn:Eeq;
      cbn [negb] in E; [discriminate|].
    apply bind_Ok in E as (? & b5 & Edelay & E).
    rewrite humanDelay_eq in Edelay. injection Edelay as _ <-.
    injection E as <- <-.
    split; [assumption|]. split; [reflexivity|].
    apply String.eqb_neq. assumption.
  - apply bind_Ok in E as (? & b5 & _ & E). discriminate.
Qed.

Lemma examine_selector selector i b c b' :
  examine selector i b = (Ok (Some c), b') -> cand_selector c = selector.
Proof.
  unfold examine. intros E.
  apply try_catch_Ok in E as [E|(e & b1 & _ & E)]; [|discriminate].
  apply bind_Ok in E as (isVisible & b1 & _ & E).
  destruct (negb isVisible); [discriminate|].
  apply bind_Ok in E as ([box|] & b2 & _ & E); [|discriminate].
  destruct (tiny box); [discriminate|].
  apply bind_Ok in E as (content & b3 & _ & E).
  injection E as <- _. reflexivity.
Qed.

Lemma examineAll_selector selector indices b cs b' :
  examineAll selector indices b = (Ok cs, b') ->
  ∀ c, c ∈ cs -> cand_selector c = selector.
Proof.
  revert b cs b'. induction indices as [|i rest IH]; intros b cs b' E c Hc.
  - injection E as <- _. inversion Hc.
  - cbn [examineAll] in E.
    apply bind_Ok in E as (x & b1 & Ex & E).
    apply bind_Ok in E as (xs & b2 & Exs & E).
    injection E as <- _.
    destruct x as [x|]; [|eapply IH; eassumption].
    apply elem_of_cons in Hc as [->|Hc].
    + eapply examine_selector. eassumption.
    + eapply IH; eassumption.
Qed.

Lemma gather_selectors selectors b cs b' :
  gather selectors b = (Ok cs, b') ->
  ∀ c, c ∈ cs -> cand_selector c ∈ selectors.
Proof.
  revert b cs b'. induction selectors as [|selector rest IH]; intros b cs b' E c Hc.
  - injection E as <- _. inversion Hc.
  - cbn [gather] in E.
    apply bind_Ok in E as (count & b1 & _ & E).
    apply bind_Ok in E as (here & b2 & Ehere & E).
    apply bind_Ok in E as (others & b3 & Eothers & E).
    injection E as <- _.
    apply elem_of_app in Hc as [Hc|Hc].
    + rewrite (examineAll_selector _ _ _ _ _ Ehere c Hc). left.
    + right. eapply IH; eassumption.
Qed.

Lemma describe_nonempty target :
  cand_selector target ∈ CLICKABLE_SELECTORS -> describe target ≠ EmptyString.
Proof.
  intros Hsel. unfold describe.
  destruct (String.eqb (cand_text target) EmptyString) eqn:E.
  - intros Hempty. rewrite Hempty in Hsel.
    unfold CLICKABLE_SELECTORS in Hsel.
    repeat (apply elem_of_cons in Hsel as [Hsel|Hsel]; [discriminate|]).
    inversion Hsel.
  - apply String.eqb_neq. assumption.
Qed.

Lemma humanClick_Some b d b' :
  humanClick b = (Ok (Some d), b') -> JS.truthy (Some d) = true.
Proof.
  unfold humanClick. intros E.
  apply try_catch_Ok in E as [E|(e & b1 & _ & E)]; [|discriminate].
  apply bind_Ok in E as (candidates & b1 & Egather & E).
  destruct (length candidates =? 0)%nat; [discriminate|].
  apply bind_Ok in E as ([target|] & b2 & Epick & E); [|discriminate].
  apply bind_Ok in E as (? & b3 & _ & E).
  apply bind_Ok in E as (? & b4 & _ & E).
  apply bind_Ok in E as (? & b5 & _ & E).
  apply bind_Ok in E as (r1 & b6 & _ & E).
  apply bind_Ok in E as (r2 & b7 & _ & E).
  apply bind_Ok in E as (r3 & b8 & _ & E).
  apply bind_Ok in E as (? & b9 & _ & E).
  apply bind_Ok in E as (? & b10 & _ & E).
  injection E as <- _.
  cbn [JS.truthy]. apply negb_true_iff, String.eqb_neq.
  apply describe_nonempty.
  eapply gather_selectors; [eassumption|].
  eapply pickRandom_elem. eassumption.
Qed.

End HandlerFacts.

(** ** The navigation flag of the scheduler *)

Section SchedulerFlag.
Import Driver Humanizer Actions Loop.
Context `{Platform}.
Variable mediaBody zoomBody : M Browser (option string).
Variable humanIdle : M Browser string.
Local Open Scope js_scope.

Lemma onBrowser_Ok {A} (m : M Browser A) s a b :
  m (browser s) = (Ok a, b) -> onBrowser m s = (Ok a, withBrowser s b).
Proof. intros E. unfold onBrowser. rewrite E. reflexivity. Qed.

Lemma onBrowser_Throw {A} (m : M Browser A) s e b :
  m (browser s) = (Throw e, b) -> onBrowser m s = (Throw e, withBrowser s b).
Proof. intros E. unfold onBrowser. rewrite E. reflexivity. Qed.

Lemma returns_onBrowser {A} (m : M Browser A) : returns m -> returns (onBrowser m).
Proof.
  intros Hm s. destruct (Hm (browser s)) as (a & b & E).
  eexists _, _. apply onBrowser_Ok. eassumption.
Qed.

Lemma recordAction_browser act det pageUrl s :
  ∃ s', recordAction act det pageUrl s = (Ok tt, s') ∧ browser s' = browser s.
Proof. eexists. split; reflexivity. Qed.

Lemma navigated_eq currentUrl s :
  ∃ s', navigated currentUrl s
        = (Ok (negb (String.eqb (page_url (page (browser s))) currentUrl)), s')
        ∧ browser s' = browser s.
Proof.
  unfold navigated, bind, currentPageUrl, onBrowser, url, gets. cbn.
  destruct (String.eqb (page_url (page (browser s))) currentUrl); cbn;
    eexists; split; reflexivity.
Qed.

Lemma returns_humanMedia : returns (humanMedia mediaBody).
Proof. unfold humanMedia. auto with returns. Qed.

Lemma returns_humanZoom : returns (humanZoom zoomBody).
Proof. unfold humanZoom. auto with returns. Qed.

Lemma returns_recordAction act det pageUrl : returns (recordAction act det pageUrl).
Proof. apply returns_modify. Qed.

Lemma returns_navigated currentUrl : returns (navigated currentUrl).
Proof.
  intros s. destruct (navigated_eq currentUrl s) as (s' & E & _). eauto.
Qed.

(** The handlers whose body sits in a [try] make their branch return. *)
Lemma runAction_returns k currentUrl :
  k = Hover ∨ k = Click ∨ k = Back ∨ k = Media ∨ k = Zoom ->
  returns (runAction mediaBody zoomBody humanIdle k currentUrl).
Proof.
  intros [ -> | [ -> | [ -> | [ -> | -> ] ] ] ]; cbn [runAction].
  - apply returns_bind; [apply returns_onBrowser, returns_humanHover|].
    intros hovered. apply returns_bind; [|intros; apply returns_ret].
    apply returns_if; [apply returns_recordAction | apply returns_ret].
  - apply returns_bind; [apply returns_onBrowser, returns_humanClick|].
    intros clicked. apply returns_if; [|apply returns_ret].
    apply returns_bind; [apply returns_recordAction|].
    intros _. apply returns_navigated.
  - apply returns_bind; [apply returns_onBrowser, returns_humanBack|].
    intros backUrl. apply returns_if; [|apply returns_ret].
    apply returns_bind; [apply returns_recordAction | intros; apply returns_ret].
  - apply returns_bind; [apply returns_onBrowser, returns_humanMedia|].
    intros r. apply returns_bind; [|intros; apply returns_ret].
    apply returns_if; [apply returns_recordAction | apply returns_ret].
  - apply returns_bind; [apply returns_onBrowser, returns_humanZoom|].
    intros r. apply returns_bind; [|intros; apply returns_ret].
    apply returns_if; [apply returns_recordAction | apply returns_ret].
Qed.

Lemma runAction_Type currentUrl s flag s' :
  runAction mediaBody zoomBody humanIdle Type_ currentUrl s = (Ok flag, s') ->
  browser s' = snd (humanType (browser s))
  ∧ (flag = true ↔ fst (humanType (browser s)) = Ok true
                    ∧ page_url (page (browser s')) ≠ currentUrl).
Proof.
  cbn [runAction]. intros E.
  apply bind_Ok in E as (typed & s1 & Etyped & E).
  unfold onBrowser in Etyped.
  destruct (humanType (browser s)) as [r b1] eqn:Eh.
  injection Etyped as -> <-. cbn [fst snd].
  destruct typed.
  - apply bind_Ok in E as (? & s2 & Erec & E).
    destruct (recordAction_browser "TYPE" "Search query" currentUrl (withBrowser s b1))
      as (s2' & Erec' & Hb2).
    rewrite Erec' in Erec. injection Erec as _ <-.
    destruct (navigated_eq currentUrl s2') as (s3 & Enav & Hb3).
    rewrite Enav in E. injection E as <- <-.
    rewrite Hb3, Hb2. cbn [browser withBrowser].
    split; [reflexivity|].
    rewrite negb_true_iff, String.eqb_neq. tauto.
  - injection E as <- <-. cbn [browser withBrowser].
    split; [reflexivity|]. split; [discriminate|]. intros [? _]. discriminate.
Qed.

Lemma runAction_Click currentUrl s flag s' :
  runAction mediaBody zoomBody humanIdle Click currentUrl s = (Ok flag, s') ->
  browser s' = snd (humanClick (browser s))
  ∧ (flag = true ↔ (∃ d, fst (humanClick (browser s)) = Ok (Some d))
                    ∧ page_url (page (browser s')) ≠ currentUrl).
Proof.
  cbn [runAction]. intros E.
  apply bind_Ok in E as (clicked & s1 & Eclicked & E).
  unfold onBrowser in Eclicked.
  destruct (humanClick (browser s)) as [r b1] eqn:Eh.
  injection Eclicked as -> <-. cbn [fst snd].
  destruct (JS.truthy clicked) eqn:Etruthy.
  - apply bind_Ok in E as (? & s2 & Erec & E).
    destruct (recordAction_browser "CLICK" (default EmptyString clicked) currentUrl
                (withBrowser s b1)) as (s2' & Erec' & Hb2).
    rewrite Erec' in Erec. injection Erec as _ <-.
    destruct (navigated_eq currentUrl s2') as (s3 & Enav & Hb3).
    rewrite Enav in E. injection E as <- <-.
    rewrite Hb3, Hb2. cbn [browser withBrowser].
    split; [reflexivity|].
    rewrite negb_true_iff, String.eqb_neq.
    destruct clicked as [d|]; [|discriminate]. split; [eauto | tauto].
  - injection E as <- <-. cbn [browser withBrowser].
    split; [reflexivity|]. split; [discriminate|].
    intros [[d Hd] _]. injection Hd as ->.
    rewrite (humanClick_Some _ _ _ Eh) in Etruthy. discriminate.
Qed.

Lemma runAction_Back currentUrl s flag s' :
  runAction mediaBody zoomBody humanIdle Back currentUrl s = (Ok flag, s') ->
  browser s' = snd (humanBack (browser s))
  ∧ (flag = true ↔ ∃ u, fst (humanBack (browser s)) = Ok (Some u)
                        ∧ JS.startsWith "http" u = true
                        ∧ page_url (page (browser s')) = u
                        ∧ u ≠ page_url (page (browser s))).
Proof.
  cbn [runAction]. intros E.
  apply bind_Ok in E as (backUrl & s1 & Eback & E).
  unfold onBrowser in Eback.
  destruct (humanBack (browser s)) as [r b1] eqn:Eh.
  injection Eback as -> <-. cbn [fst snd].
  destruct (JS.truthy backUrl) eqn:Etruthy.
  - apply bind_Ok in E as (? & s2 & Erec & E).
    injection Erec as _ <-. injection E as <- <-.
    cbn [browser withBrowser]. split; [reflexivity|].
    destruct backUrl as [u|]; [|discriminate].
    destruct (humanBack_Some _ _ _ Eh) as (Hhttp & Hu & Hne).
    split; [intros _ | reflexivity].
    exists u. repeat split; [assumption | congruence | assumption].
  - injection E as <- <-. cbn [browser withBrowser].
    split; [reflexivity|]. split; [discriminate|].
    intros (u & Hu & Hhttp & _). injection Hu as ->.
    cbn [JS.truthy] in Etruthy. apply negb_false_iff, String.eqb_eq in Etruthy.
    subst u. discriminate.
Qed.

Lemma runAction_false k currentUrl s flag s' :
  k = Scroll ∨ k = Hover ∨ k = Media ∨ k = Zoom ∨ k = Idle ->
  runAction mediaBody zoomBody humanIdle k currentUrl s = (Ok flag, s') ->
  flag = false.
Proof.
  intros [ -> | [ -> | [ -> | [ -> | -> ] ] ] ]; cbn [runAction]; intros E;
    apply bind_Ok in E as (? & ? & _ & E);
    apply bind_Ok in E as (? & ? & _ & E);
    injection E as <- _; reflexivity.
Qed.

Lemma runAction_Scroll_returns currentUrl s n b :
  humanScroll (browser s) = (Ok n, b) ->
  ∃ s', runAction mediaBody zoomBody humanIdle Scroll currentUrl s = (Ok false, s').
Proof.
  intros E. cbn [runAction].
  rewrite (bind_eq _ _ _ _ _ (onBrowser_Ok _ _ _ _ E)).
  eexists. reflexivity.
Qed.

Lemma runAction_Idle_returns currentUrl s d b :
  humanIdle (browser s) = (Ok d, b) ->
  ∃ s', runAction mediaBody zoomBody humanIdle Idle currentUrl s = (Ok false, s').
Proof.
  intros E. cbn [runAction].
  rewrite (bind_eq _ _ _ _ _ (onBrowser_Ok _ _ _ _ E)).
  eexists. reflexivity.
Qed.

Lemma runAction_Type_returns currentUrl s t b :
  humanType (browser s) = (Ok t, b) ->
  ∃ flag s', runAction mediaBody zoomBody humanIdle Type_ currentUrl s = (Ok flag, s').
Proof.
  intros E. cbn [runAction].
  rewrite (bind_eq _ _ _ _ _ (onBrowser_Ok _ _ _ _ E)).
  destruct t; [|eexists _, _; reflexivity].
  apply returns_bind; [apply returns_recordAction|].
  intros _. apply returns_navigated.
Qed.


End SchedulerFlag.


(** C2 (the code at a failing input): the draw 0.4 selects the type action;
    the search box is visible but [locator.click()] times out; nothing
    between the handler and the scheduler's caller catches the exception. *)
Theorem scheduler_propagates_click_timeout :
  fst (Loop.performRandomAction Sample.noMedia Sample.noZoom Sample.idles
         "https://example.com/" (Sample.sessionOn Sample.covered Sample.typeDraws))
  = Throw "TimeoutError: locator.click: Timeout 30000ms exceeded.".
Proof. vm_compute. reflexivity. Qed.

(** ** Typing with typos *)

Lemma Qfloor_scale_range (r : Q) (n : Z) :
  (0 <= r)%Q -> (r < 1)%Q -> (0 < n)%Z ->
  (0 <= Qfloor (r * inject_Z n) < n)%Z.
Proof.
  intros H0 H1 Hn.
  assert (Hn' : (0 < inject_Z n)%Q) by (unfold Qlt; cbn; lia).
  split.
  - change 0%Z with (Qfloor 0). apply Qfloor_resp_le.
    apply Qmult_le_0_compat; [assumption | apply Qlt_le_weak; assumption].
  - rewrite Zlt_Qlt.
    apply Qle_lt_trans with (r * inject_Z n)%Q; [apply Qfloor_le|].
    rewrite <- (Qmult_1_l (inject_Z n)) at 2.
    apply Qmult_lt_compat_r; assumption.
Qed.

Section Typing.
Import Driver Humanizer Actions.
Context `{Platform}.
Local Open Scope js_scope.

Lemma bind_assoc {S A B C} (m : M S A) (k : A -> M S B) (k' : B -> M S C) s :
  bind (bind m k) k' s = bind m (fun a => bind (k a) k') s.
Proof. unfold bind. destruct (m s) as [[a|e] s1]; reflexivity. Qed.

Lemma bind_ret {S A B} (a : A) (k : A -> M S B) s : bind (ret a) k s = k a s.
Proof. reflexivity. Qed.

(** The browser after the call [c] answered with page [p]. *)
Lemma bind_call {A B} (c : Call A) (k : A -> M Browser B) b :
  bind (call c) k b
  = match perform A c (page b) with
    | (Ok a, p) => k a {| page := p; draws := draws b; drawn := drawn b;
                          calls := calls b ++ [anyCall c] |}
    | (Throw e, p) => (Throw e, {| page := p; draws := draws b; drawn := drawn b;
                                   calls := calls b ++ [anyCall c] |})
    end.
Proof.
  unfold bind, call. destruct (perform A c (page b)) as [[a|e] p]; reflexivity.
Qed.

Lemma call_eq {A} (c : Call A) b :
  call c b
  = (fst (perform A c (page b)),
     {| page := snd (perform A c (page b)); draws := draws b; drawn := drawn b;
        calls := calls b ++ [anyCall c] |}).
Proof. unfold call. destruct (perform A c (page b)). reflexivity. Qed.

Lemma bind_humanTypingDelay {B} (k : Num.t -> M Browser B) b :
  ∃ d, bind humanTypingDelay k b = k d (skip 2 b).
Proof. eexists. reflexivity. Qed.

(** C10 (amended): for the character at index [i], the draw [r] decides:
    when [r < 0.1] and [i > 0] the calls issued are, in order, the typing of
    the code unit of the character shifted by [floor (5 r') - 2] (an offset
    between -2 and 2 for the next draw [r'] in [0,1)), the Backspace key, and
    the typing of the character; otherwise the typing of the character alone.
    A call that throws cuts the sequence short. *)
Theorem typo_then_correct (i : nat) (char : ascii) (b : Browser) :
  let r := draws b (drawn b) in
  let r' := draws b (S (drawn b)) in
  let shift := (Qfloor (r' * 5) - 2)%Z in
  let typoChar := fromCharCode (charCodeAt0 char + shift) in
  let run := typeChar i char b in
  let issued := drop (length (calls b)) (calls (snd run)) in
  let correct := anyCall (KeyboardType (charCodeAt0 char)) in
  calls b `prefix_of` calls (snd run)
  ∧ if JS.Qltb r 0.1 && (0 <? i)%nat then
      ((0 <= r')%Q -> (r' < 1)%Q -> (-2 <= shift <= 2)%Z)
      ∧ issued `prefix_of` [anyCall (KeyboardType typoChar);
                           anyCall (KeyboardPress "Backspace"); correct]
      ∧ (fst run = Ok tt ->
         issued = [anyCall (KeyboardType typoChar);
                   anyCall (KeyboardPress "Backspace"); correct])
    else
      issued `prefix_of` [correct] ∧ (fst run = Ok tt -> issued = [correct]).
Proof.
  intros r r' shift typoChar run issued correct.
  assert (Hshift : (0 <= r')%Q -> (r' < 1)%Q -> (-2 <= shift <= 2)%Z).
  { intros H0 H1. pose proof (Qfloor_scale_range r' 5 H0 H1 ltac:(lia)) as Hf.
    unfold shift. change (inject_Z 5) with 5%Q in Hf. lia. }
  unfold issued. clear issued.
  assert (Erun : run = typeChar i char b) by reflexivity. clearbody run.
  unfold typeChar in Erun.
  rewrite (bind_eq _ _ _ _ _ (Math_random_eq b)) in Erun. fold r in Erun.
  destruct (JS.Qltb r 0.1 && (0 <? i)%nat).
  - rewrite ?bind_assoc in Erun.
    rewrite (bind_eq _ _ _ _ _ (randomInt_eq (-2) 2 (skip 1 b))) in Erun.
    change (draws (skip 1 b) (drawn (skip 1 b))) with r' in Erun.
    change (Qfloor (r' * inject_Z (2 - -2 + 1)) + -2)%Z with shift in Erun.
    fold typoChar in Erun.
    rewrite ?bind_assoc in Erun.
    match type of Erun with
    | _ = bind humanTypingDelay ?k ?s =>
        destruct (bind_humanTypingDelay k s) as (d1 & Ed1); rewrite Ed1 in Erun;
        clear Ed1
    end.
    rewrite ?bind_assoc, bind_call in Erun.
    destruct (perform unit (KeyboardType typoChar) _) as [[[]|e1] p1];
      cbv beta iota in Erun.
    + rewrite ?bind_assoc in Erun.
      rewrite (bind_eq _ _ _ _ _ (humanDelay_eq 200 500 _)) in Erun.
      rewrite ?bind_assoc, bind_call in Erun.
      cbn [page skip] in Erun.
      destruct (perform unit (KeyboardPress "Backspace") p1) as [[[]|e2] p2];
        cbv beta iota in Erun.
      * rewrite ?bind_assoc in Erun.
        rewrite (bind_eq _ _ _ _ _ (humanDelay_eq 100 300 _)) in Erun.
        match type of Erun with
        | _ = bind humanTypingDelay ?k ?s =>
            destruct (bind_humanTypingDelay k s) as (d2 & Ed2); rewrite Ed2 in Erun;
            clear Ed2
        end.
        rewrite call_eq in Erun. subst run.
        cbn [fst snd calls skip].
        rewrite <- !app_assoc. cbn [app]. rewrite drop_app_length.
        split; [apply prefix_app_r; reflexivity|].
        split; [assumption | split; reflexivity].
      * subst run. cbn [fst snd calls skip].
        rewrite <- !app_assoc. cbn [app]. rewrite drop_app_length.
        split; [apply prefix_app_r; reflexivity|].
        split; [assumption|]. split; [eexists [_]; reflexivity | discriminate].
    + subst run. cbn [fst snd calls skip]. rewrite drop_app_length.
      split; [apply prefix_app_r; reflexivity|].
      split; [assumption|]. split; [eexists [_; _]; reflexivity | discriminate].
  - rewrite bind_ret in Erun.
    match type of Erun with
    | _ = bind humanTypingDelay ?k ?s =>
        destruct (bind_humanTypingDelay k s) as (d & Ed); rewrite Ed in Erun;
        clear Ed
    end.
    rewrite call_eq in Erun. subst run.
    cbn [fst snd calls skip]. rewrite drop_app_length.
    split; [apply prefix_app_r; reflexivity|].
    split; reflexivity.
Qed.

End Typing.

Lemma typo_then_correct_witness :
  (-2 <= Qfloor (Sample.typoDraws 1 * 5) - 2 <= 2)%Z.
Proof.
  pose proof (typo_then_correct 1 "b"%char
                (Sample.browserOn Sample.home Sample.typoDraws)) as H.
  cbv zeta in H. destruct H as [_ H].
  change (JS.Qltb (Driver.draws (Sample.browserOn Sample.home Sample.typoDraws)
                     (Driver.drawn (Sample.browserOn Sample.home Sample.typoDraws)))
            0.1 && (0 <? 1)%nat) with true in H.
  destruct H as [H _]. apply H.
  - vm_compute. discriminate.
  - vm_compute. reflexivity.
Defined.

(** C10 as stated fails: with the draws 0.05 (typo) and 0.9 (offset), the
    character typed before the Backspace for ["b"] (code unit 98) is code
    unit 100, two code units away. *)
Lemma typo_shift_counterexample :
  JS.Qltb (Sample.typoDraws 0) 0.1 = true
  ∧ Driver.calls (snd (Actions.typeChar 1 "b"%char
                         (Sample.browserOn Sample.home Sample.typoDraws)))
    = [Driver.anyCall (Driver.KeyboardType 100);
       Driver.anyCall (Driver.KeyboardPress "Backspace");
       Driver.anyCall (Driver.KeyboardType 98)]
  ∧ Actions.charCodeAt0 "b"%char = 98%Z
  ∧ Z.abs (100 - 98) ≠ 1%Z.
Proof.
  split; [reflexivity|]. split; [vm_compute; reflexivity|].
  split; [reflexivity | discriminate].
Qed.

(** ** Link collection and the fallback target *)

Section Counting.
Context {A : Type}.

Lemma filter_ext_elem (P Q : A -> Prop) `{∀ x, Decision (P x)} `{∀ x, Decision (Q x)}
    (l : list A) :
  (∀ x, x ∈ l -> (P x ↔ Q x)) -> filter P l = filter Q l.
Proof.
  induction l as [|x l IH]; intros HPQ; [reflexivity|].
  rewrite !filter_cons.
  assert (HPx : P x ↔ Q x) by (apply HPQ; left).
  rewrite IH by (intros y Hy; apply HPQ; right; assumption).
  destruct (decide (P x)), (decide (Q x)); tauto || reflexivity.
Qed.

Lemma filter_none (P : A -> Prop) `{∀ x, Decision (P x)} (l : list A) :
  (∀ x, x ∈ l -> ¬ P x) -> filter P l = [].
Proof.
  induction l as [|x l IH]; intros HP; [reflexivity|].
  rewrite filter_cons.
  destruct (decide (P x)) as [Hx|Hx]; [exfalso; apply (HP x); [left | assumption]|].
  apply IH. intros y Hy. apply HP. right. assumption.
Qed.

Lemma length_filter_fmap {B} (f : A -> B) (P : B -> Prop) `{∀ y, Decision (P y)}
    (l : list A) :
  length (filter P (f <$> l)) = length (filter (fun x => P (f x)) l).
Proof.
  induction l as [|x l IH]; [reflexivity|].
  rewrite fmap_cons, !filter_cons.
  destruct (decide (P (f x))); cbn [length]; rewrite IH; reflexivity.
Qed.

End Counting.

Lemma count_eq_seq (q n : nat) :
  length (filter (fun j => j = q) (seq 0 n)) = if decide (q < n) then 1 else 0.
Proof.
  induction n as [|n IH]; [destruct (decide (q < 0)); [lia | reflexivity]|].
  rewrite seq_S, filter_app, length_app, IH. cbn [Nat.add].
  rewrite filter_cons, filter_nil.
  destruct (decide (n = q)), (decide (q < n)), (decide (q < S n)); cbn; lia.
Qed.

Lemma count_ne_seq (q n : nat) :
  length (filter (fun j => j ≠ q) (seq 0 n)) = if decide (q < n) then n - 1 else n.
Proof.
  induction n as [|n IH]; [destruct (decide (q < 0)); [lia | reflexivity]|].
  rewrite seq_S, filter_app, length_app, IH. cbn [Nat.add].
  rewrite filter_cons, filter_nil.
  destruct (decide (n ≠ q)), (decide (q < n)), (decide (q < S n)); cbn; lia.
Qed.

Section Shuffle.
Import Humanizer.

Lemma origin0_le i js : origin0 i js <= i.
Proof.
  revert js. induction i as [|i IH]; intros js; [reflexivity|].
  destruct js as [|j js]; cbn [origin0]; [lia|].
  specialize (IH js). destruct (origin0 i js =? j)%nat; lia.
Qed.

Lemma elem_of_allChoices_S i js :
  js ∈ allChoices (S i) ↔ ∃ j js', js = j :: js' ∧ j <= S i ∧ js' ∈ allChoices i.
Proof.
  cbn [allChoices]. rewrite list_elem_of_bind. split.
  - intros (js' & Hjs & Hjs'). apply list_elem_of_fmap in Hjs as (j & -> & Hj).
    apply elem_of_seq in Hj. exists j, js'. repeat split; [lia | assumption].
  - intros (j & js' & -> & Hj & Hjs'). exists js'. split; [|assumption].
    apply list_elem_of_fmap. exists j. split; [reflexivity|].
    apply elem_of_seq. lia.
Qed.

Lemma length_allChoices i : length (allChoices i) = fact (S i).
Proof.
  induction i as [|i IH]; [reflexivity|].
  cbn [allChoices].
  assert (Hlen : ∀ (L : list (list nat)) n,
             length (L ≫= (fun js => (fun j => j :: js) <$> seq 0 n)) = n * length L).
  { intros L n. induction L as [|js L IHL]; [cbn; lia|].
    rewrite bind_cons, length_app, length_fmap, length_seq, IHL. cbn [length]. lia. }
  rewrite Hlen, IH. change (fact (S (S i))) with (S (S i) * fact (S i)). reflexivity.
Qed.

Lemma swap_length {A} (l : list A) i j : length (swap l i j) = length l.
Proof.
  unfold swap. destruct (l !! j), (l !! i); rewrite ?length_insert; reflexivity.
Qed.

Lemma swap_lookup {A} (l : list A) i j q :
  i < length l -> j < length l -> q ≠ i ->
  swap l i j !! q = l !! (if (q =? j)%nat then i else q).
Proof.
  intros Hi Hj Hq. unfold swap.
  destruct (lookup_lt_is_Some_2 l j Hj) as [rj Erj].
  destruct (lookup_lt_is_Some_2 l i Hi) as [ri Eri].
  rewrite Erj, Eri.
  destruct (Nat.eqb_spec q j) as [->|Hqj].
  - rewrite list_lookup_insert_eq by (rewrite length_insert; assumption).
    symmetry. assumption.
  - rewrite list_lookup_insert_ne by congruence.
    rewrite list_lookup_insert_ne by congruence. reflexivity.
Qed.

(** The element left at position 0 is the one [origin0] points to. *)
Lemma shuffleIdx_head {A} i js (l : list A) :
  js ∈ allChoices i -> i < length l ->
  shuffleIdx i js l !! 0 = l !! origin0 i js.
Proof.
  revert js l. induction i as [|i IH]; intros js l Hjs Hi.
  - destruct js; reflexivity.
  - apply elem_of_allChoices_S in Hjs as (j & js' & -> & Hj & Hjs').
    cbn [shuffleIdx origin0].
    rewrite IH by (rewrite ?swap_length; assumption || lia).
    pose proof (origin0_le i js') as Hq.
    rewrite swap_lookup by lia. reflexivity.
Qed.

Lemma shuffleIdx_length {A} i js (l : list A) : length (shuffleIdx i js l) = length l.
Proof.
  revert js l. induction i as [|i IH]; intros js l; [destruct js; reflexivity|].
  destruct js as [|j js]; [reflexivity|]. cbn [shuffleIdx].
  rewrite IH, swap_length. reflexivity.
Qed.

(** Each position of [0..i] is left at position 0 by the same number of
    index sequences. *)
Lemma count_origin0 i p :
  p <= i ->
  length (filter (fun js => origin0 i js = p) (allChoices i)) = fact i.
Proof.
  revert p. induction i as [|i IH]; intros p Hp.
  - assert (p = 0) as -> by lia. reflexivity.
  - cbn [allChoices].
    assert (Hall : ∀ js, js ∈ allChoices i -> origin0 i js <= i)
      by (intros; apply origin0_le).
    destruct (decide (p = S i)) as [->|Hne].
    + (* the last position: exactly one [j] per sequence *)
      assert (Hcount : ∀ L : list (list nat),
                 (∀ js, js ∈ L -> origin0 i js <= i) ->
                 length (filter (fun js => origin0 (S i) js = S i)
                           (L ≫= (fun js => (fun j => j :: js) <$> seq 0 (S (S i)))))
                 = length L).
      { induction L as [|js L IHL]; intros HL; [reflexivity|].
        rewrite bind_cons, filter_app, length_app, IHL
          by (intros; apply HL; right; assumption).
        cbn [length]. f_equal.
        rewrite length_filter_fmap.
        rewrite (filter_ext_elem _ (fun j => j = origin0 i js)).
        - rewrite count_eq_seq.
          pose proof (HL js ltac:(left)).
          destruct (decide (origin0 i js < S (S i))); [reflexivity | lia].
        - intros j _. cbn [origin0].
          pose proof (HL js ltac:(left)).
          destruct (Nat.eqb_spec (origin0 i js) j); split; intros; lia || congruence. }
      rewrite Hcount, length_allChoices by assumption.
      reflexivity.
    + assert (Hcount : ∀ L : list (list nat),
                 (∀ js, js ∈ L -> origin0 i js <= i) ->
                 length (filter (fun js => origin0 (S i) js = p)
                           (L ≫= (fun js => (fun j => j :: js) <$> seq 0 (S (S i)))))
                 = S i * length (filter (fun js => origin0 i js = p) L)).
      { induction L as [|js L IHL]; intros HL; [cbn; lia|].
        rewrite bind_cons, filter_app, length_app, IHL
          by (intros; apply HL; right; assumption).
        rewrite filter_cons.
        pose proof (HL js ltac:(left)) as Hq.
        rewrite length_filter_fmap.
        destruct (decide (origin0 i js = p)) as [Heq|Hneq].
        - rewrite (filter_ext_elem _ (fun j => j ≠ origin0 i js)).
          + rewrite count_ne_seq.
            destruct (decide (origin0 i js < S (S i))); [|lia].
            cbn [length]. lia.
          + intros j _. cbn [origin0].
            destruct (Nat.eqb_spec (origin0 i js) j); split; intros; lia || congruence.
        - rewrite filter_none; [cbn [length]; lia|].
          intros j _. cbn [origin0].
          destruct (Nat.eqb_spec (origin0 i js) j); lia. }
      rewrite Hcount, IH by (assumption || lia).
      reflexivity.
Qed.

End Shuffle.

Lemma Qfloor_cell (x : Q) (k : Z) :
  Qfloor x = k ↔ (inject_Z k <= x)%Q ∧ (x < inject_Z (k + 1))%Q.
Proof.
  split.
  - intros <-. split; [apply Qfloor_le | apply Qlt_floor].
  - intros [Hlo Hhi].
    assert (H1 : (k <= Qfloor x)%Z).
    { rewrite <- (Qfloor_Z k). apply Qfloor_resp_le. assumption. }
    assert (H2 : (Qfloor x < k + 1)%Z).
    { rewrite Zlt_Qlt. eapply Qle_lt_trans; [apply Qfloor_le | assumption]. }
    lia.
Qed.

Section Links.
Import Driver Humanizer Actions.
Context `{Platform}.
Local Open Scope js_scope.

Lemma elem_of_dedupFrom seen l x :
  x ∈ dedupFrom seen l ↔ x ∈ l ∧ x ∉ seen.
Proof.
  revert seen. induction l as [|y l IH]; intros seen; cbn [dedupFrom].
  - split; [intros Hx; inversion Hx | intros [Hx _]; inversion Hx].
  - destruct (bool_decide_reflect (y ∈ seen)) as [Hy|Hy].
    + rewrite IH, elem_of_cons. split; [tauto|].
      intros [[->|Hx] Hn]; tauto.
    + rewrite !elem_of_cons, IH, elem_of_cons. split.
      * intros [->|[Hx Hn]]; tauto.
      * intros [[->|Hx] Hn]; [tauto|].
        destruct (decide (x = y)); tauto.
Qed.

Lemma NoDup_dedupFrom seen l : NoDup (dedupFrom seen l).
Proof.
  revert seen. induction l as [|y l IH]; intros seen; cbn [dedupFrom].
  - constructor.
  - destruct (bool_decide (y ∈ seen)); [apply IH|].
    apply NoDup_cons. split; [|apply IH].
    rewrite elem_of_dedupFrom, elem_of_cons. tauto.
Qed.

Lemma dedupFrom_NoDup seen l :
  NoDup l -> (∀ x, x ∈ l -> x ∉ seen) -> dedupFrom seen l = l.
Proof.
  revert seen. induction l as [|y l IH]; intros seen Hnd Hseen; [reflexivity|].
  apply NoDup_cons in Hnd as [Hy Hnd]. cbn [dedupFrom].
  destruct (bool_decide_reflect (y ∈ seen)) as [Hin|Hin].
  - exfalso. apply (Hseen y); [left | assumption].
  - f_equal. apply IH; [assumption|].
    intros x Hx. rewrite elem_of_cons. intros [->|Hxs]; [tauto|].
    apply (Hseen x); [right|]; assumption.
Qed.

Lemma dedup_idempotent l : dedup (dedup l) = dedup l.
Proof.
  unfold dedup. apply dedupFrom_NoDup; [apply NoDup_dedupFrom|].
  intros x _ Hx. inversion Hx.
Qed.

Lemma elem_of_internalLinks origin hrefs x :
  x ∈ internalLinks origin hrefs
  ↔ ∃ href u, href ∈ hrefs ∧ new_URL href = Some u ∧ JS.url_origin u = origin
              ∧ x = (JS.url_origin u ++ JS.url_pathname u ++ JS.url_search u)%string.
Proof.
  unfold internalLinks, dedup. rewrite elem_of_dedupFrom, list_elem_of_omap.
  unfold internalLink. split.
  - intros [(href & Hhref & Hlink) _].
    destruct (new_URL href) as [u|] eqn:Eu; [|discriminate].
    destruct (String.eqb_spec (JS.url_origin u) origin) as [Ho|Ho];
      cbn [negb] in Hlink; [|discriminate].
    injection Hlink as <-. exists href, u. tauto.
  - intros (href & u & Hhref & Eu & Ho & ->). split; [|intros Hx; inversion Hx].
    exists href. split; [assumption|]. rewrite Eu.
    destruct (String.eqb_spec (JS.url_origin u) origin); [reflexivity | contradiction].
Qed.

Lemma collectInternalLinks_eq b cu hrefs p :
  JS.startsWith "http" (page_url (page b)) = true ->
  new_URL (page_url (page b)) = Some cu ->
  perform _ AnchorHrefs (page b) = (Ok hrefs, p) ->
  collectInternalLinks b
  = (Ok (internalLinks (JS.url_origin cu) hrefs),
     {| page := p; draws := draws b; drawn := drawn b;
        calls := calls b ++ [anyCall AnchorHrefs] |}).
Proof.
  intros Hhttp Hcu Hp. unfold collectInternalLinks, bind, url, gets, newURL, call, ret.
  rewrite Hhttp, Hcu. cbn [negb]. rewrite Hp. reflexivity.
Qed.

Lemma shuffleFrom_eq {A} i (result : list A) b :
  shuffleFrom i result b
  = (Ok (shuffleIdx i (choices (draws b) (drawn b) i) result), skip i b).
Proof.
  revert result b. induction i as [|i IH]; intros result b.
  - destruct b. reflexivity.
  - cbn [shuffleFrom choices shuffleIdx].
    rewrite (bind_eq _ _ _ _ _ (randomInt_eq 0 (Z.of_nat (S i)) b)), IH.
    f_equal. unfold skip. cbn [page draws drawn calls]. f_equal. lia.
Qed.

Lemma choices_valid rs start i :
  (∀ k, (0 <= rs k)%Q ∧ (rs k < 1)%Q) -> choices rs start i ∈ allChoices i.
Proof.
  intros Hrs. revert start. induction i as [|i IH]; intros start.
  - left.
  - cbn [choices]. apply elem_of_allChoices_S.
    eexists _, _. split; [reflexivity|]. split; [|apply IH].
    destruct (Hrs start) as [H0 H1].
    pose proof (Qfloor_scale_range (rs start) (Z.of_nat (S i) - 0 + 1) H0 H1 ltac:(lia)).
    lia.
Qed.

Lemma navigateToRandomLink_target visited b links b1 t b' :
  collectInternalLinks b = (Ok links, b1) ->
  navigateToRandomLink visited b = (Ok (Some t), b') ->
  let unvisited := filter (fun u => u ∉ visited) links in
  head (shuffleIdx (length unvisited - 1)
          (choices (draws b1) (drawn b1) (length unvisited - 1)) unvisited)
  = Some t.
Proof.
  intros Ecollect Enav unvisited. unfold navigateToRandomLink in Enav.
  rewrite (bind_eq _ _ _ _ _ Ecollect) in Enav. fold unvisited in Enav.
  destruct (length unvisited =? 0)%nat; [discriminate|].
  unfold shuffle in Enav.
  rewrite (bind_eq _ _ _ _ _ (shuffleFrom_eq _ _ _)) in Enav.
  destruct (shuffleIdx _ _ unvisited) as [|target rest]; [discriminate|].
  apply bind_Ok in Enav as (? & b2 & _ & Enav).
  apply try_catch_Ok in Enav as [Enav|(e & b3 & _ & Enav)]; [|discriminate].
  apply bind_Ok in Enav as (? & b3 & _ & Enav).
  apply bind_Ok in Enav as (? & b4 & _ & Enav).
  injection Enav as -> _. reflexivity.
Qed.


End Links.


(** ** The recovery protocol *)

Section Recovery.
Import Proxy Explorer.
Variable Env : Type.
Variable Handle : Type.
Variable now : Env -> Z.
Variable launchBrowser : ExplorerConfig -> option ProxyEntry -> Env -> Res Handle * Env.
Variable goto : Handle -> string -> Env -> Res unit * Env.
Variable closeBody : Handle -> Env -> Res unit * Env.
Variable humanDelay : Q -> Q -> Env -> Env.
Variable setProxy : string -> Env -> Env.
Variable recordPageVisit : string -> Env -> Env.
Variable recordAction : string -> string -> string -> Env -> Env.
Variable generateReport : Env -> Env.
Variable explorationLoop :
  LoopContext Handle -> Env * gmap SetRef (gset string)
  -> Res unit * (Env * gmap SetRef (gset string)).
Local Open Scope js_scope.

Lemma keeps_ret {A} (a : A) : keeps (ret a : M (State Env Handle) A).
Proof. intros s r s' E. injection E as <- <-. repeat split. Qed.

Lemma keeps_bind {A B} (m : M (State Env Handle) A) (k : A -> M (State Env Handle) B) :
  keeps m -> (∀ a, keeps (k a)) -> keeps (bind m k).
Proof.
  intros Hm Hk s r s' E. unfold bind in E.
  destruct (m s) as [[a|e] s1] eqn:Em.
  - destruct (Hm _ _ _ Em) as (? & ? & ? & ?).
    destruct (Hk a _ _ _ E) as (? & ? & ? & ?).
    repeat split; congruence.
  - injection E as <- <-. apply (Hm _ _ _ Em).
Qed.

Lemma keeps_try_catch {A} (m : M (State Env Handle) A) (h : string -> M _ A) :
  keeps m -> (∀ e, keeps (h e)) -> keeps (try_catch m h).
Proof.
  intros Hm Hh s r s' E. unfold try_catch in E.
  destruct (m s) as [[a|e] s1] eqn:Em.
  - injection E as <- <-. apply (Hm _ _ _ Em).
  - destruct (Hm _ _ _ Em) as (? & ? & ? & ?).
    destruct (Hh e _ _ _ E) as (? & ? & ? & ?).
    repeat split; congruence.
Qed.

Lemma keeps_onEnv {A} (f : Env -> Res A * Env) : keeps (onEnv (Handle := Handle) f).
Proof.
  intros s r s' E. unfold onEnv in E. destruct (f (env s)).
  injection E as <- <-. repeat split.
Qed.

Lemma keeps_withEnv (f : Env -> Env) : keeps (withEnv (Handle := Handle) f).
Proof. intros s r s' E. injection E as <- <-. repeat split. Qed.

Lemma keeps_setSession (h : option Handle) : keeps (setSession (Env := Env) h).
Proof. intros s r s' E. injection E as <- <-. repeat split. Qed.

Lemma keeps_setAdd r u : keeps (setAdd (Env := Env) (Handle := Handle) r u).
Proof. intros s x s' E. injection E as <- <-. repeat split. Qed.

Lemma keeps_cleanup : keeps (cleanup closeBody).
Proof.
  unfold cleanup. apply keeps_bind.
  - intros s r s' E. injection E as <- <-. repeat split.
  - intros [h|]; [|apply keeps_ret].
    apply keeps_bind; [|intros; apply keeps_setSession].
    apply keeps_try_catch; [apply keeps_onEnv | intros; apply keeps_ret].
Qed.

Lemma runLoop_trace ctx (s : State Env Handle) r s' :
  runLoop explorationLoop ctx s = (r, s') ->
  trace s' = trace s ++ [EvLoop ctx]
  ∧ pool s' = pool s ∧ startTime s' = startTime s
  ∧ currentProxy s' = currentProxy s.
Proof.
  unfold runLoop, bind, emit, modify. cbn.
  destruct (explorationLoop ctx _) as [x [e h]].
  intros E. injection E as <- <-. repeat split.
Qed.

(** Case analysis on the outcomes of the operations of the outside world in
    the hypothesis [E], innermost first. *)
Ltac world_cases E :=
  repeat (first
    [ match type of E with
      | context [launchBrowser ?c ?p ?e] =>
          destruct (launchBrowser c p e) as [[?|?] ?]
      end
    | match type of E with
      | context [goto ?h ?u ?e] => destruct (goto h u e) as [[[]|?] ?]
      end
    | match type of E with
      | context [explorationLoop ?c ?w] =>
          destruct (explorationLoop c w) as [[[]|?] [? ?]]
      end
    | match type of E with
      | context [closeBody ?h ?e] => destruct (closeBody h e) as [[[]|?] ?]
      end
    | match type of E with
      | context [getNext ?pm] => destruct (getNext pm) as [[?|] ?] eqn:?
      end ];
    cbn in E).

(** The [try] block: the proxy is assigned from the pool, and the loop is
    entered at most once, with the explorer's fields. *)
Lemma attempt_trace this (s : State Env Handle) r s' :
  attempt launchBrowser goto humanDelay setProxy recordPageVisit recordAction
    explorationLoop this s = (r, s') ->
  currentProxy s' = fst (getNext (pool s))
  ∧ pool s' = snd (getNext (pool s))
  ∧ startTime s' = startTime s
  ∧ (trace s' = trace s
     ∨ ∃ h, trace s' = trace s ++ [EvLoop (loopContextOf this (startTime s) h)]).
Proof.
  unfold attempt, bind, poolGetNext, setCurrentProxy, modify, withEnv, onEnv,
    setSession, setAdd, runLoop, emit, ret, gets, loopContextOf.
  destruct s as [e0 h0 pm0 t0 ss0 cp0 tr0]. cbn.
  destruct (getNext pm0) as [[p|] pm1]; cbn; intros E; world_cases E;
    injection E as <- <-; cbn; repeat split; eauto.
Qed.

Lemma getNext_proxies pm : proxies (snd (getNext pm)) = proxies pm.
Proof.
  unfold getNext. destruct (length (proxies pm) =? 0)%nat; reflexivity.
Qed.

(** [recoverWithNewProxy] never throws, takes the next proxy of the pool and
    enters the loop at most once, with the fields of its context. *)
Lemma recoverWithNewProxy_trace this start (s : State Env Handle) r s' :
  recoverWithNewProxy launchBrowser goto humanDelay setProxy explorationLoop
    (recoveryContextOf this start) s = (r, s') ->
  (∃ o, r = Ok o)
  ∧ pool s' = snd (getNext (pool s))
  ∧ startTime s' = startTime s
  ∧ (trace s' = trace s
     ∨ ∃ np h, fst (getNext (pool s)) = Some np
               ∧ trace s' = trace s ++ [EvLoop (loopContextOf this start h)]).
Proof.
  unfold recoverWithNewProxy, bind, try_catch, poolGetNext, modify, withEnv, onEnv,
    runLoop, emit, ret, gets, loopContextOf, recoveryContextOf.
  destruct s as [e0 h0 pm0 t0 ss0 cp0 tr0]. cbn.
  destruct (getNext pm0) as [[p|] pm1]; cbn; intros E; world_cases E;
    injection E as <- <-; cbn; repeat split; eauto.
Qed.

(** The [catch] block: nothing happens unless a proxy was assigned and the
    pool holds more than one; otherwise the proxy is marked dead and one
    recovery is attempted. *)
Lemma recovery_trace this (s : State Env Handle) r s' :
  recovery launchBrowser goto closeBody humanDelay setProxy explorationLoop this s
  = (r, s') ->
  startTime s' = startTime s
  ∧ match currentProxy s with
    | Some p =>
        if (1 <? getCount (pool s))%nat then
          pool s' = snd (getNext (markDead p (pool s)))
          ∧ ∃ tl, trace s' = trace s
                             ++ [EvMarkDead p;
                                 EvRecover (recoveryContextOf this (startTime s))]
                             ++ tl
                  ∧ (tl = []
                     ∨ ∃ np h, fst (getNext (markDead p (pool s))) = Some np
                               ∧ tl = [EvLoop (loopContextOf this (startTime s) h)])
        else trace s' = trace s ∧ pool s' = pool s
    | None => trace s' = trace s ∧ pool s' = pool s
    end.
Proof.
  unfold recovery, poolMarkDead, cleanup, closeBrowser, recoverWithNewProxy, bind,
    try_catch, poolGetNext, setSession, modify, withEnv, onEnv, runLoop, emit,
    ret, gets, loopContextOf, recoveryContextOf, getCount.
  destruct s as [e0 h0 pm0 t0 ss0 cp0 tr0]. cbn.
  destruct cp0 as [p|]; [|intros E; injection E as <- <-; repeat split].
  destruct (length (proxies pm0)) as [|[|n]]; cbn;
    [intros E; injection E as <- <-; repeat split ..|].
  destruct ss0 as [h|]; cbn; intros E;
    world_cases E; injection E as <- <-; cbn;
    (split; [reflexivity|]); (split; [reflexivity|]);
    rewrite <- ?app_assoc; cbn [app];
    first [ exists []; split; [reflexivity | left; reflexivity]
          | eexists [_]; split; [reflexivity | right; eauto] ].
Qed.

Lemma keeps_report : keeps (cleanup closeBody ;; withEnv (Handle := Handle) generateReport).
Proof. apply keeps_bind; [apply keeps_cleanup | intros; apply keeps_withEnv]. Qed.


End Recovery.


(** ** The reading pause *)

Section Reading.
Import Driver Humanizer Actions.
Context `{Platform}.

(** X11: the clamp of [simulateReading] keeps every duration between 3000 and
    12000 ms as long as the Box-Muller factor is a number (finite or
    infinite); a NaN factor would pass through [Math.min] and [Math.max]. *)
Lemma readingDuration_within (b : Browser) :
  boxMuller (draws b (drawn b)) (draws b (S (drawn b))) ≠ Num.NaN ->
  ∃ d, fst (readingDuration b) = Ok d ∧ Num.within 3000 12000 d.
Proof.
  intros Hnan. unfold readingDuration, gaussianRandom, bind, Math_random, ret.
  cbn [fst snd draws drawn page calls].
  destruct (boxMuller (draws b (drawn b)) (draws b (S (drawn b)))) as [x| | |];
    [| | |congruence]; eexists; (split; [reflexivity|]).
  - cbn [Num.mul Num.add Num.round Num.min Num.max].
    set (z := inject_Z (Qfloor (x * 2000 + 6000 + (1 # 2)))).
    destruct (JS.Qltb z 12000) eqn:E1; cbn [Num.max].
    + destruct (JS.Qltb 3000 z) eqn:E2; cbn [Num.within].
      * apply Qltb_lt in E1, E2. split; apply Qlt_le_weak; assumption.
      * split; [apply Qle_refl | discriminate].
    + destruct (JS.Qltb 3000 12000) eqn:E2; [|discriminate].
      cbn [Num.within]. split; [discriminate | apply Qle_refl].
  - vm_compute. split; discriminate.
  - vm_compute. split; discriminate.
Qed.

Lemma readingDuration_NaN (b : Browser) :
  boxMuller (draws b (drawn b)) (draws b (S (drawn b))) = Num.NaN ->
  fst (readingDuration b) = Ok Num.NaN.
Proof.
  intros Hnan. unfold readingDuration, gaussianRandom, bind, Math_random, ret.
  cbn [fst snd draws drawn page calls]. rewrite Hnan. reflexivity.
Qed.

End Reading.


(** ** Loading, probing and retiring proxies *)

Section ProxyLoading.
Import Proxy.
Variable new_URL : string -> option JS.URL.
Variable decodeURIComponent : string -> option string.
Variable fs : string -> option string.

Lemma parseProxyLine_Some line e :
  parseProxyLine new_URL decodeURIComponent line = Some e ->
  ∃ u, new_URL line = Some u
       ∧ protocol e = JS.replaceFirst ":" EmptyString (JS.url_protocol u)
       ∧ host e = JS.url_hostname u
       ∧ JS.parseInt (JS.url_port u) = Some (port e)
       ∧ host e ≠ EmptyString
       ∧ port e ≠ 0%Z
       ∧ server e = (protocol e ++ "://" ++ host e ++ ":" ++ JS.ofZ (port e))%string
       ∧ username e = (if String.eqb (JS.url_username u) EmptyString then None
                       else decodeURIComponent (JS.url_username u))
       ∧ password e = (if String.eqb (JS.url_password u) EmptyString then None
                       else decodeURIComponent (JS.url_password u))
       ∧ (JS.url_username u ≠ EmptyString -> is_Some (username e))
       ∧ (JS.url_password u ≠ EmptyString -> is_Some (password e)).
Proof.
  unfold parseProxyLine. intros E.
  destruct (new_URL line) as [u|]; [|discriminate]. exists u.
  destruct (JS.parseInt (JS.url_port u)) as [p|]; [|discriminate].
  destruct (String.eqb (JS.url_hostname u) EmptyString) eqn:Eh; [discriminate|].
  destruct (p =? 0)%Z eqn:Ep; [discriminate|]. cbn in E.
  apply String.eqb_neq in Eh. apply Z.eqb_neq in Ep.
  destruct (String.eqb (JS.url_username u) EmptyString) eqn:Eu;
    [|destruct (decodeURIComponent (JS.url_username u)) as [un|]; [|discriminate]];
    (destruct (String.eqb (JS.url_password u) EmptyString) eqn:Ew;
     [|destruct (decodeURIComponent (JS.url_password u)) as [pw|]; [|discriminate]]);
    injection E as <-; cbn;
    try apply String.eqb_eq in Eu; try apply String.eqb_eq in Ew;
    repeat split; auto; try (intros; congruence); try (intros; eexists; reflexivity).
Qed.

Lemma parseLines_omap lines :
  parseLines new_URL decodeURIComponent lines
  = omap (parseProxyLine new_URL decodeURIComponent)
      (List.filter proxyLine (JS.trim <$> lines)).
Proof.
  induction lines as [|raw rest IH]; [reflexivity|].
  cbn. unfold proxyLine at 1.
  destruct (String.eqb (JS.trim raw) EmptyString || JS.startsWith "#" (JS.trim raw));
    cbn; [exact IH|].
  destruct (parseProxyLine new_URL decodeURIComponent (JS.trim raw)); cbn;
    rewrite IH; reflexivity.
Qed.

Lemma length_omap_le {A B} (f : A -> option B) l : length (omap f l) <= length l.
Proof. induction l as [|x l IH]; cbn; [lia|]. destruct (f x); cbn; lia. Qed.

Lemma length_List_filter_le {A} (f : A -> bool) l : length (List.filter f l) <= length l.
Proof. induction l as [|x l IH]; cbn; [lia|]. destruct (f x); cbn; lia. Qed.


(** X2: [parseProxyLine] throws on a line that is no URL, and on a URL with
    an empty host name, with no explicit port (the parser leaves the port
    empty, also for a scheme's default port), with a port that does not parse
    or parses to zero, or with credentials that cannot be decoded. *)
Theorem parseProxyLine_rejects (line : string) :
  (new_URL line = None -> parseProxyLine new_URL decodeURIComponent line = None)
  ∧ ∀ u, new_URL line = Some u ->
      (JS.url_hostname u = EmptyString
       ∨ JS.url_port u = EmptyString
       ∨ JS.parseInt (JS.url_port u) = None
       ∨ JS.parseInt (JS.url_port u) = Some 0%Z
       ∨ (JS.url_username u ≠ EmptyString
          ∧ decodeURIComponent (JS.url_username u) = None)
       ∨ (JS.url_password u ≠ EmptyString
          ∧ decodeURIComponent (JS.url_password u) = None)) ->
      parseProxyLine new_URL decodeURIComponent line = None.
Proof.
  split; [intros E; unfold parseProxyLine; rewrite E; reflexivity|].
  intros u Hu Hbad.
  destruct (parseProxyLine new_URL decodeURIComponent line) as [e|] eqn:E;
    [|reflexivity].
  exfalso.
  apply parseProxyLine_Some
    in E as (u' & Hu' & _ & Hh & Hport & Hne & Hp0 & _ & Hun & Hpw & Hsu & Hsp).
  rewrite Hu in Hu'. injection Hu' as <-.
  destruct Hbad as [H|[H|[H|[H|[[H1 H2]|[H1 H2]]]]]].
  - congruence.
  - rewrite H in Hport. discriminate.
  - congruence.
  - congruence.
  - destruct (Hsu H1) as [x Hx]. apply String.eqb_neq in H1.
    rewrite H1, H2 in Hun. congruence.
  - destruct (Hsp H1) as [x Hx]. apply String.eqb_neq in H1.
    rewrite H1, H2 in Hpw. congruence.
Qed.

End ProxyLoading.

Section ProxyChecking.
Import Proxy.
Variable new_URL : string -> option JS.URL.
Variable decodeURIComponent : string -> option string.
Variable fs : string -> option string.
Variable Net : Type.
Variable checkProxy : ProxyEntry -> Net -> bool * Net.

Lemma checkChunk_fst l n : (fst <$> fst (checkChunk Net checkProxy l n)) = l.
Proof.
  revert n. induction l as [|p l IH]; intros n; [reflexivity|].
  cbn. destruct (checkProxy p n) as [ok n1].
  specialize (IH n1). destruct (checkChunk Net checkProxy l n1) as [rs n2].
  cbn in *. now rewrite IH.
Qed.

Lemma passing_sublist l n : passing Net checkProxy l n `sublist_of` l.
Proof.
  unfold passing. rewrite <- (checkChunk_fst l n) at 2.
  apply fmap_sublist, sublist_filter.
Qed.

Lemma filterWorkingProxies_eq (l : list ProxyEntry) (c : nat) (n : Net) :
  0 < c ->
  filterWorkingProxies Net checkProxy l c n
  = (passing Net checkProxy l n, snd (checkChunk Net checkProxy l n)).
Proof.
  intros Hc. unfold filterWorkingProxies, passing.
  rewrite (checkChunks_chunksOf Net checkProxy) by lia.
  destruct (checkChunk Net checkProxy l n); reflexivity.
Qed.



End ProxyChecking.

Section ProxyPoolLaws.
Import Proxy.

Lemma filter_server_comm (p q : ProxyEntry) (l : list ProxyEntry) :
  filter (fun x => server x ≠ server p) (filter (fun x => server x ≠ server q) l)
  = filter (fun x => server x ≠ server q) (filter (fun x => server x ≠ server p) l).
Proof.
  rewrite !list_filter_filter. apply list_filter_iff. tauto.
Qed.

(** X4: [markDead] is idempotent and the order of two removals does not
    matter (entries and cursor); it never grows the pool, and removing an
    address that is not in the pool changes nothing when the cursor is in
    range. *)
Theorem markDead_idempotent_commutative (p q : ProxyEntry) (pm : ProxyManager) :
  markDead p (markDead p pm) = markDead p pm
  ∧ markDead p (markDead q pm) = markDead q (markDead p pm)
  ∧ getCount (markDead p pm) <= getCount pm
  ∧ ((∀ x, x ∈ proxies pm -> server x ≠ server p) ->
     currentIndex pm < length (proxies pm) ->
     markDead p pm = pm).
Proof.
  assert (Hpp : ∀ l : list ProxyEntry,
            filter (fun x => server x ≠ server p) (filter (fun x => server x ≠ server p) l)
            = filter (fun x => server x ≠ server p) l).
  { intros l. apply list_filter_filter_l. auto. }
  split; [|split; [|split]].
  - unfold markDead; cbn. rewrite Hpp. f_equal.
    destruct (Nat.leb_spec (length (filter (fun x => server x ≠ server p) (proxies pm)))
                (currentIndex pm)) as [Hle|Hlt].
    + destruct (length (filter (fun x => server x ≠ server p) (proxies pm)));
        reflexivity.
    + apply Nat.leb_gt in Hlt. now rewrite Hlt.
  - unfold markDead; cbn. rewrite (filter_server_comm p q). f_equal.
    pose proof (length_filter (fun x => server x ≠ server p)
                  (filter (fun x => server x ≠ server q) (proxies pm))) as H1.
    pose proof (length_filter (fun x => server x ≠ server q)
                  (filter (fun x => server x ≠ server p) (proxies pm))) as H2.
    rewrite (filter_server_comm p q) in H1.
    set (lp := length (filter (fun x => server x ≠ server p) (proxies pm))) in *.
    set (lq := length (filter (fun x => server x ≠ server q) (proxies pm))) in *.
    set (lpq := length (filter (fun x => server x ≠ server q)
                          (filter (fun x => server x ≠ server p) (proxies pm)))) in *.
    destruct (Nat.leb_spec lq (currentIndex pm));
      destruct (Nat.leb_spec lp (currentIndex pm));
      repeat match goal with |- context [(?a <=? ?b)%nat] =>
        destruct (Nat.leb_spec a b) end; lia.
  - unfold getCount, markDead; cbn. apply length_filter.
  - intros Hall Hc. destruct pm as [l c]. unfold markDead; cbn in *.
    assert (E : filter (fun x => server x ≠ server p) l = l).
    { clear Hc. induction l as [|x l IH]; [reflexivity|].
      rewrite filter_cons_True by (apply Hall; left).
      f_equal. apply IH. intros y Hy. apply Hall. now right. }
    rewrite E. f_equal.
    destruct (Nat.leb_spec (length l) c); lia.
Qed.

End ProxyPoolLaws.

Section ProxyDead.
Import Proxy.

Lemma served_avoids dead ops pm :
  (∀ x, x ∈ proxies pm -> server x ≠ server dead) ->
  Forall (fun r => ∀ x, r = Some x -> server x ≠ server dead) (served ops pm).
Proof.
  revert pm. induction ops as [|[|p] ops IH]; intros pm Hpm; cbn.
  - constructor.
  - constructor.
    + intros x Hx. apply Hpm. unfold getNext in Hx.
      destruct (length (proxies pm) =? 0)%nat; [discriminate|]. cbn in Hx.
      eapply list_elem_of_lookup_2, Hx.
    + apply IH. rewrite getNext_proxies. exact Hpm.
  - apply IH. intros x Hx. unfold markDead in Hx; cbn in Hx.
    apply list_elem_of_filter in Hx as [_ Hx]. apply Hpm, Hx.
Qed.

Lemma runOps_sublist ops pm : proxies (runOps ops pm) `sublist_of` proxies pm.
Proof.
  revert pm. induction ops as [|[|p] ops IH]; intros pm; cbn.
  - reflexivity.
  - etransitivity; [apply IH|]. now rewrite getNext_proxies.
  - etransitivity; [apply IH|]. apply sublist_filter.
Qed.

(** X5: once an address is marked dead, no later [getNext] of any sequence of
    [getNext] and [markDead] calls returns an entry with that address; the
    pool only holds entries it held before, and never grows. *)
Theorem dead_proxy_never_served (dead : ProxyEntry) (ops : list Op) (pm : ProxyManager) :
  Forall (fun r => ∀ x, r = Some x -> server x ≠ server dead)
    (served ops (markDead dead pm))
  ∧ (∀ x, x ∈ proxies (runOps ops (markDead dead pm)) ->
          x ∈ proxies pm ∧ server x ≠ server dead)
  ∧ getCount (runOps ops (markDead dead pm)) <= getCount pm.
Proof.
  assert (Hd : ∀ x, x ∈ proxies (markDead dead pm) ->
                    x ∈ proxies pm ∧ server x ≠ server dead).
  { intros x Hx. now apply list_elem_of_filter in Hx as [? ?]. }
  split; [|split].
  - apply served_avoids. intros x Hx. now apply Hd.
  - intros x Hx. apply Hd. eapply elem_of_sublist; [exact Hx|]. apply runOps_sublist.
  - unfold getCount. etransitivity; [apply sublist_length, runOps_sublist|].
    apply length_filter.
Qed.
End ProxyDead.



(** ** Ranges of the randomisation utilities *)

Section Ranges.
Import Driver Humanizer.
Context `{Platform}.

Lemma randomInt_value (min max : Z) (r : Q) :
  (min <= max)%Z -> (0 <= r)%Q -> (r < 1)%Q ->
  (min <= Qfloor (r * inject_Z (max - min + 1)) + min <= max)%Z.
Proof.
  intros Hm H0 H1.
  pose proof (Qfloor_scale_range r (max - min + 1) H0 H1 ltac:(lia)). lia.
Qed.

(** X7: for [min <= max] and a draw in [0, 1), [randomInt(min, max)] reads
    one draw and returns an integer between [min] and [max] inclusive; every
    integer of that range is returned for some draw in [0, 1). *)
Theorem randomInt_range (min max : Z) (b : Browser) :
  (min <= max)%Z ->
  (0 <= draws b (drawn b))%Q -> (draws b (drawn b) < 1)%Q ->
  (∃ k, randomInt min max b = (Ok k, skip 1 b) ∧ (min <= k <= max)%Z)
  ∧ ∀ k, (min <= k <= max)%Z ->
      ∃ r, (0 <= r)%Q ∧ (r < 1)%Q
           ∧ (Qfloor (r * inject_Z (max - min + 1)) + min)%Z = k.
Proof.
  intros Hm H0 H1. split.
  - eexists. split; [apply randomInt_eq|]. now apply randomInt_value.
  - intros k Hk.
    exists (inject_Z (k - min) / inject_Z (max - min + 1))%Q.
    assert (Hn : (0 < inject_Z (max - min + 1))%Q).
    { change 0%Q with (inject_Z 0). rewrite <- Zlt_Qlt. lia. }
    assert (Hk0 : (0 <= inject_Z (k - min))%Q).
    { change 0%Q with (inject_Z 0). rewrite <- Zle_Qle. lia. }
    assert (Hk1 : (inject_Z (k - min) < inject_Z (max - min + 1))%Q).
    { rewrite <- Zlt_Qlt. lia. }
    split; [|split].
    + apply Qle_shift_div_l; [exact Hn|]. lra.
    + apply Qlt_shift_div_r; [exact Hn|]. lra.
    + assert (E : (inject_Z (k - min) / inject_Z (max - min + 1)
                   * inject_Z (max - min + 1) == inject_Z (k - min))%Q).
      { field. lra. }
      rewrite E, Qfloor_Z. lia.
Qed.

(** X8: [pickRandom] returns [undefined] on the empty array without reading
    a draw; on a non-empty array, for a draw in [0, 1), it reads one draw and
    returns an element of the array, never [undefined]. *)
Theorem pickRandom_member {A} (arr : list A) (b : Browser) :
  arr ≠ [] ->
  (0 <= draws b (drawn b))%Q -> (draws b (drawn b) < 1)%Q ->
  (∃ x, pickRandom arr b = (Ok (Some x), skip 1 b) ∧ x ∈ arr)
  ∧ pickRandom (@nil A) b = (Ok None, b).
Proof.
  intros Hne H0 H1. split; [|reflexivity].
  unfold pickRandom. destruct arr as [|a arr]; [congruence|].
  change (length (a :: arr) =? 0)%nat with false. cbv iota.
  unfold bind. rewrite randomInt_eq. unfold ret.
  set (n := length (a :: arr)).
  pose proof (randomInt_value 0 (Z.of_nat n - 1) _ ltac:(subst n; cbn; lia) H0 H1) as Hi.
  set (i := (Qfloor (draws b (drawn b) * inject_Z (Z.of_nat n - 1 - 0 + 1)) + 0)%Z) in *.
  unfold index. destruct (Z.ltb_spec i 0); [lia|].
  destruct (lookup_lt_is_Some_2 (a :: arr) (Z.to_nat i)) as [x Hx]; [fold n; lia|].
  exists x. rewrite Hx. split; [reflexivity|]. eapply list_elem_of_lookup_2, Hx.
Qed.

Lemma swap_Permutation {A} (l : list A) i j : Permutation (swap l i j) l.
Proof.
  unfold swap. destruct (l !! j) as [rj|] eqn:Ej; [|reflexivity].
  destruct (l !! i) as [ri|] eqn:Ei; [|reflexivity].
  apply Permutation_insert_swap; assumption.
Qed.

Lemma shuffleIdx_Permutation {A} i js (l : list A) : Permutation (shuffleIdx i js l) l.
Proof.
  revert js l. induction i as [|i IH]; intros js l; [destruct js; reflexivity|].
  destruct js as [|j js]; [reflexivity|]. cbn.
  etransitivity; [apply IH|]. apply swap_Permutation.
Qed.

(** X9: for draws in [0, 1), [shuffle] reads one draw per position but the
    first, every index it computes is on the array, and the result is a
    permutation of the input, of the same length. *)
Theorem shuffle_Permutation {A} (arr : list A) (b : Browser) :
  (∀ k, (0 <= draws b k)%Q ∧ (draws b k < 1)%Q) ->
  ∃ result,
    shuffle arr b = (Ok result, skip (length arr - 1) b)
    ∧ Permutation result arr
    ∧ length result = length arr
    ∧ Forall (fun j => j < length arr) (choices (draws b) (drawn b) (length arr - 1)).
Proof.
  intros Hd. unfold shuffle. rewrite shuffleFrom_eq. eexists.
  split; [reflexivity|]. split; [apply shuffleIdx_Permutation|].
  split; [apply shuffleIdx_length|].
  assert (G : ∀ i start, Forall (fun j => j <= i) (choices (draws b) start i)).
  { induction i as [|i IH]; intros start; cbn [choices]; constructor.
    - destruct (Hd start) as [H0 H1].
      pose proof (randomInt_value 0 (Z.of_nat (S i)) _ ltac:(lia) H0 H1). lia.
    - eapply Forall_impl; [apply IH|]. cbn. intros; lia. }
  destruct arr as [|a arr]; [constructor|].
  eapply Forall_impl; [apply G|]. cbn. intros; lia.
Qed.

Lemma clamp_within (lo hi : Q) (g : Num.t) :
  (lo <= hi)%Q -> g ≠ Num.NaN ->
  Num.within lo hi (Num.max (Num.Fin lo) (Num.min (Num.Fin hi) g)).
Proof.
  intros Hle Hg. destruct g as [x| | |]; [| | |congruence]; cbn.
  - destruct (JS.Qltb x hi) eqn:E1; cbn.
    + destruct (JS.Qltb lo x) eqn:E2; cbn.
      * apply Qltb_lt in E1, E2. split; lra.
      * split; lra.
    + destruct (JS.Qltb lo hi) eqn:E2; cbn; split; lra.
  - destruct (JS.Qltb lo hi) eqn:E2; cbn; split; lra.
  - split; lra.
Qed.

(** X10: [humanTypingDelay] reads two draws and returns a delay between 50
    and 200 ms, whenever the Box-Muller factor is a number (finite or
    infinite). *)
Theorem humanTypingDelay_within (b : Browser) :
  boxMuller (draws b (drawn b)) (draws b (S (drawn b))) ≠ Num.NaN ->
  ∃ d, humanTypingDelay b = (Ok d, skip 2 b) ∧ Num.within 50 200 d.
Proof.
  intros Hg. unfold humanTypingDelay, gaussianRandom, bind, Math_random, ret.
  cbn [fst snd draws drawn page calls]. eexists. split; [reflexivity|].
  apply clamp_within; [lra|].
  destruct (boxMuller (draws b (drawn b)) (draws b (S (drawn b)))) as [x| | |];
    try congruence; cbn; try discriminate.
Qed.

End Ranges.

Lemma randomInt_range_witness :
  ∃ k, Humanizer.randomInt 3 8 (Sample.browserOn Sample.home Sample.typeDraws)
       = (Ok k, Driver.skip 1 (Sample.browserOn Sample.home Sample.typeDraws))
       ∧ (3 <= k <= 8)%Z.
Proof.
  apply (randomInt_range 3 8 (Sample.browserOn Sample.home Sample.typeDraws));
    [lia | vm_compute; discriminate | vm_compute; reflexivity].
Defined.

Lemma pickRandom_member_witness :
  ∃ x, Humanizer.pickRandom Actions.SEARCH_TERMS
         (Sample.browserOn Sample.home Sample.typeDraws)
       = (Ok (Some x), Driver.skip 1 (Sample.browserOn Sample.home Sample.typeDraws))
       ∧ x ∈ Actions.SEARCH_TERMS.
Proof.
  apply (pickRandom_member Actions.SEARCH_TERMS
           (Sample.browserOn Sample.home Sample.typeDraws));
    [discriminate | vm_compute; discriminate | vm_compute; reflexivity].
Defined.

Lemma shuffle_Permutation_witness :
  ∃ result,
    Humanizer.shuffle ["/a"; "/b"; "/c"] (Sample.browserOn Sample.home Sample.typeDraws)
    = (Ok result, Driver.skip 2 (Sample.browserOn Sample.home Sample.typeDraws))
    ∧ Permutation result ["/a"; "/b"; "/c"].
Proof.
  destruct (shuffle_Permutation ["/a"; "/b"; "/c"]
              (Sample.browserOn Sample.home Sample.typeDraws))
    as (result & E & P & _).
  - intros k. split; [vm_compute; discriminate | vm_compute; reflexivity].
  - exists result. split; [exact E | exact P].
Defined.

Lemma humanTypingDelay_within_witness :
  ∃ d, Humanizer.humanTypingDelay (Sample.browserOn Sample.home Sample.typeDraws)
       = (Ok d, Driver.skip 2 (Sample.browserOn Sample.home Sample.typeDraws))
       ∧ Num.within 50 200 d.
Proof.
  apply (humanTypingDelay_within (Sample.browserOn Sample.home Sample.typeDraws)).
  cbn. discriminate.
Defined.

Lemma readingDuration_within_witness :
  ∃ d, fst (Actions.readingDuration (Sample.browserOn Sample.home Sample.typeDraws))
       = Ok d
       ∧ Num.within 3000 12000 d.
Proof.
  apply (readingDuration_within (Sample.browserOn Sample.home Sample.typeDraws)).
  cbn. discriminate.
Defined.

(** ** The driver calls a handler can issue *)

Section Footprint.
Import Driver Humanizer Actions.
Context `{Platform}.
Local Open Scope js_scope.

Lemma only_ret {A} ms (a : A) : only ms (ret a).
Proof. intros b. exists []. cbn. now rewrite app_nil_r. Qed.

Lemma only_throw {A} ms e : only ms (throw e : M Browser A).
Proof. intros b. exists []. cbn. now rewrite app_nil_r. Qed.

Lemma only_gets {A} ms (f : Browser -> A) : only ms (gets f).
Proof. intros b. exists []. cbn. now rewrite app_nil_r. Qed.

Lemma only_Math_random ms : only ms Math_random.
Proof. intros b. exists []. cbn. now rewrite app_nil_r. Qed.

Lemma only_call {A} ms (c : Call A) : method c ∈ ms -> only ms (call c).
Proof.
  intros Hc b. exists [anyCall c]. unfold call.
  destruct (perform A c (page b)) as [r p]. cbn. split; [reflexivity|].
  constructor; [exact Hc|constructor].
Qed.

Lemma only_bind {A B} ms (m : M Browser A) (k : A -> M Browser B) :
  only ms m -> (∀ a, only ms (k a)) -> only ms (bind m k).
Proof.
  intros Hm Hk b. destruct (Hm b) as (l1 & E1 & F1). unfold bind.
  destruct (m b) as [[a|e] b1]; cbn in *.
  - destruct (Hk a b1) as (l2 & E2 & F2). exists (l1 ++ l2).
    rewrite E2, E1, app_assoc. split; [reflexivity|]. now apply Forall_app.
  - now exists l1.
Qed.

Lemma only_try_catch {A} ms (m : M Browser A) (h : string -> M Browser A) :
  only ms m -> (∀ e, only ms (h e)) -> only ms (try_catch m h).
Proof.
  intros Hm Hh b. destruct (Hm b) as (l1 & E1 & F1). unfold try_catch.
  destruct (m b) as [[a|e] b1]; cbn in *.
  - now exists l1.
  - destruct (Hh e b1) as (l2 & E2 & F2). exists (l1 ++ l2).
    rewrite E2, E1, app_assoc. split; [reflexivity|]. now apply Forall_app.
Qed.

Lemma only_if {A} ms (c : bool) (m1 m2 : M Browser A) :
  only ms m1 -> only ms m2 -> only ms (if c then m1 else m2).
Proof. now destruct c. Qed.

Lemma only_mono {A} ms ms' (m : M Browser A) :
  ms ⊆ ms' -> only ms m -> only ms' m.
Proof.
  intros Hs Hm b. destruct (Hm b) as (l & E & F). exists l. split; [exact E|].
  eapply Forall_impl; [exact F|]. intros c Hc. now apply Hs.
Qed.

Ltac in_list :=
  cbn; repeat first [apply list_elem_of_here | apply list_elem_of_further].

Ltac sub_list :=
  let x := fresh "x" in
  let Hx := fresh "Hx" in
  intros x Hx; unfold probes in *;
  repeat (apply elem_of_cons in Hx as [->|Hx]; [in_list|]);
  inversion Hx.

Ltac only_prim :=
  match goal with
  | |- only _ (ret _) => apply only_ret
  | |- only _ (throw _) => apply only_throw
  | |- only _ (gets _) => apply only_gets
  | |- only _ url => apply only_gets
  | |- only _ (sleep _) => apply only_ret
  | |- only _ Math_random => apply only_Math_random
  | |- only _ (call _) => apply only_call; unfold probes; in_list
  | |- only _ (bind _ _) => apply only_bind; [|intros ?]
  | |- only _ (try_catch _ _) => apply only_try_catch; [|intros ?]
  | |- only _ (if _ then _ else _) => apply only_if
  end.

Lemma only_randomInt ms min max : only ms (randomInt min max).
Proof. unfold randomInt. repeat only_prim. Qed.

Lemma only_humanDelay ms a c : only ms (humanDelay a c).
Proof. unfold humanDelay, gaussianRandom. repeat only_prim. Qed.

Lemma only_humanTypingDelay ms : only ms humanTypingDelay.
Proof. unfold humanTypingDelay, gaussianRandom. repeat only_prim. Qed.

Lemma only_microPause ms : only ms microPause.
Proof. unfold microPause, sleep. apply only_bind; [apply only_randomInt|intros; apply only_ret]. Qed.

Lemma only_pickRandom {A} ms (arr : list A) : only ms (pickRandom arr).
Proof.
  unfold pickRandom. apply only_if; [apply only_ret|].
  apply only_bind; [apply only_randomInt|intros; apply only_ret].
Qed.

Lemma only_newURL ms s : only ms (newURL s).
Proof. unfold newURL. destruct (new_URL s); only_prim. Qed.

Lemma only_shuffleFrom {A} ms i (l : list A) : only ms (shuffleFrom i l).
Proof.
  revert l. induction i as [|i IH]; intros l; cbn; [apply only_ret|].
  apply only_bind; [apply only_randomInt|intros; apply IH].
Qed.

Ltac only_auto :=
  repeat match goal with
         | |- only _ (randomInt _ _) => apply only_randomInt
         | |- only _ (humanDelay _ _) => apply only_humanDelay
         | |- only _ humanTypingDelay => apply only_humanTypingDelay
         | |- only _ microPause => apply only_microPause
         | |- only _ (pickRandom _) => apply only_pickRandom
         | |- only _ (newURL _) => apply only_newURL
         | |- only _ (shuffleFrom _ _) => apply only_shuffleFrom
         | |- only _ (match ?x with _ => _ end) => destruct x
         | |- _ => only_prim
         end.

Lemma only_scrollSteps n total : only ["mouse.wheel"] (scrollSteps n total).
Proof.
  revert total. induction n as [|n IH]; intros total; cbn [scrollSteps];
    [apply only_ret|].
  unfold url. only_auto. apply IH.
Qed.

Lemma only_findInput sels : only ["locator.isVisible"] (findInput sels).
Proof.
  induction sels as [|sel sels IH]; cbn [findInput]; [apply only_ret|].
  only_auto. exact IH.
Qed.

Lemma only_typeChars i chars :
  only ["keyboard.type"; "keyboard.press"] (typeChars i chars).
Proof.
  revert i. induction chars as [|c chars IH]; intros i; cbn [typeChars];
    [apply only_ret|].
  unfold typeChar. only_auto. apply IH.
Qed.

Lemma only_hoverRounds n acc :
  only ("locator.hover" :: probes) (hoverRounds n acc).
Proof.
  revert acc. induction n as [|n IH]; intros acc; cbn [hoverRounds];
    [apply only_ret|].
  unfold hoverAttempt. only_auto; apply IH.
Qed.

Lemma only_examineAll sel idx : only probes (examineAll sel idx).
Proof.
  induction idx as [|i idx IH]; cbn [examineAll]; [apply only_ret|].
  unfold examine. only_auto. exact IH.
Qed.

Lemma only_gather sels : only probes (gather sels).
Proof.
  induction sels as [|sel sels IH]; cbn [gather]; [apply only_ret|].
  apply only_bind; [only_auto|intros count].
  apply only_bind; [apply only_examineAll|intros here].
  apply only_bind; [exact IH|intros; apply only_ret].
Qed.

(** X12: the driver methods each handler can call, on any page and for any
    draws, whether it returns or throws: scrolling only turns the mouse
    wheel; hovering only probes locators and hovers; typing only probes
    visibility, clicks and uses the keyboard; clicking only probes, scrolls
    into view and clicks; going back only reads the history length and moves
    in the history; link collection only evaluates the anchors, and the
    fallback navigation adds [page.goto], which no action handler calls. *)
Theorem handler_footprints :
  only ["mouse.wheel"] humanScroll
  ∧ only ("locator.hover" :: probes) humanHover
  ∧ only ["locator.isVisible"; "locator.click"; "keyboard.type"; "keyboard.press"]
      humanType
  ∧ only ("locator.scrollIntoViewIfNeeded" :: "locator.click" :: probes) humanClick
  ∧ only ["evaluate(history.length)"; "page.goBack"; "page.goForward"] humanBack
  ∧ only ["evaluate(anchors)"] collectInternalLinks
  ∧ ∀ visited, only ["evaluate(anchors)"; "page.goto"] (navigateToRandomLink visited).
Proof.
  repeat split.
  - unfold humanScroll. apply only_bind; [apply only_randomInt|intros].
    apply only_scrollSteps.
  - unfold humanHover. apply only_bind; [apply only_randomInt|intros].
    apply only_hoverRounds.
  - unfold humanType.
    apply only_bind;
      [eapply only_mono; [|apply only_findInput]; sub_list|intros [input|]];
      [|apply only_ret].
    apply only_bind; [apply only_pickRandom|intros picked].
    apply only_bind; [only_auto|intros _].
    apply only_bind; [only_auto|intros _].
    apply only_bind;
      [eapply only_mono; [|apply only_typeChars]; sub_list|intros _].
    only_auto.
  - unfold humanClick. apply only_try_catch; [|intros; apply only_ret].
    apply only_bind;
      [eapply only_mono; [|apply only_gather]; sub_list|intros cands].
    only_auto.
  - unfold humanBack, url. only_auto.
  - unfold collectInternalLinks, url. only_auto.
  - intros visited. unfold navigateToRandomLink.
    apply only_bind; [|intros links].
    { eapply (only_mono ["evaluate(anchors)"]); [sub_list|].
      unfold collectInternalLinks, url. only_auto. }
    unfold shuffle. only_auto.
Qed.

End Footprint.

(** ** The text typed by the type action *)

Section TypedText.
Import Driver Humanizer Actions.
Context `{Platform}.
Local Open Scope js_scope.

Lemma typedText_snoc cs c : typedText (cs ++ [c]) = keystroke (typedText cs) c.
Proof. unfold typedText. now rewrite fold_left_app. Qed.

Lemma edits_ret {A} (a : A) : edits id (ret a).
Proof. intros b a' b' E. injection E as _ <-. reflexivity. Qed.

Lemma edits_bind {A B} f g (m : M Browser A) (k : A -> M Browser B) :
  edits f m -> (∀ a, edits g (k a)) -> edits (fun t => g (f t)) (bind m k).
Proof.
  intros Hm Hk b c b' E. apply bind_Ok in E as (a & b1 & E1 & E2).
  rewrite (Hk a _ _ _ E2), (Hm _ _ _ E1). reflexivity.
Qed.

Lemma edits_ext {A} f g (m : M Browser A) :
  (∀ t, f t = g t) -> edits f m -> edits g m.
Proof. intros Hfg Hm b a b' E. rewrite <- Hfg. eapply Hm, E. Qed.

Lemma edits_call {A} (c : Call A) : edits (fun t => keystroke t (anyCall c)) (call c).
Proof.
  intros b a b' E. rewrite call_eq in E. injection E as _ <-. cbn [calls].
  apply typedText_snoc.
Qed.

Lemma edits_quiet {A} (m : M Browser A) :
  (∀ b r b', m b = (r, b') -> calls b' = calls b) -> edits id m.
Proof. intros Hq b a b' E. now rewrite (Hq _ _ _ E). Qed.

Lemma edits_Math_random : edits id Math_random.
Proof. apply edits_quiet. intros b r b' E. injection E as _ <-. reflexivity. Qed.

Lemma edits_randomInt min max : edits id (randomInt min max).
Proof.
  apply edits_quiet. intros b r b' E. rewrite randomInt_eq in E.
  injection E as _ <-. reflexivity.
Qed.

Lemma edits_humanDelay a c : edits id (humanDelay a c).
Proof.
  apply edits_quiet. intros b r b' E. rewrite humanDelay_eq in E.
  injection E as _ <-. reflexivity.
Qed.

Lemma edits_humanTypingDelay : edits id humanTypingDelay.
Proof.
  apply edits_quiet. intros b r b' E.
  unfold humanTypingDelay, gaussianRandom, bind, Math_random, ret in E.
  injection E as _ <-. reflexivity.
Qed.

Lemma edits_pickRandom {A} (arr : list A) : edits id (pickRandom arr).
Proof.
  unfold pickRandom. destruct (length arr =? 0)%nat; [apply edits_ret|].
  eapply edits_ext; [|apply edits_bind; [apply edits_randomInt|intros; apply edits_ret]].
  reflexivity.
Qed.

Lemma edits_typo (typoChar : Z) :
  edits id (let* _ := humanTypingDelay in
            call (KeyboardType typoChar) ;;
            humanDelay 200 500 ;;
            call (KeyboardPress "Backspace") ;;
            humanDelay 100 300).
Proof.
  eapply edits_ext; cycle 1.
  - apply edits_bind; [apply edits_humanTypingDelay|intros _].
    apply edits_bind; [apply edits_call|intros _].
    apply edits_bind; [apply edits_humanDelay|intros _].
    apply edits_bind; [apply edits_call|intros _].
    apply edits_humanDelay.
  - intros t. cbn. unfold id. apply removelast_last.
Qed.

Lemma edits_typeChar i char :
  edits (fun t => t ++ [charCodeAt0 char]) (typeChar i char).
Proof.
  unfold typeChar.
  eapply edits_ext; cycle 1.
  - apply edits_bind; [apply edits_Math_random|intros r].
    apply (edits_bind id).
    + destruct (JS.Qltb r 0.1 && (0 <? i)%nat); [|apply edits_ret].
      eapply edits_ext; cycle 1.
      * apply edits_bind; [apply edits_randomInt|intros shift].
        apply edits_typo.
      * reflexivity.
    + intros _. apply edits_bind; [apply edits_humanTypingDelay|intros _].
      apply edits_call.
  - intros t. reflexivity.
Qed.

Lemma edits_typeChars i chars :
  edits (fun t => t ++ (charCodeAt0 <$> chars)) (typeChars i chars).
Proof.
  revert i. induction chars as [|c chars IH]; intros i; cbn [typeChars].
  - eapply edits_ext; [|apply edits_ret]. intros t. cbn. now rewrite app_nil_r.
  - eapply edits_ext; [|apply edits_bind; [apply edits_typeChar|intros _; apply IH]].
    intros t. cbn. now rewrite <- app_assoc.
Qed.

Lemma edits_findInput sels : edits id (findInput sels).
Proof.
  induction sels as [|sel sels IH]; cbn [findInput]; [apply edits_ret|].
  eapply edits_ext; cycle 1.
  - apply edits_bind; [|intros visible].
    + instantiate (1 := id). intros b a b' E.
      apply try_catch_Ok in E as [E|(e & b1 & E1 & E2)].
      * now apply edits_call in E.
      * injection E2 as _ <-. rewrite call_eq in E1. injection E1 as _ <-.
        cbn [calls]. apply typedText_snoc.
    + instantiate (1 := id). destruct visible; [apply edits_ret|exact IH].
  - reflexivity.
Qed.

(** X13: when the type action returns [true], the text its keystrokes leave
    in the field (typed characters appended, Backspace removing the last
    one) is the text that was there followed by exactly one of the search
    terms: every typo is removed before the correct character is typed. *)
Theorem humanType_types_term (b b' : Browser) :
  humanType b = (Ok true, b') ->
  ∃ term, term ∈ SEARCH_TERMS
          ∧ typedText (calls b')
            = typedText (calls b) ++ (charCodeAt0 <$> list_ascii_of_string term).
Proof.
  intros E. unfold humanType in E.
  apply bind_Ok in E as (input & b1 & E1 & E).
  destruct input as [input|]; [|discriminate].
  apply bind_Ok in E as (picked & b2 & E2 & E).
  set (term := if JS.truthy picked then default "about" picked else "about") in *.
  exists term. split.
  - subst term. destruct picked as [x|]; cbn [JS.truthy default].
    + destruct (negb (x =? EmptyString)%string).
      * eapply pickRandom_elem, E2.
      * apply list_elem_of_here.
    + apply list_elem_of_here.
  - apply edits_findInput in E1. apply edits_pickRandom in E2.
    unfold id in E1, E2. rewrite <- E1, <- E2. clear E1 E2.
    revert E. generalize b2. clear. intros b E.
    match type of E with
    | ?m b = _ =>
        assert (Hed : edits (fun t => t ++ (charCodeAt0 <$> list_ascii_of_string term)) m)
    end; [|exact (Hed _ _ _ E)].
    eapply edits_ext; cycle 1.
    + apply edits_bind; [apply edits_call|intros _].
      apply edits_bind; [apply edits_humanDelay|intros _].
      apply edits_bind; [apply edits_typeChars|intros _].
      apply edits_bind; [apply edits_humanDelay|intros _].
      apply edits_bind; [apply edits_Math_random|intros r].
      apply (edits_bind id id); [|intros _; apply edits_ret].
      destruct (JS.Qltb 0.5 r); [|apply edits_ret].
      eapply edits_ext; cycle 1.
      * apply edits_bind; [apply edits_call|intros _]. apply edits_humanDelay.
      * reflexivity.
    + reflexivity.
Qed.

End TypedText.

Lemma humanType_types_term_witness :
  ∃ term, term ∈ Actions.SEARCH_TERMS
          ∧ Actions.typedText
              (Driver.calls (snd (Actions.humanType
                                    (Sample.browserOn Sample.home Sample.typeDraws))))
            = Actions.typedText
                (Driver.calls (Sample.browserOn Sample.home Sample.typeDraws))
              ++ (Actions.charCodeAt0 <$> list_ascii_of_string term).
Proof.
  apply (humanType_types_term (Sample.browserOn Sample.home Sample.typeDraws)).
  vm_compute. reflexivity.
Defined.

(** ** What a run of a handler does *)

Section HandlerRuns.
Import Driver Humanizer Actions.
Context `{Platform}.
Local Open Scope js_scope.

Lemma bind_gets {A B} (f : Browser -> A) (k : A -> M Browser B) b :
  bind (gets f) k b = k (f b) b.
Proof. reflexivity. Qed.

Lemma bind_Math_random {B} (k : Q -> M Browser B) b :
  bind Math_random k b = k (draws b (drawn b)) (skip 1 b).
Proof. reflexivity. Qed.

Lemma bind_randomInt {B} min max (k : Z -> M Browser B) b :
  bind (randomInt min max) k b
  = k (Qfloor (draws b (drawn b) * inject_Z (max - min + 1)) + min)%Z (skip 1 b).
Proof. apply bind_eq, randomInt_eq. Qed.

Lemma bind_humanDelay {B} lo hi (k : unit -> M Browser B) b :
  bind (humanDelay lo hi) k b = k tt (skip 2 b).
Proof. apply bind_eq, humanDelay_eq. Qed.

Lemma scrollSteps_wheels n total b t b' :
  unitDraws b ->
  scrollSteps n total b = (Ok t, b') ->
  ∃ amounts,
    calls b' = calls b ++ wheels amounts
    ∧ length amounts = n
    ∧ Forall (fun a => (100 <= Z.abs a <= 500)%Z) amounts
    ∧ t = (total + foldr Z.add 0 amounts)%Z.
Proof.
  revert total b. induction n as [|n IH]; intros total b Hd E.
  - injection E as <- <-. exists []. cbn. rewrite app_nil_r. repeat split; [constructor|lia].
  - cbn [scrollSteps] in E.
    rewrite bind_Math_random, bind_randomInt, bind_call in E.
    set (d := draws b (drawn b)) in *.
    set (a := (Qfloor (draws (skip 1 b) (drawn (skip 1 b)) * inject_Z (500 - 100 + 1)) + 100)%Z) in *.
    assert (Ha : (100 <= a <= 500)%Z).
    { subst a. apply randomInt_value; [lia|apply (proj1 (Hd _))|apply (proj2 (Hd _))]. }
    clearbody a.
    set (amount := (a * (if JS.Qltb 0.15 d then 1 else -1))%Z) in *.
    assert (Hamount : (100 <= Z.abs amount <= 500)%Z).
    { subst amount. destruct (JS.Qltb 0.15 d); lia. }
    clearbody amount.
    destruct (perform unit (MouseWheel 0 amount) (page (skip 1 (skip 1 b))))
      as [[[]|e] p]; [|discriminate].
    unfold url in E. rewrite bind_gets in E. cbn [page] in E.
    unfold newURL in E. destruct (new_URL (page_url p)); [|discriminate].
    rewrite bind_ret, bind_humanDelay, bind_Math_random in E.
    match type of E with
    | bind (if ?c then _ else _) _ _ = _ => destruct c
    end;
      [rewrite bind_humanDelay in E | rewrite bind_ret in E];
      (apply IH in E as (amounts & Ec & El & Fa & Et); [|exact Hd]);
      (exists (amount :: amounts); cbn [calls skip] in Ec; rewrite Ec;
       split; [cbn; now rewrite <- app_assoc|];
       split; [cbn; lia|];
       split; [|cbn; lia];
       constructor; [exact Hamount|exact Fa]).
Qed.

(** X14: for draws in [0, 1), a scroll action that returns has turned the
    wheel between 3 and 8 times and issued no other call; every step moves
    by 100 to 500 pixels up or down, and the value returned is the sum of
    the steps. *)
Theorem humanScroll_wheels (b b' : Browser) (total : Z) :
  unitDraws b ->
  humanScroll b = (Ok total, b') ->
  ∃ amounts,
    calls b' = calls b ++ wheels amounts
    ∧ 3 <= length amounts <= 8
    ∧ Forall (fun a => (100 <= Z.abs a <= 500)%Z) amounts
    ∧ total = foldr Z.add 0%Z amounts.
Proof.
  intros Hd E. unfold humanScroll in E. rewrite bind_randomInt in E.
  apply scrollSteps_wheels in E as (amounts & Ec & El & Fa & Et); [|exact Hd].
  exists amounts. cbn [calls skip] in Ec.
  destruct (Hd (drawn b)) as [H0 H1].
  pose proof (randomInt_value 3 8 _ ltac:(lia) H0 H1).
  repeat split; auto; lia.
Qed.


Lemma findInput_None sels b b' :
  findInput sels b = (Ok None, b') ->
  calls b' = calls b ++ inputProbes sels ∧ drawn b' = drawn b.
Proof.
  revert b. induction sels as [|sel sels IH]; intros b E; cbn [findInput] in E.
  - injection E as <-. cbn. now rewrite app_nil_r.
  - unfold bind, try_catch in E. rewrite call_eq in E.
    destruct (fst (perform bool (IsVisible (First (Loc sel))) (page b)))
      as [[|]|e]; cbn in E; [discriminate| |];
      apply IH in E as [Ec Ed]; cbn [calls drawn] in *;
      (split; [rewrite Ec; cbn; now rewrite <- app_assoc|exact Ed]).
Qed.

Lemma findInput_blind sels b :
  (∀ sel p, sel ∈ sels ->
            fst (perform bool (IsVisible (First (Loc sel))) p) ≠ Ok true) ->
  fst (findInput sels b) = Ok None.
Proof.
  revert b. induction sels as [|sel sels IH]; intros b Hb; cbn [findInput];
    [reflexivity|].
  unfold bind, try_catch. rewrite call_eq.
  pose proof (Hb sel (page b) ltac:(left)) as Hsel.
  destruct (fst (perform bool (IsVisible (First (Loc sel))) (page b)))
    as [[|]|e]; cbn; [congruence| |];
    apply IH; intros; apply Hb; now right.
Qed.

(** X15: when the type action returns [false] it has probed the visibility
    of the five input selectors, in order, and done nothing else: no click,
    no keystroke, no draw. It returns [false] whenever no probe answers
    [true] (a probe that throws counts as not visible). *)
Theorem humanType_no_input (b : Browser) :
  (∀ b', humanType b = (Ok false, b') ->
         calls b' = calls b ++ inputProbes INPUT_SELECTORS
         ∧ drawn b' = drawn b)
  ∧ ((∀ sel p, sel ∈ INPUT_SELECTORS ->
               fst (perform bool (IsVisible (First (Loc sel))) p) ≠ Ok true) ->
     fst (humanType b) = Ok false).
Proof.
  split.
  - intros b' E. unfold humanType in E.
    apply bind_Ok in E as ([input|] & b1 & E1 & E).
    + exfalso.
      repeat (apply bind_Ok in E as (? & ? & _ & E)).
      discriminate.
    + injection E as <-. now apply findInput_None.
  - intros Hb. unfold humanType, bind.
    pose proof (findInput_blind INPUT_SELECTORS b Hb) as E.
    destruct (findInput INPUT_SELECTORS b) as [r b1]. cbn in E. subst r.
    reflexivity.
Qed.

Lemma hoverRounds_bounds n acc b r b' :
  hoverRounds n acc b = (Ok r, b') -> (acc <= r <= acc + Z.of_nat n)%Z.
Proof.
  revert acc b. induction n as [|n IH]; intros acc b E; cbn [hoverRounds] in E.
  - injection E as <- _. lia.
  - apply bind_Ok in E as (picked & b1 & _ & E).
    destruct (negb (JS.truthy picked)); [apply IH in E; lia|].
    apply bind_Ok in E as ([element|] & b2 & _ & E).
    + apply bind_Ok in E as (? & b3 & _ & E). apply IH in E. lia.
    + apply IH in E. lia.
Qed.

(** X16: for a first draw in [0, 1), the hover action returns, and the
    number of hovers it reports is between 0 and 4. *)
Theorem humanHover_count (b : Browser) :
  (0 <= draws b (drawn b))%Q -> (draws b (drawn b) < 1)%Q ->
  ∃ hovers b', humanHover b = (Ok hovers, b') ∧ (0 <= hovers <= 4)%Z.
Proof.
  intros H0 H1. destruct (returns_humanHover b) as (r & b' & E).
  exists r, b'. split; [exact E|].
  unfold humanHover in E. rewrite bind_randomInt in E.
  apply hoverRounds_bounds in E.
  pose proof (randomInt_value 1 4 _ ltac:(lia) H0 H1). lia.
Qed.


(** X17: after the links of the page were collected, the fallback navigation
    does not throw. When every collected link is visited it returns [null]
    without a call or a draw. Otherwise it calls [page.goto] exactly once,
    on a collected link that is not visited, and returns that link, or
    [null] when the navigation throws. *)
Theorem navigateToRandomLink_outcomes (visited : gset string) (b b1 : Browser)
    (links : list string) :
  unitDraws b ->
  collectInternalLinks b = (Ok links, b1) ->
  let unvisited := filter (fun u => u ∉ visited) links in
  let run := navigateToRandomLink visited b in
  (unvisited = [] -> run = (Ok None, b1))
  ∧ (unvisited ≠ [] ->
     ∃ target,
       (target ∈ links) ∧ (target ∉ visited)
       ∧ calls (snd run) = calls b1 ++ [anyCall (Goto target)]
       ∧ fst run = match fst (perform unit (Goto target) (page b1)) with
                   | Ok _ => Ok (Some target)
                   | Throw _ => Ok None
                   end).
Proof.
  intros _ Ec unvisited run. subst run. unfold navigateToRandomLink.
  rewrite (bind_eq _ _ _ _ _ Ec). fold unvisited. split.
  - intros ->. reflexivity.
  - intros Hne.
    destruct (length unvisited =? 0)%nat eqn:El.
    { apply Nat.eqb_eq, nil_length_inv in El. congruence. }
    unfold shuffle. rewrite (bind_eq _ _ _ _ _ (shuffleFrom_eq _ _ _)).
    set (shuffled := shuffleIdx (length unvisited - 1)
                       (choices (draws b1) (drawn b1) (length unvisited - 1))
                       unvisited).
    assert (Hp : Permutation shuffled unvisited) by apply shuffleIdx_Permutation.
    destruct shuffled as [|target rest] eqn:Es.
    { apply Permutation_nil_l in Hp. congruence. }
    assert (Ht : target ∈ unvisited).
    { rewrite <- Hp. apply list_elem_of_here. }
    apply list_elem_of_filter in Ht as [Hnv Hin].
    exists target. split; [exact Hin|]. split; [exact Hnv|].
    rewrite bind_humanDelay. unfold try_catch. rewrite bind_call.
    cbn [page skip calls].
    destruct (perform unit (Goto target) (page b1)) as [[[]|e] p]; cbn [fst].
    + rewrite bind_humanDelay. cbn. split; reflexivity.
    + cbn. split; reflexivity.
Qed.


(** The handlers never replace the stream of draws. *)
Lemma draws_call {A} (c : Call A) b : draws (snd (call c b)) = draws b.
Proof. rewrite call_eq. reflexivity. Qed.

Lemma draws_examine selector i b : draws (snd (examine selector i b)) = draws b.
Proof.
  unfold examine, try_catch, bind. rewrite call_eq.
  destruct (fst (perform bool (IsVisible (Nth (Loc selector) i)) (page b)))
    as [[|]|e]; cbn [negb]; try reflexivity.
  rewrite call_eq. cbn [page].
  destruct (fst (perform _ (BoundingBox (Nth (Loc selector) i)) _))
    as [[box|]|e]; try reflexivity.
  destruct (tiny box); [reflexivity|]. rewrite call_eq. cbn [page].
  destruct (fst (perform _ (TextContent (Nth (Loc selector) i)) _));
    reflexivity.
Qed.

Lemma draws_examineAll selector indices b :
  draws (snd (examineAll selector indices b)) = draws b.
Proof.
  revert b. induction indices as [|i indices IH]; intros b; cbn [examineAll];
    [reflexivity|].
  unfold bind. pose proof (draws_examine selector i b) as E1.
  destruct (examine selector i b) as [[c|e] b1]; cbn [snd] in *; [|exact E1].
  pose proof (IH b1) as E2.
  destruct (examineAll selector indices b1) as [[cs|e] b2];
    unfold ret; cbn [snd] in *; congruence.
Qed.

Lemma draws_gather selectors b : draws (snd (gather selectors b)) = draws b.
Proof.
  revert b. induction selectors as [|selector rest IH]; intros b; cbn [gather];
    [reflexivity|].
  unfold bind. pose proof (draws_call (Count (Loc selector)) b) as E1.
  destruct (call (Count (Loc selector)) b) as [[count|e] b1]; cbn [snd] in *;
    [|exact E1].
  pose proof (draws_examineAll selector (seq 0 count) b1) as E2.
  destruct (examineAll selector (seq 0 count) b1) as [[here|e] b2];
    cbn [snd] in *; [|congruence].
  pose proof (IH b2) as E3.
  destruct (gather rest b2) as [[others|e] b3]; unfold ret; cbn [snd] in *;
    congruence.
Qed.

Lemma bind_microPause {B} (k : unit -> M Browser B) b :
  bind microPause k b = k tt (skip 1 b).
Proof. apply bind_eq, microPause_eq. Qed.

(** X18: for draws in [0, 1), a click action that reports a click has only
    probed locators, then scrolled one element into view and clicked that
    same element, once: an element of one of the clickable selectors,
    pressed for 50 to 150 ms at an offset of 2 to 7 pixels from its
    corner. *)
Theorem humanClick_clicks_candidate (b b' : Browser) (d : string) :
  unitDraws b ->
  humanClick b = (Ok (Some d), b') ->
  ∃ probing selector i options,
    let element := Nth (Loc selector) i in
    selector ∈ CLICKABLE_SELECTORS
    ∧ Forall (fun c => methodOf c ∈ probes) probing
    ∧ calls b' = calls b ++ probing
                 ++ [anyCall (ScrollIntoViewIfNeeded element);
                     anyCall (Click element (Some options))]
    ∧ (50 <= delay options)%Q ∧ (delay options <= 150)%Q
    ∧ (2 <= position_x options)%Q ∧ (position_x options <= 7)%Q
    ∧ (2 <= position_y options)%Q ∧ (position_y options <= 7)%Q.
Proof.
  intros Hd E. unfold humanClick in E.
  apply try_catch_Ok in E as [E|(e & b1 & _ & E)]; [|discriminate].
  apply bind_Ok in E as (candidates & b1 & Eg & E).
  destruct (only_gather CLICKABLE_SELECTORS b) as (probing & Ec & Fp).
  rewrite Eg in Ec. cbn [snd] in Ec.
  assert (Hd1 : unitDraws b1).
  { intros k. pose proof (draws_gather CLICKABLE_SELECTORS b) as Ed.
    rewrite Eg in Ed. cbn [snd] in Ed. rewrite Ed. apply Hd. }
  destruct (length candidates =? 0)%nat; [discriminate|].
  apply bind_Ok in E as ([target|] & b2 & Ep & E); [|discriminate].
  pose proof (pickRandom_elem _ _ _ _ Ep) as Ht.
  pose proof (gather_selectors _ _ _ _ Eg _ Ht) as Hs.
  unfold pickRandom in Ep.
  destruct (length candidates =? 0)%nat; [discriminate|].
  rewrite bind_randomInt in Ep. injection Ep as _ <-.
  rewrite bind_microPause, bind_call in E.
  set (element := Nth (Loc (cand_selector target)) (cand_index target)) in *.
  destruct (perform unit (ScrollIntoViewIfNeeded element) _) as [[[]|e] p];
    [|discriminate].
  rewrite bind_microPause, !bind_Math_random, bind_call in E.
  cbn [page skip draws drawn calls plus] in E.
  match type of E with
  | context [Click element (Some ?o)] => set (options := o) in *
  end.
  destruct (perform unit (Click element (Some options)) p) as [[[]|e] p'];
    [|discriminate].
  rewrite bind_humanDelay in E. injection E as _ <-.
  exists probing, (cand_selector target), (cand_index target), options.
  cbn zeta. fold element. split; [exact Hs|]. split; [exact Fp|].
  split; [cbn [calls skip]; rewrite Ec, <- !app_assoc; reflexivity|].
  subst options. cbn [delay position_x position_y].
  destruct (Hd1 (S (S (S (drawn b1))))), (Hd1 (S (S (S (S (drawn b1)))))),
    (Hd1 (S (S (S (S (S (drawn b1))))))).
  repeat split; lra.
Qed.

End HandlerRuns.

Lemma humanScroll_wheels_witness :
  ∃ amounts,
    Driver.calls (snd (Actions.humanScroll
                         (Sample.browserOn Sample.home Sample.typeDraws)))
    = Driver.calls (Sample.browserOn Sample.home Sample.typeDraws)
      ++ Actions.wheels amounts
    ∧ 3 <= length amounts <= 8.
Proof.
  destruct (humanScroll_wheels (Sample.browserOn Sample.home Sample.typeDraws)
              (snd (Actions.humanScroll
                      (Sample.browserOn Sample.home Sample.typeDraws)))
              1300%Z)
    as (amounts & E & L & _).
  - intros k. split; [vm_compute; discriminate | vm_compute; reflexivity].
  - vm_compute. reflexivity.
  - exists amounts. split; [exact E | exact L].
Defined.

Lemma humanHover_count_witness :
  ∃ hovers b',
    Actions.humanHover (Sample.browserOn Sample.home Sample.typeDraws)
    = (Ok hovers, b')
    ∧ (0 <= hovers <= 4)%Z.
Proof.
  apply (humanHover_count (Sample.browserOn Sample.home Sample.typeDraws));
    [vm_compute; discriminate | vm_compute; reflexivity].
Defined.

Lemma navigateToRandomLink_outcomes_witness :
  ∃ target,
    Driver.calls (snd (Actions.navigateToRandomLink ∅
                         (Sample.browserOn Sample.home Sample.typeDraws)))
    = Driver.calls (snd (Actions.collectInternalLinks
                           (Sample.browserOn Sample.home Sample.typeDraws)))
      ++ [Driver.anyCall (Driver.Goto target)].
Proof.
  destruct (navigateToRandomLink_outcomes ∅
              (Sample.browserOn Sample.home Sample.typeDraws)
              (snd (Actions.collectInternalLinks
                      (Sample.browserOn Sample.home Sample.typeDraws)))
              ["https://example.com/a"; "https://example.com/b?p=1"])
    as [_ Hsome].
  - intros k. split; [vm_compute; discriminate | vm_compute; reflexivity].
  - vm_compute. reflexivity.
  - destruct Hsome as (target & _ & _ & E & _); [vm_compute; discriminate|].
    exists target. exact E.
Defined.

Lemma humanClick_clicks_candidate_witness :
  ∃ probing selector i options,
    selector ∈ Actions.CLICKABLE_SELECTORS
    ∧ Driver.calls (snd (@Actions.humanClick Sample.buttons Sample.buttonsBrowser))
      = probing
        ++ [Driver.anyCall (Driver.ScrollIntoViewIfNeeded
                              (Driver.Nth (Driver.Loc selector) i));
            Driver.anyCall (Driver.Click (Driver.Nth (Driver.Loc selector) i)
                              (Some options))].
Proof.
  destruct (@humanClick_clicks_candidate Sample.buttons Sample.buttonsBrowser
              (snd (@Actions.humanClick Sample.buttons Sample.buttonsBrowser))
              "Buy now")
    as (probing & selector & i & options & Hs & _ & E & _).
  - intros k. split; [vm_compute; discriminate | vm_compute; reflexivity].
  - vm_compute. reflexivity.
  - exists probing, selector, i, options. split; [exact Hs | exact E].
Defined.

(** ** The bookkeeping of the scheduler *)

Section Bookkeeping.
Import Driver Humanizer Actions Loop.
Context `{Platform}.
Variable mediaBody zoomBody : M Browser (option string).
Variable humanIdle : M Browser string.
Local Open Scope js_scope.

Lemma snoc_ne {A} (l : list A) x : l ++ [x] ≠ l.
Proof.
  intros E. apply (f_equal length) in E. rewrite length_app in E. cbn in E. lia.
Qed.

Lemma booked_quiet currentUrl s b r :
  r ≠ Ok true -> booked currentUrl s r (withBrowser s b).
Proof. intros Hr. repeat split; auto. Qed.

Lemma booked_navigated currentUrl s b act det r s' :
  (recordAction act det currentUrl ;; navigated currentUrl) (withBrowser s b)
  = (r, s') ->
  booked currentUrl s r s'.
Proof.
  unfold bind, recordAction, navigated, currentPageUrl, onBrowser, visit,
    recordPageVisit, modify, url, gets, ret, withBrowser. cbn.
  destruct (String.eqb_spec (page_url (page b)) currentUrl) as [Heq|Hne]; cbn;
    intros E; injection E as <- <-; cbn.
  - split; [right; now exists act, det|]. split; [now left|]. discriminate.
  - split; [right; now exists act, det|]. split; [right; auto|].
    intros _. apply snoc_ne.
Qed.

Lemma booked_runAction k currentUrl s r s' :
  runAction mediaBody zoomBody humanIdle k currentUrl s = (r, s') ->
  booked currentUrl s r s'.
Proof.
  intros E.
  destruct k; unfold runAction in E;
    unfold bind at 1 in E; unfold onBrowser at 1 in E;
    match type of E with
    | context [?h (browser s)] => destruct (h (browser s)) as [[v|e] b]
    end;
    try (injection E as <- <-; apply booked_quiet; discriminate).
  all: repeat match type of E with
             | context [if ?c then _ else _] => destruct c
             end.
  all: first
         [ apply booked_navigated in E; exact E
         | unfold bind, recordAction, modify, ret in E; injection E as <- <-;
           split;
           [ first [left; reflexivity | right; eexists _, _; reflexivity]
           | split;
             [ left; split; reflexivity
             | first [discriminate | intros _; apply snoc_ne] ] ] ].
Qed.

Lemma performRandomAction_booked currentUrl s r s' :
  performRandomAction mediaBody zoomBody humanIdle currentUrl s = (r, s') ->
  booked currentUrl s r s'.
Proof.
  intros E. rewrite performRandomAction_kindOf in E.
  apply booked_runAction in E. exact E.
Qed.

(** X19: one scheduled action, whether it returns or throws, appends at most
    one record, on the page the loop is working on. It leaves the visited
    set and the reporter's page set alone, or reports a navigation and adds
    to both the URL now shown, which is another page: the sets only grow, by
    at most one URL, and the records are only appended to. A reported
    navigation always leaves a record. *)
Theorem performRandomAction_bookkeeping (currentUrl : string) (s s' : Session)
    (r : Res bool) :
  performRandomAction mediaBody zoomBody humanIdle currentUrl s = (r, s') ->
  booked currentUrl s r s'
  ∧ visitedUrls s ⊆ visitedUrls s'
  ∧ pagesVisited s ⊆ pagesVisited s'
  ∧ size (visitedUrls s') <= S (size (visitedUrls s))
  ∧ actions s `prefix_of` actions s'.
Proof.
  intros E. apply performRandomAction_booked in E.
  split; [exact E|]. destruct E as (Ha & Hv & _).
  split; [|split; [|split]].
  - destruct Hv as [[-> _]|(_ & _ & -> & _)]; [reflexivity|apply union_subseteq_r].
  - destruct Hv as [[_ ->]|(_ & _ & _ & ->)]; [reflexivity|apply union_subseteq_r].
  - destruct Hv as [[-> _]|(_ & _ & -> & _)]; [lia|].
    rewrite size_union_alt, size_singleton.
    pose proof (subseteq_size (visitedUrls s ∖ {[page_url (page (browser s'))]})
                  (visitedUrls s) ltac:(apply subseteq_difference_l; reflexivity)). lia.
  - destruct Ha as [->|(act & det & ->)]; [reflexivity|]. now eexists.
Qed.

End Bookkeeping.

Lemma performRandomAction_bookkeeping_witness :
  Loop.visitedUrls (Sample.sessionOn Sample.home Sample.submitDraws)
  ⊆ Loop.visitedUrls
      (snd (Loop.performRandomAction Sample.noMedia Sample.noZoom Sample.idles
              "https://example.com/"
              (Sample.sessionOn Sample.home Sample.submitDraws))).
Proof.
  pose proof (performRandomAction_bookkeeping Sample.noMedia Sample.noZoom Sample.idles
           "https://example.com/"
           (Sample.sessionOn Sample.home Sample.submitDraws) _ _
           (surjective_pairing _)) as (_ & Hsub & _).
  exact Hsub.
Defined.

(** ** The exploration loop *)

Section ExplorationLoop.
Import Driver Humanizer Actions Loop Exploration.
Context `{Platform}.
Variable mediaBody zoomBody : M Browser (option string).
Variable humanIdle : M Browser string.
Variable cookieBody : M Browser bool.
Variable clock : nat -> Z.
Variable ctx : LoopContext.
Local Open Scope js_scope.

Local Notation "'V' w" := (visitedUrls (session w)) (at level 10, w at level 9).
Local Notation "'explore'" :=
  (explorationFrom mediaBody zoomBody humanIdle cookieBody clock ctx).
Local Notation "'act'" := (actionLoop mediaBody zoomBody humanIdle clock ctx).

Lemma bind_inv {S A B} (m : M S A) (k : A -> M S B) s r s' :
  bind m k s = (r, s') ->
  (∃ e, m s = (Throw e, s') ∧ r = Throw e)
  ∨ ∃ a s1, m s = (Ok a, s1) ∧ k a s1 = (r, s').
Proof.
  unfold bind. destruct (m s) as [[a|e] s1]; intros E.
  - right. now exists a, s1.
  - left. injection E as <- <-. now exists e.
Qed.

Lemma still_ret {A} (a : A) : still (ret a).
Proof. intros w r w' E. injection E as _ <-. auto. Qed.

Lemma still_gets {A} (f : Run -> A) : still (gets f).
Proof. intros w r w' E. injection E as _ <-. auto. Qed.

Lemma still_bind {A B} (m : M Run A) (k : A -> M Run B) :
  still m -> (∀ a, still (k a)) -> still (bind m k).
Proof.
  intros Hm Hk w r w' E.
  apply bind_inv in E as [(e & E & _)|(a & w1 & E1 & E2)].
  - eapply Hm, E.
  - destruct (Hm _ _ _ E1), (Hk _ _ _ _ E2). split; [congruence|lia].
Qed.

Lemma still_try_catch {A} (m : M Run A) (h : string -> M Run A) :
  still m -> (∀ e, still (h e)) -> still (try_catch m h).
Proof.
  intros Hm Hh w r w' E. unfold try_catch in E.
  destruct (m w) as [[a|e] w1] eqn:E1.
  - injection E as <- <-. eapply Hm, E1.
  - destruct (Hm _ _ _ E1), (Hh _ _ _ _ E). split; [congruence|lia].
Qed.

Lemma still_isTimedOut : still (isTimedOut clock ctx).
Proof. intros w r w' E. injection E as _ <-. cbn. auto. Qed.

Lemma still_complete : still (complete clock ctx).
Proof. apply still_bind; [apply still_isTimedOut|intros; apply still_ret]. Qed.

Lemma still_onBrowser {A} (m : M Browser A) : still (onSession (onBrowser m)).
Proof.
  intros w r w' E. unfold onSession, onBrowser in E.
  destruct (m (browser (session w))) as [r0 b]. injection E as _ <-. cbn. auto.
Qed.

Lemma still_recordAction a d u : still (onSession (recordAction a d u)).
Proof. intros w r w' E. injection E as _ <-. cbn. auto. Qed.

Lemma still_recordPageVisit u : still (onSession (recordPageVisit u)).
Proof. intros w r w' E. injection E as _ <-. cbn. auto. Qed.

Lemma still_if {A} (c : bool) (m1 m2 : M Run A) :
  still m1 -> still m2 -> still (if c then m1 else m2).
Proof. now destruct c. Qed.

(** What the action loop does to the visited set. *)
Lemma actionLoop_visited n currentUrl w r w' :
  act n currentUrl w = (r, w') ->
  ticks w <= ticks w'
  ∧ (V w' = V w
     ∨ (page_url (page (browser (session w'))) ≠ currentUrl
        ∧ V w' = {[page_url (page (browser (session w')))]} ∪ V w
        ∧ r = Ok tt)).
Proof.
  revert w. induction n as [|n IH]; intros w E; cbn [actionLoop] in E.
  - injection E as _ <-. auto.
  - apply bind_inv in E as [(e & E & _)|(late & w1 & E1 & E)]; [discriminate|].
    injection E1 as <- <-.
    destruct (timedOut ctx (clock (ticks w))); [injection E as _ <-; cbn; auto|].
    assert (Hstep : ∀ r0 w2,
              onSession (performRandomAction mediaBody zoomBody humanIdle currentUrl)
                {| session := session w; ticks := S (ticks w) |} = (r0, w2) ->
              ticks w2 = S (ticks w)
              ∧ booked currentUrl (session w) r0 (session w2)).
    { intros r0 w2 E0. unfold onSession in E0. cbn [session ticks] in E0.
      destruct (performRandomAction mediaBody zoomBody humanIdle currentUrl (session w))
        as [r1 s2] eqn:Ep.
      injection E0 as <- <-. split; [reflexivity|].
      eapply performRandomAction_booked, Ep. }
    apply bind_inv in E as [(e & E & ->)|(away & w2 & E2 & E)].
    + apply Hstep in E as (Et & _ & [[Ev _]|(Hr & _)] & _); [|discriminate].
      split; [lia|]. left. exact Ev.
    + apply Hstep in E2 as (Et & _ & [[Ev _]|(Hr & Hne & Ev & _)] & _).
      * destruct away.
        -- injection E as <- <-. split; [lia|]. left. exact Ev.
        -- apply IH in E as [Ht [Ev'|(Hne & Ev' & Hr)]].
           ++ split; [lia|]. left. congruence.
           ++ split; [lia|]. right. rewrite <- Ev. auto.
      * injection Hr as ->. injection E as <- <-.
        split; [lia|]. right. auto.
Qed.

Lemma within_refl v : within ctx v v.
Proof. split; [reflexivity|lia]. Qed.

Lemma within_eq v v' : v' = v -> within ctx v v'.
Proof. intros ->. apply within_refl. Qed.

Lemma within_trans v1 v2 v3 : within ctx v1 v2 -> within ctx v2 v3 -> within ctx v1 v3.
Proof. intros [S1 L1] [S2 L2]. split; [etransitivity; eassumption|lia]. Qed.

Lemma within_add u v :
  (Z.of_nat (size v) < targetPages ctx)%Z -> within ctx v ({[u]} ∪ v).
Proof.
  intros Hlt. split; [apply union_subseteq_r|].
  rewrite size_union_alt, size_singleton.
  pose proof (subseteq_size (v ∖ {[u]}) v ltac:(apply subseteq_difference_l; reflexivity)).
  lia.
Qed.

Lemma within_bind_still {A B} (m : M Run A) (k : A -> M Run B) w r w' :
  still m ->
  (∀ a w1, V w1 = V w -> ticks w <= ticks w1 -> k a w1 = (r, w') ->
           within ctx (V w1) (V w')) ->
  bind m k w = (r, w') -> within ctx (V w) (V w').
Proof.
  intros Hm Hk E. apply bind_inv in E as [(e & E & _)|(a & w1 & E1 & E)].
  - apply within_eq. eapply Hm, E.
  - destruct (Hm _ _ _ E1) as [Ev Ht]. rewrite <- Ev. now apply (Hk a).
Qed.

Lemma currentPageUrl_eq w :
  ∃ w1, onSession currentPageUrl w
        = (Ok (page_url (page (browser (session w)))), w1)
        ∧ V w1 = V w ∧ browser (session w1) = browser (session w)
        ∧ ticks w1 = ticks w.
Proof. eexists. split; [reflexivity|]. cbn. auto. Qed.

Ltac still_step Hs a w1 :=
  match goal with
  | E : bind _ _ _ = _, Hlt : (_ < _)%Z |- _ =>
      revert E; apply within_bind_still;
      [Hs | intros a w1 Ev _ E; rewrite <- Ev in Hlt; clear Ev]
  end.

Lemma explore_within fuel w r w' :
  explore fuel w = (r, w') -> within ctx (V w) (V w').
Proof.
  revert w. induction fuel as [|fuel IH]; intros w E; cbn [explorationFrom] in E; unfold iteration in E.
  - injection E as _ <-. apply within_refl.
  - unfold belowTarget in E at 1. unfold bind at 1, gets at 1 in E.
    destruct (Z.ltb_spec (Z.of_nat (size (V w))) (targetPages ctx)) as [Hlt|Hge];
      cbn [negb] in E.
    2: { apply still_complete in E as [Ev _]. now apply within_eq. }
    still_step ltac:(apply still_isTimedOut) late w1.
    destruct late.
    { apply still_complete in E as [Ev _]. now apply within_eq. }
    unfold currentPageUrl in E at 1.
    still_step ltac:(apply still_onBrowser) currentUrl w2.
    destruct (negb (JS.startsWith "http" currentUrl)).
    { still_step ltac:(apply still_try_catch;
                       [apply still_bind; [apply still_onBrowser|intros; apply still_ret]
                       |intros; apply still_ret]) back w3.
      destruct back; [now apply IH|].
      apply still_complete in E as [Ev _]. now apply within_eq. }
    still_step ltac:(apply still_onBrowser) cookieHandled w3.
    still_step ltac:(apply still_if; [apply still_recordAction|apply still_ret]) u w4.
    still_step ltac:(apply still_onBrowser) actionsTarget w5.
    apply bind_inv in E as [(e & E & _)|([] & w6 & Ea & E)].
    { apply actionLoop_visited in E as [_ [Ev|(_ & _ & Hr)]]; [|discriminate].
      now apply within_eq. }
    apply actionLoop_visited in Ea as [_ [Ev|(Hne & Ev & _)]].
    + rewrite <- Ev in Hlt. rewrite <- Ev. clear Ev.
      unfold currentPageUrl in E at 1.
      still_step ltac:(apply still_onBrowser) here w7.
      still_step ltac:(apply still_gets) below w8.
      destruct (String.eqb here currentUrl && below).
      * still_step ltac:(apply still_gets) visited w9.
        still_step ltac:(apply still_onBrowser) nextUrl w10.
        destruct (JS.truthy nextUrl).
        2: { apply still_complete in E as [Ev _]. now apply within_eq. }
        apply bind_inv in E as [(e & E & _)|([] & w11 & Ev & E)]; [discriminate|].
        injection Ev as <-.
        eapply within_trans; [apply (within_add (default EmptyString nextUrl)), Hlt|].
        revert E. apply within_bind_still; [apply still_recordPageVisit|].
        intros ? w12 _ _.
        apply within_bind_still; [apply still_recordAction|].
        intros ? w13 _ _.
        apply within_bind_still; [apply still_onBrowser|].
        intros ? w14 _ _. apply IH.
      * still_step ltac:(apply still_onBrowser) p w9. now apply IH.
    + destruct (currentPageUrl_eq w6) as (w7 & E7 & Ev7 & Eb7 & _).
      rewrite (bind_eq _ _ _ _ _ E7) in E.
      unfold belowTarget in E at 1. unfold bind at 1, gets at 1 in E.
      destruct (String.eqb_spec (page_url (page (browser (session w6)))) currentUrl)
        as [Heq|_]; [contradiction|].
      cbn [andb] in E.
      apply (within_trans _ (V w6)).
      { rewrite Ev. apply within_add, Hlt. }
      rewrite <- Ev7.
      revert E. apply within_bind_still; [apply still_onBrowser|].
      intros ? w8 _ _. apply IH.
Qed.


(** X20: whatever the exploration loop does (return, throw, or use up the
    fuel), the visited set only grows, and it never outgrows the page target:
    a set that starts at or below the target stays at or below it, and a set
    that starts at or above the target is left as it is. *)
Theorem exploration_page_budget (fuel : nat) (w w' : Run) (r : Res (option unit)) :
  explore fuel w = (r, w') ->
  V w ⊆ V w'
  ∧ (Z.of_nat (size (V w')) <= Z.max (Z.of_nat (size (V w))) (targetPages ctx))%Z
  ∧ ((Z.of_nat (size (V w)) <= targetPages ctx)%Z ->
     (Z.of_nat (size (V w')) <= targetPages ctx)%Z)
  ∧ ((targetPages ctx <= Z.of_nat (size (V w)))%Z -> V w' = V w).
Proof.
  intros E. pose proof (explore_within _ _ _ _ E) as [Hs Hl].
  split; [exact Hs|]. split; [exact Hl|]. split; [lia|].
  intros Hge. destruct fuel as [|fuel]; cbn [explorationFrom] in E; unfold iteration in E.
  - injection E as _ <-. reflexivity.
  - unfold belowTarget in E at 1. unfold bind at 1, gets at 1 in E.
    destruct (Z.ltb_spec (Z.of_nat (size (V w))) (targetPages ctx)); [lia|].
    cbn [negb] in E. now apply still_complete in E as [Ev _].
Qed.

Lemma live_bind_still {A B} (m : M Run A) (k : A -> M Run (option B)) w r w' :
  still m ->
  (∀ a w1, ticks w <= ticks w1 -> k a w1 = (r, w') -> r ≠ Ok None) ->
  bind m k w = (r, w') -> r ≠ Ok None.
Proof.
  intros Hm Hk E. apply bind_inv in E as [(e & E & ->)|(a & w1 & E1 & E)].
  - discriminate.
  - destruct (Hm _ _ _ E1) as [_ Ht]. now apply (Hk a w1).
Qed.

Lemma complete_live w r w' : complete clock ctx w = (r, w') -> r ≠ Ok None.
Proof. intros E. injection E as <- _. discriminate. Qed.

Ltac live_step Hs a w1 :=
  match goal with
  | E : bind _ _ _ = _, Hticks : (_ <= ticks _) |- _ =>
      let Hnew := fresh "Hnew" in
      revert E; apply live_bind_still;
      [Hs | intros a w1 Hnew E; apply (Nat.le_trans _ _ _ Hticks) in Hnew;
            clear Hticks; rename Hnew into Hticks]
  end.

Lemma explore_live (deadline : nat) :
  (∀ k, deadline <= k -> timedOut ctx (clock k) = true) ->
  ∀ fuel w r w',
    0 < fuel -> deadline < ticks w + fuel ->
    explore fuel w = (r, w') -> r ≠ Ok None.
Proof.
  intros Hclock. induction fuel as [|fuel IH]; intros w r w' Hpos Hfuel E; [lia|].
  cbn [explorationFrom] in E; unfold iteration in E.
  unfold belowTarget in E at 1. unfold bind at 1, gets at 1 in E.
  destruct (negb _); [eapply complete_live, E|].
  apply bind_inv in E as [(e & E & _)|(late & w1 & E1 & E)]; [discriminate|].
  injection E1 as <- <-.
  destruct (timedOut ctx (clock (ticks w))) eqn:Elate; [eapply complete_live, E|].
  assert (Hearly : ticks w < deadline).
  { destruct (Nat.lt_ge_cases (ticks w) deadline) as [Hlt|Hge]; [exact Hlt|].
    rewrite (Hclock _ Hge) in Elate. discriminate. }
  assert (Hrec : ∀ w2 r2 w2', S (ticks w) <= ticks w2 ->
                   explore fuel w2 = (r2, w2') -> r2 ≠ Ok None).
  { intros w2 r2 w2' Ht2. apply IH; lia. }
  clear IH Hfuel Hpos Elate Hclock.
  assert (Hticks : S (ticks w)
                   <= ticks {| session := session w; ticks := S (ticks w) |})
    by reflexivity.
  unfold currentPageUrl in E at 1.
  live_step ltac:(apply still_onBrowser) currentUrl w2.
  destruct (negb (JS.startsWith "http" currentUrl)).
  { live_step ltac:(apply still_try_catch;
                    [apply still_bind; [apply still_onBrowser|intros; apply still_ret]
                    |intros; apply still_ret]) back w3.
    destruct back; [eapply Hrec; eassumption|eapply complete_live, E]. }
  live_step ltac:(apply still_onBrowser) cookieHandled w3.
  live_step ltac:(apply still_if; [apply still_recordAction|apply still_ret]) u w4.
  live_step ltac:(apply still_onBrowser) actionsTarget w5.
  apply bind_inv in E as [(e & E & ->)|([] & w6 & Ea & E)]; [discriminate|].
  apply actionLoop_visited in Ea as [Ht6 _].
  apply (Nat.le_trans _ _ _ Hticks) in Ht6. clear Hticks. rename Ht6 into Hticks.
  unfold currentPageUrl in E at 1.
  live_step ltac:(apply still_onBrowser) here w7.
  live_step ltac:(apply still_gets) below w8.
  destruct (String.eqb here currentUrl && below).
  - live_step ltac:(apply still_gets) visited w9.
    live_step ltac:(apply still_onBrowser) nextUrl w10.
    destruct (JS.truthy nextUrl); [|eapply complete_live, E].
    apply bind_inv in E as [(e & E & ->)|([] & w11 & Ev & E)]; [discriminate|].
    injection Ev as <-.
    revert E. apply live_bind_still; [apply still_recordPageVisit|].
    intros ? w12 Ht12. cbn [ticks] in Ht12.
    apply live_bind_still; [apply still_recordAction|].
    intros ? w13 Ht13.
    apply live_bind_still; [apply still_onBrowser|].
    intros ? w14 Ht14. apply Hrec. lia.
  - live_step ltac:(apply still_onBrowser) p w9. eapply Hrec; eassumption.
Qed.


Lemma bind_mono {S A B} (m : M S A) (k k' : A -> M S B) s r s' :
  (∀ a s1, k a s1 = (r, s') -> k' a s1 = (r, s')) ->
  bind m k s = (r, s') -> bind m k' s = (r, s').
Proof. unfold bind. intros Hk. destruct (m s) as [[a|e] s1]; auto. Qed.

Lemma iteration_mono (k1 k2 : M Run (option unit)) w r w' :
  (∀ w1, k1 w1 = (r, w') -> k2 w1 = (r, w')) ->
  iteration mediaBody zoomBody humanIdle cookieBody clock ctx k1 w = (r, w') ->
  iteration mediaBody zoomBody humanIdle cookieBody clock ctx k2 w = (r, w').
Proof.
  intros Hk. unfold iteration.
  repeat (cbv beta;
          first
            [ apply Hk
            | exact (fun E => E)
            | apply bind_mono; intros ? ?
            | match goal with
              | |- (if ?c then _ else _) _ = _ -> _ => destruct c
              end ]).
Qed.

Lemma explore_more fuel w r w' :
  r ≠ Ok None -> explore fuel w = (r, w') -> explore (S fuel) w = (r, w').
Proof.
  intros Hr. revert w. induction fuel as [|fuel IH]; intros w E.
  - injection E as <- _. congruence.
  - cbn [explorationFrom] in *. eapply iteration_mono; [|exact E]. exact IH.
Qed.

(** X21: the exploration loop ends. If every clock reading from the
    [deadline]-th on is past the duration limit, then with more passes
    allowed than readings are left before the deadline the loop returns or
    throws before the passes are used up, and allowing more passes changes
    neither the outcome nor the final state. *)
Theorem exploration_returns (deadline fuel : nat) (w : Run) :
  (∀ k, deadline <= k -> timedOut ctx (clock k) = true) ->
  deadline < ticks w + fuel -> 0 < fuel ->
  fst (explore fuel w) ≠ Ok None
  ∧ ∀ more, explore (more + fuel) w = explore fuel w.
Proof.
  intros Hclock Hfuel Hpos.
  assert (Hlive : fst (explore fuel w) ≠ Ok None).
  { destruct (explore fuel w) as [r w'] eqn:E. cbn.
    eapply explore_live; eassumption. }
  split; [exact Hlive|].
  induction more as [|more IH]; [reflexivity|].
  cbn [plus]. destruct (explore fuel w) as [r w'] eqn:E.
  apply explore_more; [exact Hlive|exact IH].
Qed.

End ExplorationLoop.

Lemma exploration_page_budget_witness :
  Loop.visitedUrls (Exploration.session Sample.exStart)
  ⊆ Loop.visitedUrls
      (Exploration.session
         (snd (Exploration.explorationFrom Sample.noMedia Sample.noZoom Sample.idles
                 Sample.noCookies Sample.lateClock Sample.exContext 1 Sample.exStart))).
Proof.
  pose proof (exploration_page_budget Sample.noMedia Sample.noZoom Sample.idles
                Sample.noCookies Sample.lateClock Sample.exContext 1 Sample.exStart
                _ _ (surjective_pairing _)) as (Hsub & _).
  exact Hsub.
Defined.

Lemma exploration_returns_witness :
  fst (Exploration.explorationFrom Sample.noMedia Sample.noZoom Sample.idles
         Sample.noCookies Sample.lateClock Sample.exContext 1 Sample.exStart)
  ≠ Ok None.
Proof.
  apply (exploration_returns Sample.noMedia Sample.noZoom Sample.idles
           Sample.noCookies Sample.lateClock Sample.exContext 0 1 Sample.exStart).
  - intros k _. reflexivity.
  - cbn. lia.
  - lia.
Defined.

(** ** The end of a session *)

Section SessionEnd.
Import Proxy Explorer.
Variable Env : Type.
Variable Handle : Type.
Variable now : Env -> Z.
Variable launchBrowser : ExplorerConfig -> option ProxyEntry -> Env -> Res Handle * Env.
Variable goto : Handle -> string -> Env -> Res unit * Env.
Variable closeBody : Handle -> Env -> Res unit * Env.
Variable humanDelay : Q -> Q -> Env -> Env.
Variable setProxy : string -> Env -> Env.
Variable recordPageVisit : string -> Env -> Env.
Variable recordAction : string -> string -> string -> Env -> Env.
Variable generateReport : Env -> Env.
Variable explorationLoop :
  LoopContext Handle -> Env * gmap SetRef (gset string)
  -> Res unit * (Env * gmap SetRef (gset string)).
Local Open Scope js_scope.

Lemma returns_poolGetNext : returns (poolGetNext (Env := Env) (Handle := Handle)).
Proof. intros s. unfold poolGetNext. destruct (getNext (pool s)). now eexists _, _. Qed.

Lemma returns_cleanup : returns (cleanup closeBody).
Proof.
  unfold cleanup, closeBrowser, setSession.
  apply returns_bind; [apply returns_gets|intros [h|]]; auto with returns.
Qed.

Lemma returns_recoverWithNewProxy ctx :
  returns (recoverWithNewProxy launchBrowser goto humanDelay setProxy
             explorationLoop ctx).
Proof.
  unfold recoverWithNewProxy, withEnv.
  apply returns_bind; [apply returns_poolGetNext|intros [np|]]; auto with returns.
Qed.

Lemma returns_recovery this :
  returns (recovery launchBrowser goto closeBody humanDelay setProxy
             explorationLoop this).
Proof.
  unfold recovery, poolMarkDead, emit, setSession.
  apply returns_bind; [apply returns_gets|intros [p|]]; [|auto with returns].
  apply returns_bind; [apply returns_gets|intros count].
  destruct (1 <? count)%nat; [|apply returns_ret].
  apply returns_bind; [auto with returns|intros _].
  apply returns_bind; [apply returns_cleanup|intros _].
  apply returns_bind; [apply returns_gets|intros start].
  apply returns_bind; [apply returns_modify|intros _].
  apply returns_bind; [apply returns_recoverWithNewProxy|intros [h|]];
    auto with returns.
Qed.

Lemma cleanup_session (s : State Env Handle) r s' :
  cleanup closeBody s = (r, s') -> session s' = None.
Proof.
  unfold cleanup, bind, gets. destruct (session s) as [h|] eqn:Es.
  - unfold closeBrowser, try_catch, onEnv, setSession, modify, ret.
    destruct (closeBody h (env s)) as [[[]|e] env']; intros E;
      injection E as _ <-; reflexivity.
  - intros E. injection E as _ <-. exact Es.
Qed.

(** X22: [Explorer.run] never throws: whatever the browser, the network and
    the exploration loop do, it returns, with the session handle released
    (the [session] field is [null]) and the start time it read on entry. *)
Theorem run_returns (this : ExplorerFields) (s : State Env Handle) :
  ∃ s', run now launchBrowser goto closeBody humanDelay setProxy recordPageVisit
          recordAction generateReport explorationLoop this s = (Ok tt, s')
        ∧ session s' = None
        ∧ startTime s' = now (env s).
Proof.
  unfold run.
  set (s0 := {| env := env s; sets := sets s; pool := pool s;
                startTime := now (env s); session := session s;
                currentProxy := currentProxy s; trace := trace s |}).
  assert (E0 : (let* t := gets (fun s1 : State Env Handle => now (env s1)) in
                setStartTime t)%js s = (Ok tt, s0)) by reflexivity.
  rewrite (bind_eq _ _ _ _ _ E0). unfold finally.
  destruct (returns_try_catch
              (attempt launchBrowser goto humanDelay setProxy recordPageVisit
                 recordAction explorationLoop this)
              (fun _ => recovery launchBrowser goto closeBody humanDelay setProxy
                          explorationLoop this)
              (fun _ => returns_recovery this) s0) as ([] & s1 & E1).
  rewrite E1.
  assert (Hstart1 : startTime s1 = now (env s)).
  { unfold try_catch in E1.
    destruct (attempt launchBrowser goto humanDelay setProxy recordPageVisit
                recordAction explorationLoop this s0) as [[[]|e] sa] eqn:Ea.
    - injection E1 as <-. now apply attempt_trace in Ea as (_ & _ & -> & _).
    - apply attempt_trace in Ea as (_ & _ & Hsa & _).
      apply recovery_trace in E1 as [-> _]. exact Hsa. }
  destruct (cleanup closeBody s1) as [rc sc] eqn:Ec.
  pose proof (cleanup_session _ _ _ Ec) as Hnone.
  pose proof (keeps_cleanup _ _ closeBody _ _ _ Ec) as (_ & _ & Hstartc & _).
  destruct (returns_cleanup s1) as ([] & sc' & Ec'). rewrite Ec in Ec'.
  injection Ec' as -> <-.
  unfold bind. rewrite Ec. cbn.
  eexists. split; [reflexivity|]. cbn. split; [exact Hnone|congruence].
Qed.


End SessionEnd.

(** ** Command-line overrides *)

Section CliOverrides.
Import Config.

Lemma orString_truthy next current :
  current ≠ EmptyString -> orString next current ≠ EmptyString.
Proof.
  intros Hc. unfold orString. destruct next as [v|]; cbn; [|exact Hc].
  destruct (String.eqb_spec v EmptyString); cbn; assumption.
Qed.

Lemma orInt_truthy next current : current ≠ 0%Z -> orInt next current ≠ 0%Z.
Proof.
  intros Hc. unfold orInt. destruct next as [v|]; [|exact Hc].
  destruct (JS.parseInt v) as [n|]; [|exact Hc].
  destruct (Z.eqb_spec n 0); assumption.
Qed.

Lemma override_settled arg next c c' :
  override arg next c = Some c' -> settled c -> settled c'.
Proof.
  unfold override, settled.
  intros E (H1 & H2 & H3 & H4 & H5 & H6 & H7 & H8 & H9 & H10 & H11).
  repeat match type of E with
         | (if ?b then _ else _) = _ => destruct b
         end;
    [injection E as <-; cbn; repeat split;
     solve [assumption | apply orString_truthy; assumption
           | apply orInt_truthy; assumption] .. | discriminate].
Qed.

Lemma override_isFlag arg next c :
  is_Some (override arg next c) ↔ isFlag arg = true.
Proof.
  unfold override.
  repeat match goal with
         | |- context [String.eqb arg ?f] =>
             destruct (String.eqb_spec arg f) as [->|?];
             [split; intros _; [vm_compute; reflexivity|eexists; reflexivity]|]
         end.
  split; [intros [x Hx]; discriminate|].
  intros Hf. exfalso. unfold isFlag in Hf. apply bool_decide_eq_true in Hf.
  repeat (apply elem_of_cons in Hf as [Hf|Hf]; [contradiction|]).
  inversion Hf.
Qed.

(** X24: command-line overrides never blank a setting: if no string of the
    configuration is empty and no number is zero, the same holds after
    [applyCliOverrides], for every list of arguments (a missing, empty,
    non-numeric or zero value leaves the setting as it was). *)
Theorem applyCliOverrides_settled (c : ExplorerConfig) (args : list string) :
  settled c -> settled (applyCliOverrides c args).
Proof.
  remember (length args) as n eqn:Hn. revert c args Hn.
  induction n as [n IH] using lt_wf_ind. intros c args Hn Hc.
  destruct args as [|arg rest]; [exact Hc|]. cbn [applyCliOverrides].
  destruct (override arg (head rest) c) as [c'|] eqn:E.
  - apply override_settled in E; [|exact Hc].
    destruct rest as [|value rest']; [exact E|].
    eapply (IH (length rest')); [cbn in Hn; lia|reflexivity|exact E].
  - eapply (IH (length rest)); [cbn in Hn; lia|reflexivity|exact Hc].
Qed.

Lemma override_None arg next c : isFlag arg = false -> override arg next c = None.
Proof.
  intros Hf. destruct (override arg next c) as [c'|] eqn:E; [|reflexivity].
  assert (Hs : is_Some (override arg next c)) by (rewrite E; eauto).
  apply override_isFlag in Hs. congruence.
Qed.

(** X25: the arguments are processed from left to right, so that later
    flags override earlier ones: when the first part of the command line
    does not end in a flag that misses its value, overriding with the whole
    line is overriding with the first part and then with the rest. Arguments
    that are no flags, outside a value position, are ignored. *)
Theorem applyCliOverrides_app (c : ExplorerConfig) (args more : list string) :
  (dangling args = false ->
   applyCliOverrides c (args ++ more)
   = applyCliOverrides (applyCliOverrides c args) more)
  ∧ (Forall (fun arg => isFlag arg = false) args -> applyCliOverrides c args = c).
Proof.
  split.
  - remember (length args) as n eqn:Hn. revert c args Hn.
    induction n as [n IH] using lt_wf_ind. intros c args Hn Hd.
    destruct args as [|arg rest]; [reflexivity|].
    cbn [applyCliOverrides app]. cbn [dangling] in Hd.
    destruct (isFlag arg) eqn:Hf.
    + destruct rest as [|value rest']; [discriminate|]. cbn [head app].
      destruct (override arg (Some value) c) as [c'|] eqn:E.
      * eapply (IH (length rest')); [cbn in Hn; lia|reflexivity|exact Hd].
      * assert (Hs : is_Some (override arg (Some value) c))
          by (apply override_isFlag; exact Hf).
        rewrite E in Hs. destruct Hs; discriminate.
    + rewrite !(override_None _ _ _ Hf).
      eapply (IH (length rest)); [cbn in Hn; lia|reflexivity|exact Hd].
  - intros Hall. revert c. induction Hall as [|arg rest Hf _ IH]; intros c;
      [reflexivity|].
    cbn [applyCliOverrides]. rewrite (override_None _ _ _ Hf). apply IH.
Qed.

End CliOverrides.

Lemma applyCliOverrides_settled_witness :
  Config.settled (Config.applyCliOverrides Sample.exConfig Sample.exArgs).
Proof.
  apply (applyCliOverrides_settled Sample.exConfig Sample.exArgs).
  vm_compute. repeat split; discriminate.
Defined.

(** ** Weighted locale selection *)

Section LocaleSelection.
Import Driver Locales.
Context `{Platform}.

Lemma pickFrom_elem roll c pool p :
  pickFrom roll c pool = Some p -> p ∈ (fst <$> pool).
Proof.
  revert c. induction pool as [|[q w] pool IH]; intros c E; [discriminate|].
  cbn in E. destruct (JS.Qltb roll (c + w)).
  - injection E as ->. apply list_elem_of_here.
  - apply list_elem_of_further. eapply IH, E.
Qed.

Lemma totalWeight_nonneg pool :
  Forall (fun entry => (0 <= snd entry)%Q) pool -> (0 <= totalWeight pool)%Q.
Proof.
  induction 1 as [|[q w] pool Hw _ IH]; cbn in *; [lra|].
  unfold totalWeight in IH. lra.
Qed.

Lemma pickFrom_None roll c pool :
  Forall (fun entry => (0 <= snd entry)%Q) pool ->
  (c <= roll)%Q ->
  (pickFrom roll c pool = None ↔ (c + totalWeight pool <= roll)%Q).
Proof.
  revert c. induction pool as [|[q w] pool IH]; intros c Hw Hc; cbn.
  - split; [intros _; lra|reflexivity].
  - apply Forall_cons in Hw as [Hw0 Hw]. cbn in Hw0.
    destruct (JS.Qltb roll (c + w)) eqn:E.
    + apply Qltb_lt in E. split; [discriminate|].
      intros Hle. exfalso.
      pose proof (totalWeight_nonneg _ Hw). unfold totalWeight in *. lra.
    + apply Qltb_ge in E. rewrite (IH _ Hw E). unfold totalWeight.
      split; intros; lra.
Qed.

(** X26: for a draw in [0, 1), [pickRandomLocale] returns the Spanish
    profile below 0.8, the US profile from 0.8 to 0.9 and the British
    profile from 0.9 on (weights 80, 10 and 10 percent). For any pool of
    non-negative weights that sum to at least 1, the loop returns the entry
    it picks and the fallback after the loop is not reached; the fallback
    returns the first entry for the draws at or above the sum of the
    weights. *)
Theorem pickRandomLocale_weighted (b : Browser) :
  let roll := draws b (drawn b) in
  (0 <= roll)%Q -> (roll < 1)%Q ->
  pickRandomLocale b
  = (Ok (if JS.Qltb roll 0.8 then esES
         else if JS.Qltb roll 0.9 then enUS else enGB), skip 1 b)
  ∧ (∀ pool,
       Forall (fun entry => (0 <= snd entry)%Q) pool ->
       (1 <= totalWeight pool)%Q ->
       ∃ profile, pickRandomLocaleFrom pool b = (Ok profile, skip 1 b)
                  ∧ pickFrom roll 0 pool = Some profile
                  ∧ profile ∈ (fst <$> pool))
  ∧ (∀ first rest,
       Forall (fun entry => (0 <= snd entry)%Q) (first :: rest) ->
       (totalWeight (first :: rest) <= roll)%Q ->
       pickRandomLocaleFrom (first :: rest) b = (Ok (fst first), skip 1 b)).
Proof.
  intros roll H0 H1. split; [|split].
  - unfold pickRandomLocale, pickRandomLocaleFrom, bind, Math_random, LOCALE_POOL.
    cbn [pickFrom]. cbv zeta. fold roll.
    assert (E1 : JS.Qltb roll (0 + 0.80) = JS.Qltb roll 0.8).
    { destruct (JS.Qltb roll 0.8) eqn:E.
      - apply Qltb_lt. apply Qltb_lt in E. lra.
      - apply Qltb_ge. apply Qltb_ge in E. lra. }
    assert (E2 : JS.Qltb roll (0 + 0.80 + 0.10) = JS.Qltb roll 0.9).
    { destruct (JS.Qltb roll 0.9) eqn:E.
      - apply Qltb_lt. apply Qltb_lt in E. lra.
      - apply Qltb_ge. apply Qltb_ge in E. lra. }
    assert (E3 : JS.Qltb roll (0 + 0.80 + 0.10 + 0.10) = true).
    { apply Qltb_lt. lra. }
    rewrite E1, E2, E3.
    destruct (JS.Qltb roll 0.8); [reflexivity|].
    destruct (JS.Qltb roll 0.9); reflexivity.
  - intros pool Hw Ht.
    destruct (pickFrom roll 0 pool) as [profile|] eqn:E.
    + exists profile. split; [|split; [reflexivity|eapply pickFrom_elem, E]].
      unfold pickRandomLocaleFrom, bind, Math_random. fold roll. now rewrite E.
    + apply pickFrom_None in E; [lra|exact Hw|exact H0].
  - intros [p w] rest Hw Ht.
    unfold pickRandomLocaleFrom, bind, Math_random. fold roll.
    assert (E : pickFrom roll 0 ((p, w) :: rest) = None).
    { apply pickFrom_None; [exact Hw|exact H0|lra]. }
    now rewrite E.
Qed.

End LocaleSelection.

Lemma pickRandomLocale_weighted_witness :
  Locales.pickRandomLocale (Sample.browserOn Sample.home Sample.typeDraws)
  = (Ok Locales.esES, Driver.skip 1 (Sample.browserOn Sample.home Sample.typeDraws)).
Proof.
  pose proof (pickRandomLocale_weighted
                (Sample.browserOn Sample.home Sample.typeDraws)
                ltac:(vm_compute; discriminate) ltac:(vm_compute; reflexivity))
    as (E & _).
  exact E.
Defined.

(** ** The reporter's page set *)

Section ReportedPages.
Import Driver Humanizer Actions Loop Exploration.
Context `{Platform}.
Variable mediaBody zoomBody : M Browser (option string).
Variable humanIdle : M Browser string.
Variable cookieBody : M Browser bool.
Variable clock : nat -> Z.
Variable ctx : LoopContext.
Local Open Scope js_scope.

Lemma pairs_ret {A} (a : A) : pairs (ret a).
Proof. intros w r w' E. now injection E as _ <-. Qed.

Lemma pairs_gets {A} (f : Run -> A) : pairs (gets f).
Proof. intros w r w' E. now injection E as _ <-. Qed.

Lemma pairs_bind {A B} (m : M Run A) (k : A -> M Run B) :
  pairs m -> (∀ a, pairs (k a)) -> pairs (bind m k).
Proof.
  intros Hm Hk w r w' E Hp.
  apply bind_inv in E as [(e & E & _)|(a & w1 & E1 & E2)].
  - eapply Hm; eassumption.
  - eapply Hk; [exact E2|]. eapply Hm; eassumption.
Qed.

Lemma pairs_try_catch {A} (m : M Run A) (h : string -> M Run A) :
  pairs m -> (∀ e, pairs (h e)) -> pairs (try_catch m h).
Proof.
  intros Hm Hh w r w' E Hp. unfold try_catch in E.
  destruct (m w) as [[a|e] w1] eqn:E1.
  - injection E as <- <-. eapply Hm; eassumption.
  - eapply Hh; [exact E|]. eapply Hm; eassumption.
Qed.

Lemma pairs_if {A} (c : bool) (m1 m2 : M Run A) :
  pairs m1 -> pairs m2 -> pairs (if c then m1 else m2).
Proof. now destruct c. Qed.

Lemma pairs_isTimedOut : pairs (isTimedOut clock ctx).
Proof. intros w r w' E. now injection E as _ <-. Qed.

Lemma pairs_onBrowser {A} (m : M Browser A) : pairs (onSession (onBrowser m)).
Proof.
  intros w r w' E. unfold onSession, onBrowser in E.
  destruct (m (browser (session w))) as [r0 b]. now injection E as _ <-.
Qed.

Lemma pairs_recordAction a d u : pairs (onSession (recordAction a d u)).
Proof. intros w r w' E. now injection E as _ <-. Qed.

Lemma pairs_visit {A} u (k : M Run A) :
  pairs k ->
  pairs (onSession (visit u) ;; onSession (recordPageVisit u) ;; k).
Proof.
  intros Hk w r w' E Hp. eapply Hk; [exact E|].
  unfold paired in *. cbn. now rewrite Hp.
Qed.

Lemma pairs_performRandomAction currentUrl :
  pairs (onSession (performRandomAction mediaBody zoomBody humanIdle currentUrl)).
Proof.
  intros w r w' E Hp. unfold onSession in E.
  destruct (performRandomAction mediaBody zoomBody humanIdle currentUrl (session w))
    as [r0 s'] eqn:Ep.
  injection E as _ <-. unfold paired in *. cbn.
  apply performRandomAction_booked in Ep as (_ & [[Ev Epg]|(_ & _ & Ev & Epg)] & _);
    congruence.
Qed.

Lemma pairs_actionLoop n currentUrl :
  pairs (actionLoop mediaBody zoomBody humanIdle clock ctx n currentUrl).
Proof.
  induction n as [|n IH]; cbn [actionLoop]; [apply pairs_ret|].
  apply pairs_bind; [apply pairs_isTimedOut|intros late].
  apply pairs_if; [apply pairs_ret|].
  apply pairs_bind; [apply pairs_performRandomAction|intros away].
  apply pairs_if; [apply pairs_ret|exact IH].
Qed.

Lemma pairs_complete : pairs (complete clock ctx).
Proof. apply pairs_bind; [apply pairs_isTimedOut|intros; apply pairs_ret]. Qed.

Lemma pairs_iteration continue :
  pairs continue ->
  pairs (iteration mediaBody zoomBody humanIdle cookieBody clock ctx continue).
Proof.
  intros Hc. unfold iteration, belowTarget, currentPageUrl.
  repeat first
    [ exact Hc
    | apply pairs_complete
    | apply pairs_ret
    | apply pairs_gets
    | apply pairs_isTimedOut
    | apply pairs_onBrowser
    | apply pairs_recordAction
    | apply pairs_actionLoop
    | apply pairs_visit
    | apply pairs_if
    | apply pairs_try_catch; [|intros ?]
    | apply pairs_bind; [|intros ?] ].
Qed.

(** X27: the exploration loop keeps the reporter's page set equal to the
    visited set, whether it returns, throws or uses up its passes: every URL
    it adds to one it adds to the other. The page count of the report is
    therefore the size of the visited set, and stays within the page
    target. *)
Theorem exploration_reports_visited (fuel : nat) (w w' : Run) (r : Res (option unit)) :
  explorationFrom mediaBody zoomBody humanIdle cookieBody clock ctx fuel w = (r, w') ->
  pagesVisited (session w) = visitedUrls (session w) ->
  pagesVisited (session w') = visitedUrls (session w')
  ∧ (Z.of_nat (size (pagesVisited (session w')))
     <= Z.max (Z.of_nat (size (pagesVisited (session w)))) (targetPages ctx))%Z.
Proof.
  intros E Hp.
  assert (Hpairs : ∀ n, pairs (explorationFrom mediaBody zoomBody humanIdle
                                 cookieBody clock ctx n)).
  { induction n as [|n IH]; cbn [explorationFrom];
      [apply pairs_ret|apply pairs_iteration, IH]. }
  pose proof (Hpairs fuel w r w' E Hp) as Hp'. unfold paired in Hp'.
  split; [exact Hp'|].
  rewrite Hp', Hp. eapply explore_within, E.
Qed.

End ReportedPages.

Lemma exploration_reports_visited_witness :
  Loop.pagesVisited
    (Exploration.session
       (snd (Exploration.explorationFrom Sample.noMedia Sample.noZoom Sample.idles
               Sample.noCookies Sample.lateClock Sample.exContext 1 Sample.exStart)))
  = Loop.visitedUrls
      (Exploration.session
         (snd (Exploration.explorationFrom Sample.noMedia Sample.noZoom Sample.idles
                 Sample.noCookies Sample.lateClock Sample.exContext 1 Sample.exStart))).
Proof.
  pose proof (exploration_reports_visited Sample.noMedia Sample.noZoom Sample.idles
                Sample.noCookies Sample.lateClock Sample.exContext 1 Sample.exStart
                _ _ (surjective_pairing _) eq_refl) as (Heq & _).
  exact Heq.
Defined.

(** ** Going back in the history *)

Section GoingBack.
Import Driver Humanizer Actions.
Context `{Platform}.
Local Open Scope js_scope.

Ltac quiet :=
  let Hin := fresh "Hin" in
  intros Hin;
  repeat (apply elem_of_cons in Hin as [Hin|Hin]; [discriminate Hin|]);
  inversion Hin.


End GoingBack.

(** ** The action breakdown of the report *)

Section Breakdown.
Import Loop.

Lemma actionCounts_snoc records record :
  actionCounts (records ++ [record]) = countAction (actionCounts records) record.
Proof. unfold actionCounts. now rewrite fold_left_app. Qed.

Lemma countedTotal_fresh (counts : gmap string nat) key n :
  counts !! key = None -> countedTotal (<[key := n]> counts) = n + countedTotal counts.
Proof.
  intros E. unfold countedTotal.
  apply (map_fold_insert_L (fun _ n acc => n + acc)); [intros; lia|exact E].
Qed.

Lemma countedTotal_insert (counts : gmap string nat) key n :
  countedTotal (<[key := n]> counts) + default 0 (counts !! key)
  = countedTotal counts + n.
Proof.
  destruct (counts !! key) as [old|] eqn:E; cbn.
  - rewrite <- (insert_delete_eq counts key n).
    rewrite countedTotal_fresh by apply lookup_delete_eq.
    rewrite <- (insert_delete_id counts key old E) at 2.
    rewrite countedTotal_fresh by apply lookup_delete_eq. lia.
  - rewrite countedTotal_fresh by exact E. lia.
Qed.

(** X29: the action breakdown of the report adds up: the count listed for an
    action is the number of its records, the counts sum to the total number
    of records, and exactly the actions that were recorded are listed. *)
Theorem actionCounts_breakdown (records : list ActionRecord) :
  (∀ name, default 0 (actionCounts records !! name)
           = length (filter (fun record => action record = name) records))
  ∧ countedTotal (actionCounts records) = length records
  ∧ (∀ name, is_Some (actionCounts records !! name)
             ↔ ∃ record, record ∈ records ∧ action record = name).
Proof.
  assert (Hcount : ∀ name,
            default 0 (actionCounts records !! name)
            = length (filter (fun record => action record = name) records)
            ∧ (is_Some (actionCounts records !! name)
               ↔ ∃ record, record ∈ records ∧ action record = name)).
  { intros name. induction records as [|record records IH] using rev_ind.
    - cbn. split; [reflexivity|]. split; [intros [x Hx]; discriminate|].
      intros (record & Hin & _). inversion Hin.
    - destruct IH as [IHn IHs]. rewrite actionCounts_snoc. unfold countAction.
      rewrite filter_app, length_app.
      destruct (decide (action record = name)) as [Heq|Hne].
      + subst name. rewrite lookup_insert_eq.
        rewrite filter_cons_True by reflexivity. cbn. rewrite IHn.
        split; [lia|]. split; [|eauto].
        intros _. exists record. split; [|reflexivity].
        apply elem_of_app. right. apply list_elem_of_here.
      + rewrite lookup_insert_ne by exact Hne.
        rewrite filter_cons_False by exact Hne. cbn. rewrite IHn.
        split; [lia|]. rewrite IHs. split.
        * intros (x & Hin & Hx). exists x. split; [|exact Hx].
          apply elem_of_app. now left.
        * intros (x & Hin & Hx). exists x. split; [|exact Hx].
          apply elem_of_app in Hin as [Hin|Hin]; [exact Hin|].
          apply list_elem_of_singleton in Hin. congruence. }
  split; [intros name; apply Hcount|]. split; [|intros name; apply Hcount].
  clear Hcount. induction records as [|record records IH] using rev_ind;
    [reflexivity|].
  rewrite actionCounts_snoc, length_app. unfold countAction. cbn.
  pose proof (countedTotal_insert (actionCounts records) (action record)
                (default 0 (actionCounts records !! action record) + 1)).
  lia.
Qed.

End Breakdown.
